(** * solana-order-engine: the order-orchestration pipeline

    A shallow embedding of the TypeScript sources
      - [src/router/dexRouter.ts]   (getBestQuote, executeSwap)
      - [src/utils/solanaHelpers.ts] (wrapSOLAndGetCleanup)
      - [src/config/db.ts]           (retry, insertOrder, updateOrderStatus, setRoutingInfo)
      - [src/websocket/wsManager.ts] (subscribeSocket, unsubscribeSocket, publishOrderUpdate)
      - [src/worker.ts]              (the BullMQ job processor)
    followed by the properties of the pipeline that are proved about it.

    Conventions.
      - A [BN] (bn.js) is a [Z]; [BN.mul] is [Z.mul] and [BN.div] is [Z.quot]
        (bn.js divides the magnitudes and restores the sign).
      - An async function is a program in the monad [Prog]: it threads the
        state it can touch and either returns a value or throws.
      - Every call that leaves the process (Redis, Postgres, the venue SDKs,
        the chain) takes its outcome from the environment [Env].
      - [console.*] logging, timestamps and sleeps are not modelled. *)

From Stdlib Require Import ZArith Lia Ascii String Sorted.
From stdpp Require Import gmap strings list fin_maps pretty.

Local Open Scope string_scope.
Local Open Scope Z_scope.
Local Open Scope list_scope.

(* ===================================================================== *)
(** ** Programs that may throw *)
(* ===================================================================== *)

(** [String(err)] of a thrown JavaScript value. *)
Definition Err := string.

Inductive Res (A : Type) : Type :=
| Ok (a : A)
| Throw (e : Err).
Arguments Ok {A} a.
Arguments Throw {A} e.

Definition Prog (S A : Type) : Type := S -> Res A * S.

Definition ret {S A} (a : A) : Prog S A := fun s => (Ok a, s).

Definition throw {S A} (e : Err) : Prog S A := fun s => (Throw e, s).

Definition bind {S A B} (m : Prog S A) (k : A -> Prog S B) : Prog S B :=
  fun s =>
    match m s with
    | (Ok a, s') => k a s'
    | (Throw e, s') => (Throw e, s')
    end.

(** [try { m } catch (e) { h e }]: what [m] did before it threw stays done. *)
Definition try_catch {S A} (m : Prog S A) (h : Err -> Prog S A) : Prog S A :=
  fun s =>
    match m s with
    | (Ok a, s') => (Ok a, s')
    | (Throw e, s') => h e s'
    end.

(** [try { m } finally { f }]: [f] runs on both exits; when [f] itself
    throws, its error replaces the outcome of [m]. *)
Definition try_finally {S A} (m : Prog S A) (f : Prog S unit) : Prog S A :=
  fun s =>
    match m s with
    | (r, s') =>
        match f s' with
        | (Ok _, s'') => (r, s'')
        | (Throw e, s'') => (Throw e, s'')
        end
    end.

(** The outcome of an external call, as the environment decides it. *)
Definition of_res {S A} (r : Res A) : Prog S A := fun s => (r, s).

Definition of_outcome {S} (o : option Err) : Prog S unit :=
  match o with
  | None => ret tt
  | Some e => throw e
  end.

Definition get {S} : Prog S S := fun s => (Ok s, s).
Definition modify {S} (f : S -> S) : Prog S unit := fun s => (Ok tt, f s).

(** A block with [let]-declared mutable locals [L] around a program on [S]. *)
Definition lift {S L A} (m : Prog S A) : Prog (S * L) A :=
  fun sl =>
    match m (fst sl) with
    | (r, s') => (r, (s', snd sl))
    end.

Definition with_locals {S L A} (l0 : L) (m : Prog (S * L) A) : Prog S A :=
  fun s =>
    match m (s, l0) with
    | (r, sl) => (r, fst sl)
    end.

Declare Scope prog_scope.
Delimit Scope prog_scope with prog.
Notation "'let!' x ':=' m 'in' k" := (bind m (fun x => k))
  (at level 10, x name, m at level 100, k at level 200) : prog_scope.
Notation "m '>>>' k" := (bind m (fun _ => k))
  (at level 65, right associativity) : prog_scope.
Local Open Scope prog_scope.

(* ===================================================================== *)
(** ** Data model *)
(* ===================================================================== *)

(** The lifecycle statuses carried by events and by the [status] column. *)
Inductive Status := pending | routing | building | submitted | confirmed | failed.

Global Instance Status_eq_dec : EqDecision Status.
Proof. solve_decision. Defined.

(** [type Quote = { dex: 'meteora'|'raydium'|'mock', ... }] *)
Inductive Dex := meteora | raydium | mock.

Global Instance Dex_eq_dec : EqDecision Dex.
Proof. solve_decision. Defined.

Definition Dex_to_string (d : Dex) : string :=
  match d with
  | meteora => "meteora"
  | raydium => "raydium"
  | mock => "mock"
  end.

(** JSON values ([any] payloads, [jsonb] columns). *)
#[local] Unset Elimination Schemes.
Inductive Json :=
| JNull
| JBool (b : bool)
| JNum (z : Z)
| JStr (s : string)
| JArr (l : list Json)
| JObj (kvs : list (string * Json)).
#[local] Set Elimination Schemes.

Record Quote := {
  dex : Dex;
  outAmountBn : Z;
  details : Json;
}.

(** [{ simulated: true }] *)
Definition simulated_details : Json := JObj [("simulated", JBool true)].

(** What [amm.swap] of the Meteora SDK hands back, by the shape the code
    tests for: a transaction to sign and send ([sendRawTransaction], then
    [confirmTransaction]), an object that already carries a [txId], an
    object with an [execute] method, or none of these. *)
Inductive TxOrRes :=
| TxSerializable (send : Res string) (confirm : option Err)
| TxWithId (id : string)
| TxExecutable (execute : Res (option string))
| TxOther.

(** The outcomes of the calls [executeSwap] makes on the wallet and on the
    venue SDKs. A [Res] or [option Err] field is the outcome of the call
    named in its comment ([None]: the call succeeded). *)
Record ExecEnv := {
  (* createWrappedNativeAccount: the new token account *)
  wrap_result : Res string;
  (* closeAccount *)
  close_result : option Err;
  (* AmmImpl.create, new PublicKey(realTokenIn) *)
  meteora_create : option Err;
  (* amm.getSwapQuote: its swapOutAmount, when present *)
  meteora_swap_quote : Res (option Z);
  (* amm.swap *)
  meteora_swap : Res TxOrRes;
  (* initSdk *)
  raydium_sdk_init : option Err;
  (* cpmm.getPoolInfoFromRpc *)
  raydium_pool_info : option Err;
  (* CurveCalculator.swapBaseInput, when the SDK has it: its outputAmount *)
  raydium_curve : option (Res (option Z));
  (* the constant-product estimate after the fee, in BN arithmetic *)
  raydium_fallback : Res Z;
  (* cpmm && cpmm.swap *)
  raydium_has_swap : bool;
  (* cpmm.swap *)
  raydium_swap : option Err;
  (* execute({ sendAndConfirm: true }): txId ?? txid ?? signature ?? null *)
  raydium_exec : Res (option string);
  (* Date.now() when a transaction id is made up *)
  date_now : string;
}.

(** The process environment and the outcomes of the external calls of one
    job run. *)
Record Env := {
  (* process.env *)
  USE_MOCK : option string;
  POOL_ADDRESS : option string;
  POOL_ID : option string;
  (* venue SDK quotes: (swapOutAmount, details) or a throw *)
  meteora_quote : Res (Z * Json);
  raydium_quote : Res (Z * Json);
  (* pub.publish of a payload with the given status *)
  publish_result : Status -> option Err;
  (* pool.query of updateOrderStatus(_, status, _), per attempt of retry *)
  update_query : Status -> nat -> option Err;
  (* pool.query of setRoutingInfo, per attempt of retry *)
  routing_query : nat -> option Err;
  (* new Connection, JSON.parse(WALLET_PRIVATE_KEY_JSON), Keypair.fromSecretKey *)
  wallet_setup : option Err;
  (* the calls of executeSwap *)
  exec : ExecEnv;
}.

(* ===================================================================== *)
(** ** dexRouter.ts: quotes *)
(* ===================================================================== *)

Definition lower_ascii (c : ascii) : ascii :=
  let n := nat_of_ascii c in
  if ((65 <=? n)%nat && (n <=? 90)%nat)%bool then ascii_of_nat (n + 32) else c.

Fixpoint toLowerCase (s : string) : string :=
  match s with
  | EmptyString => EmptyString
  | String c s' => String (lower_ascii c) (toLowerCase s')
  end.

(** [(process.env.USE_MOCK ?? 'false').toLowerCase() === 'true'] *)
Definition envUseMock (env : Env) : bool :=
  String.eqb (toLowerCase (default "false" (USE_MOCK env))) "true".

(** JavaScript truthiness of a [string | undefined]. *)
Definition truthy (s : option string) : bool :=
  match s with
  | Some s => negb (String.eqb s "")
  | None => false
  end.

(** [amountInBn.mul(new BN(9949)).div(new BN(10000))] *)
Definition mock_out (amountInBn : Z) : Z := Z.quot (amountInBn * 9949) 10000.

Definition mock_quote (amountInBn : Z) : Quote :=
  {| dex := mock; outAmountBn := mock_out amountInBn; details := simulated_details |}.

Section Router.
Context {S : Type}.
Variable env : Env.

(** The SDK either throws or yields an amount; the function tags it. *)
Definition getMeteoraQuote (poolAddress inputMint : string) (amountInBn : Z)
  : Prog S Quote :=
  match meteora_quote env with
  | Ok (out, d) => ret {| dex := meteora; outAmountBn := out; details := d |}
  | Throw e => throw e
  end.

Definition getRaydiumQuote (poolId inputMint : string) (amountInBn : Z)
  : Prog S Quote :=
  match raydium_quote env with
  | Ok (out, d) => ret {| dex := raydium; outAmountBn := out; details := d |}
  | Throw e => throw e
  end.
End Router.

(** [Array.prototype.sort(cmp)] is a stable sort (ECMAScript 2019): elements
    that compare equal keep their relative order. Insertion from the right,
    placing an element in front of the first one it does not come after,
    is such a sort. *)
Fixpoint sort_insert {A} (cmp : A -> A -> Z) (x : A) (l : list A) : list A :=
  match l with
  | [] => [x]
  | y :: l' => if cmp x y <=? 0 then x :: y :: l' else y :: sort_insert cmp x l'
  end.

Definition array_sort {A} (cmp : A -> A -> Z) (l : list A) : list A :=
  foldr (sort_insert cmp) [] l.

(** [(a,b) => A === B ? 0 : (A > B ? -1 : 1)] on the two output amounts. *)
Definition compareQuotes (a b : Quote) : Z :=
  let A := outAmountBn a in
  let B := outAmountBn b in
  if A =? B then 0 else if A >? B then -1 else 1.

Record QuoteParams := {
  qp_amountInBn : Z;
  qp_tokenIn : string;
  qp_tokenOut : string;
  qp_meteoraPoolAddress : option string;
  qp_raydiumPoolId : option string;
}.

Section BestQuote.
Context {S : Type}.
Variable env : Env.

(** The [quotes] array after the two guarded venue queries. *)
Definition collectQuotes (params : QuoteParams) : Prog S (list Quote) :=
  let quotes : list Quote := [] in
  let! quotes :=
    (if truthy (qp_meteoraPoolAddress params) then
       try_catch
         (let! q := getMeteoraQuote env (default "" (qp_meteoraPoolAddress params))
                      (qp_tokenIn params) (qp_amountInBn params) in
          ret (quotes ++ [q])%list)
         (fun e => ret quotes)
     else ret quotes) in
  let! quotes :=
    (if truthy (qp_raydiumPoolId params) then
       try_catch
         (let! q := getRaydiumQuote env (default "" (qp_raydiumPoolId params))
                      (qp_tokenIn params) (qp_amountInBn params) in
          ret (quotes ++ [q])%list)
         (fun e => ret quotes)
     else ret quotes) in
  ret quotes.

Definition getBestQuote (params : QuoteParams) : Prog S Quote :=
  if envUseMock env then
    ret (mock_quote (qp_amountInBn params))
  else
    let! quotes := collectQuotes params in
    if (length quotes =? 0)%nat then
      ret (mock_quote (qp_amountInBn params))
    else
      match array_sort compareQuotes quotes with
      | chosen :: _ => ret chosen
      | [] => throw "TypeError: Cannot read properties of undefined (reading 'dex')"
      end.
End BestQuote.

(* ===================================================================== *)
(** ** The state a job run can touch *)
(* ===================================================================== *)

(** The lifecycle event payload handed to [publishOrderUpdate]. *)
Record Payload := {
  p_orderId : string;
  p_status : Status;
  p_dex : option Dex;
  p_txHash : option string;
  p_executedOut : option Z;
  p_error : option string;
}.

Definition payload (orderId : string) (st : Status) : Payload :=
  {| p_orderId := orderId; p_status := st; p_dex := None; p_txHash := None;
     p_executedOut := None; p_error := None |}.

(** A row of ["order-engine".orders]; nullable columns are options. *)
Record OrderRow := {
  user_id : option string;
  token_in : string;
  token_out : string;
  amount_in : string;
  status : Status;
  attempts : option Z;
  error : option string;
  executed_price : option Z;
  tx_hash : option string;
  routing_info : option (gmap string Json);
}.

(** The statements [db.ts] sends, as they reach the table. *)
Inductive SqlWrite :=
| SqlUpdateStatus (id : string) (st : Status) (delta : Z)
| SqlSetRouting (id : string).

(** What [executeSwap] asks of the chain: the account it creates and
    closes, and the venue's swap it invokes. *)
Inductive ChainCall :=
| WrappedAccountCreated (account : string)
| CloseAccountCalled (account : string) (closed : bool)
| VenueSwap (d : Dex).

Record World := {
  bus : list (string * Payload);      (* messages Redis accepted, oldest first *)
  db : gmap string OrderRow;          (* the orders table, by id *)
  sql_log : list SqlWrite;            (* statements Postgres executed *)
  chain : list ChainCall;             (* calls that reached the chain *)
}.

Definition publish_to (channel : string) (m : Payload) (w : World) : World :=
  {| bus := bus w ++ [(channel, m)]; db := db w; sql_log := sql_log w; chain := chain w |}.

Definition execute_sql (entry : SqlWrite)
    (stmt : gmap string OrderRow -> gmap string OrderRow) (w : World) : World :=
  {| bus := bus w; db := stmt (db w); sql_log := sql_log w ++ [entry]; chain := chain w |}.

Definition chain_call (c : ChainCall) (w : World) : World :=
  {| bus := bus w; db := db w; sql_log := sql_log w; chain := chain w ++ [c] |}.

(* ===================================================================== *)
(** ** wsManager.ts *)
(* ===================================================================== *)

Inductive RedisCmd :=
| SUBSCRIBE (channel : string)
| UNSUBSCRIBE (channel : string).

(** The module-level [subscribers] map (sockets by identity) and the
    commands issued on the [sub] connection. *)
Record WsState := {
  subscribers : gmap string (gset nat);
  sub_commands : list RedisCmd;
}.

(** [`order:${orderId}`] *)
Definition order_channel (orderId : string) : string := ("order:" ++ orderId)%string.

Definition subscribeSocket (orderId : string) (ws : nat) (st : WsState) : WsState :=
  let '(set, st) :=
    match subscribers st !! orderId with
    | Some set => (set, st)
    | None =>
        (∅, {| subscribers := <[orderId := ∅]> (subscribers st);
               sub_commands := sub_commands st ++ [SUBSCRIBE (order_channel orderId)] |})
    end in
  {| subscribers := <[orderId := set ∪ {[ws]}]> (subscribers st);
     sub_commands := sub_commands st |}.

Definition unsubscribeSocket (orderId : string) (ws : nat) (st : WsState) : WsState :=
  match subscribers st !! orderId with
  | None => st
  | Some set =>
      let set := set ∖ {[ws]} in
      let st := {| subscribers := <[orderId := set]> (subscribers st);
                   sub_commands := sub_commands st |} in
      if (size set =? 0)%nat then
        {| subscribers := delete orderId (subscribers st);
           sub_commands := sub_commands st ++ [UNSUBSCRIBE (order_channel orderId)] |}
      else st
  end.

(** The channels the [sub] connection listens on once its commands are
    carried out. *)
Definition redis_step (chs : gset string) (c : RedisCmd) : gset string :=
  match c with
  | SUBSCRIBE ch => chs ∪ {[ch]}
  | UNSUBSCRIBE ch => chs ∖ {[ch]}
  end.

Definition subscribed_channels (cmds : list RedisCmd) : gset string :=
  foldl redis_step ∅ cmds.

Section Publish.
Variable env : Env.

(** Logs and rethrows when [pub.publish] fails. *)
Definition publishOrderUpdate (orderId : string) (m : Payload) : Prog World unit :=
  let channel := order_channel orderId in
  try_catch
    (match publish_result env (p_status m) with
     | None => modify (publish_to channel m)
     | Some e => throw e
     end)
    (fun e => throw e).
End Publish.

(* ===================================================================== *)
(** ** db.ts *)
(* ===================================================================== *)

(** [retry(fn, attempts)]: the loop [for (i = 0; i < attempts; i++)], with
    [lastErr] carried along; [fn] sees which attempt it is. *)
Fixpoint retry_loop {S T} (fn : nat -> Prog S T) (i n : nat) (lastErr : Err)
  : Prog S T :=
  match n with
  | O => throw lastErr
  | Datatypes.S n' => try_catch (fn i) (fun e => retry_loop fn (Datatypes.S i) n' e)
  end.

Definition retry {S T} (fn : nat -> Prog S T) (attempts : nat) : Prog S T :=
  retry_loop fn 0 attempts "undefined".

Record UpdateOpts := {
  o_attemptsDelta : option Z;
  o_error : option string;
  o_txHash : option string;
  o_executedPrice : option Z;
  o_routing : option (gmap string Json);
}.

(** The default [opts = {}]. *)
Definition no_opts : UpdateOpts :=
  {| o_attemptsDelta := None; o_error := None; o_txHash := None;
     o_executedPrice := None; o_routing := None |}.

(** [a || b] on two jsonb objects: the keys of both, [b] winning. *)
Definition jsonb_concat (a b : gmap string Json) : gmap string Json := b ∪ a.

(** The [SET] clause of [updateOrderStatus] on one row. *)
Definition update_status_row (st : Status) (delta : Z) (err txh : option string)
    (price : option Z) (rt : gmap string Json) (r : OrderRow) : OrderRow :=
  {| user_id := user_id r; token_in := token_in r; token_out := token_out r;
     amount_in := amount_in r;
     status := st;
     attempts := Some (default 0 (attempts r) + delta);
     error := err;
     tx_hash := txh;
     executed_price := price;
     routing_info := Some (jsonb_concat (default ∅ (routing_info r)) rt) |}.

(** The [SET] clause of [setRoutingInfo] on one row. *)
Definition set_routing_row (rt : gmap string Json) (r : OrderRow) : OrderRow :=
  {| user_id := user_id r; token_in := token_in r; token_out := token_out r;
     amount_in := amount_in r; status := status r; attempts := attempts r;
     error := error r; tx_hash := tx_hash r; executed_price := executed_price r;
     routing_info := Some rt |}.

(** [pool.query]: the statement runs, or the call throws and nothing ran. *)
Definition pool_query (outcome : option Err) (entry : SqlWrite)
    (stmt : gmap string OrderRow -> gmap string OrderRow) : Prog World unit :=
  match outcome with
  | None => modify (execute_sql entry stmt)
  | Some e => throw e
  end.

Section Db.
Variable env : Env.

Definition updateOrderStatus (id : string) (st : Status) (opts : UpdateOpts)
  : Prog World unit :=
  let delta := default 0 (o_attemptsDelta opts) in
  retry (fun i =>
           pool_query (update_query env st i) (SqlUpdateStatus id st delta)
             (alter (update_status_row st delta (o_error opts) (o_txHash opts)
                       (o_executedPrice opts) (default ∅ (o_routing opts))) id))
        3.

Definition setRoutingInfo (id : string) (rt : gmap string Json) : Prog World unit :=
  retry (fun i =>
           pool_query (routing_query env i) (SqlSetRouting id)
             (alter (set_routing_row rt) id))
        3.
End Db.

(* ===================================================================== *)
(** ** solanaHelpers.ts and dexRouter.ts: execution *)
(* ===================================================================== *)

(** [NATIVE_MINT.toBase58()] *)
Definition WSOL_MINT : string := "So11111111111111111111111111111111111111112".

Record Wrapped := {
  tokenAccount : string;
  cleanup : Prog World unit;
}.

Record SwapParams := {
  sp_dex : Dex;
  sp_tokenIn : option string;
  sp_tokenOut : string;
  sp_amountInBn : Z;
  sp_meteoraPoolAddress : option string;
  sp_raydiumPoolId : option string;
}.

Record SwapResult := {
  txId : option string;
  executedOutBn : option Z;
  res_dex : Dex;
  simulated : bool;
}.

(** The two [let] variables of [executeSwap]. *)
Record SwapLocals := {
  cleanupWrapped : option (Prog World unit);
  realTokenIn : option string;
}.

Definition set_cleanupWrapped (c : Prog World unit) : Prog (World * SwapLocals) unit :=
  modify (fun sl => (fst sl, {| cleanupWrapped := Some c;
                                realTokenIn := realTokenIn (snd sl) |})).

Definition set_realTokenIn (t : string) : Prog (World * SwapLocals) unit :=
  modify (fun sl => (fst sl, {| cleanupWrapped := cleanupWrapped (snd sl);
                                realTokenIn := Some t |})).

Definition venue_swap_called (d : Dex) : Prog (World * SwapLocals) unit :=
  lift (modify (chain_call (VenueSwap d))).

Section Execute.
Variable env : Env.

(** [closeAccount] inside [cleanup] is best effort: its failure is logged. *)
Definition wrapSOLAndGetCleanup (lamports : Z) : Prog World Wrapped :=
  let! tokenAccountPub :=
    (match wrap_result (exec env) with
     | Ok a => modify (chain_call (WrappedAccountCreated a)) >>> ret a
     | Throw e => throw e
     end) in
  let cleanup :=
    try_catch
      (match close_result (exec env) with
       | None => modify (chain_call (CloseAccountCalled tokenAccountPub true))
       | Some e =>
           modify (chain_call (CloseAccountCalled tokenAccountPub false)) >>> throw e
       end)
      (fun err => ret tt) in
  ret {| tokenAccount := tokenAccountPub; cleanup := cleanup |}.

(** The branch [params.dex === 'meteora']. *)
Definition execute_meteora (params : SwapParams) : Prog (World * SwapLocals) SwapResult :=
  if negb (truthy (sp_meteoraPoolAddress params)) then
    throw "Error: meteoraPoolAddress is required for meteora execution"
  else
    of_outcome (meteora_create (exec env)) >>>
    let! quote := of_res (meteora_swap_quote (exec env)) in
    venue_swap_called meteora >>>
    let! txOrRes := of_res (meteora_swap (exec env)) in
    let! txId :=
      (match txOrRes with
       | TxSerializable send confirm =>
           let! sig := of_res send in
           of_outcome confirm >>> ret (Some sig)
       | TxWithId id => ret (Some id)
       | TxExecutable execute => of_res execute
       | TxOther => ret (Some ("SIM-METEORA-" ++ date_now (exec env))%string)
       end) in
    let executed := quote in
    ret {| txId := txId; executedOutBn := executed; res_dex := meteora;
           simulated := false |}.

(** The [else] branch: Raydium. [swapResult] is followed through its
    [outputAmount]. *)
Definition execute_raydium (params : SwapParams) : Prog (World * SwapLocals) SwapResult :=
  of_outcome (raydium_sdk_init (exec env)) >>>
  if negb (truthy (sp_raydiumPoolId params)) then
    throw "Error: raydiumPoolId is required for raydium execution"
  else
    of_outcome (raydium_pool_info (exec env)) >>>
    let! swapResult :=
      (match raydium_curve (exec env) with
       | Some swapBaseInput =>
           try_catch (let! r := of_res swapBaseInput in ret (Some r))
                     (fun e => ret None)
       | None => ret None
       end) in
    let! swapResult :=
      (match swapResult with
       | None =>
           let! afterFee := of_res (raydium_fallback (exec env)) in
           ret (Some afterFee)
       | Some r => ret r
       end) in
    if negb (raydium_has_swap (exec env)) then
      throw "Error: Raydium CPmm.swap method not available on this SDK instance"
    else
      venue_swap_called raydium >>>
      of_outcome (raydium_swap (exec env)) >>>
      let! txId := of_res (raydium_exec (exec env)) in
      let executedOut := swapResult in
      ret {| txId := txId; executedOutBn := executedOut; res_dex := raydium;
             simulated := false |}.

Definition executeSwap (params : SwapParams) : Prog World SwapResult :=
  if (envUseMock env || bool_decide (sp_dex params = mock))%bool then
    let out := mock_out (sp_amountInBn params) in
    ret {| txId := Some ("MOCK-" ++ date_now (exec env))%string;
           executedOutBn := Some out; res_dex := mock; simulated := true |}
  else
    with_locals {| cleanupWrapped := None; realTokenIn := sp_tokenIn params |}
      (try_finally
         ((if bool_decide (sp_tokenIn params = Some WSOL_MINT) then ret tt
           else if (bool_decide (sp_tokenIn params = Some "SOL")
                    || bool_decide (sp_tokenIn params = None))%bool then
             let lamports := sp_amountInBn params in
             let! wrapped := lift (wrapSOLAndGetCleanup lamports) in
             set_cleanupWrapped (cleanup wrapped) >>>
             set_realTokenIn (tokenAccount wrapped)
           else ret tt) >>>
          (if bool_decide (sp_dex params = meteora) then execute_meteora params
           else execute_raydium params))
         (let! sl := get in
          match cleanupWrapped (snd sl) with
          | Some c => try_catch (lift c) (fun e => ret tt)
          | None => ret tt
          end)).
End Execute.

(* ===================================================================== *)
(** ** worker.ts *)
(* ===================================================================== *)

(** [job.data]; [amount_in] is the integer its decimal string denotes
    ([new BN(amount_in.toString())]). *)
Record Job := {
  orderId : string;
  j_token_in : string;
  j_token_out : string;
  j_amount_in : Z;
}.

(** [{ chosen, estimatedOut, details }] *)
Definition routing_of_quote (q : Quote) : gmap string Json :=
  {[ "chosen" := JStr (Dex_to_string (dex q));
     "estimatedOut" := JStr (pretty (outAmountBn q));
     "details" := details q ]}.

(** [{ chosen }] *)
Definition chosen_only (q : Quote) : gmap string Json :=
  {[ "chosen" := JStr (Dex_to_string (dex q)) ]}.

(** The parameters the worker hands to the router and to the execution. *)
Definition job_quote_params (env : Env) (job : Job) : QuoteParams :=
  {| qp_amountInBn := j_amount_in job; qp_tokenIn := j_token_in job;
     qp_tokenOut := j_token_out job;
     qp_meteoraPoolAddress := POOL_ADDRESS env;
     qp_raydiumPoolId := POOL_ID env |}.

Definition job_swap_params (env : Env) (job : Job) (quote : Quote) : SwapParams :=
  {| sp_dex := dex quote; sp_tokenIn := Some (j_token_in job);
     sp_tokenOut := j_token_out job; sp_amountInBn := j_amount_in job;
     sp_meteoraPoolAddress := POOL_ADDRESS env;
     sp_raydiumPoolId := POOL_ID env |}.

(** [Number(bn.toString())]: the double nearest to the integer, a tie
    going to the even significand, for integers below [2 ^ 1024]. An
    integer of at most 53 bits is itself. *)
Definition Number_of_BN (z : Z) : Z :=
  let m := Z.abs z in
  let bits := Z.log2 m + 1 in
  if bits <=? 53 then z
  else
    let e := bits - 53 in
    let q := Z.shiftr m e in
    let r := m - Z.shiftl q e in
    let half := Z.shiftl 1 (e - 1) in
    let q' := if ((half <? r) || ((r =? half) && Z.odd q))%bool then q + 1 else q in
    Z.sgn z * Z.shiftl q' e.

Section Worker.
Variable env : Env.

(** The inner [try] block: announce, execute, confirm. The event carries
    the digits of [executedOutBn], the write its [Number]. *)
Definition execution_block (job : Job) (quote : Quote) : Prog World unit :=
  let orderId := orderId job in
  publishOrderUpdate env orderId (payload orderId submitted) >>>
  let! res := executeSwap env (job_swap_params env job quote) in
  publishOrderUpdate env orderId
    {| p_orderId := orderId; p_status := confirmed; p_dex := None;
       p_txHash := txId res; p_executedOut := executedOutBn res; p_error := None |} >>>
  updateOrderStatus env orderId confirmed
    {| o_attemptsDelta := Some 0; o_error := None; o_txHash := txId res;
       o_executedPrice := Number_of_BN <$> executedOutBn res;
       o_routing := Some (chosen_only quote) |} >>>
  ret tt.

(** The inner [catch] block. *)
Definition execution_failed (job : Job) (err : Err) : Prog World unit :=
  let orderId := orderId job in
  publishOrderUpdate env orderId
    {| p_orderId := orderId; p_status := failed; p_dex := None;
       p_txHash := None; p_executedOut := None; p_error := Some err |} >>>
  updateOrderStatus env orderId failed
    {| o_attemptsDelta := Some 1; o_error := Some err; o_txHash := None;
       o_executedPrice := None; o_routing := None |} >>>
  throw err.

(** The first two statements of the outer [try]. *)
Definition reassert_pending (job : Job) : Prog World unit :=
  let orderId := orderId job in
  publishOrderUpdate env orderId (payload orderId pending) >>>
  updateOrderStatus env orderId pending no_opts.

(** The job processor handed to [new Worker('orders', ...)]. *)
Definition worker (job : Job) : Prog World unit :=
  let orderId := orderId job in
  try_catch
    (reassert_pending job >>>
     (match wallet_setup env with
      | None => ret tt
      | Some e => throw e
      end) >>>
     publishOrderUpdate env orderId (payload orderId routing) >>>
     let! quote := getBestQuote env (job_quote_params env job) in
     setRoutingInfo env orderId (routing_of_quote quote) >>>
     publishOrderUpdate env orderId
       {| p_orderId := orderId; p_status := building; p_dex := Some (dex quote);
          p_txHash := None; p_executedOut := None; p_error := None |} >>>
     updateOrderStatus env orderId routing no_opts >>>
     try_catch (execution_block job quote) (execution_failed job))
    (fun outerErr => throw outerErr).
End Worker.

(* ===================================================================== *)
(** ** Vocabulary of the statements *)
(* ===================================================================== *)

(** What one guarded venue query leaves in the [quotes] array. *)
Definition venue_quotes (d : Dex) (pool : option string) (r : Res (Z * Json))
  : list Quote :=
  if truthy pool then
    match r with
    | Ok (out, dt) => [{| dex := d; outAmountBn := out; details := dt |}]
    | Throw _ => []
    end
  else [].

(** The [quotes] array when both queries are done: Meteora's entry first. *)
Definition collected (env : Env) (params : QuoteParams) : list Quote :=
  venue_quotes meteora (qp_meteoraPoolAddress params) (meteora_quote env)
  ++ venue_quotes raydium (qp_raydiumPoolId params) (raydium_quote env).

(** Scenario: live mode, both pools configured, every external call
    succeeds; Meteora quotes 100 and Raydium 105. *)
Definition exec_live : ExecEnv :=
  {| wrap_result := Ok "TempWsolAccount";
     close_result := None;
     meteora_create := None;
     meteora_swap_quote := Ok (Some 100);
     meteora_swap := Ok (TxSerializable (Ok "sigM") None);
     raydium_sdk_init := None;
     raydium_pool_info := None;
     raydium_curve := Some (Ok (Some 105));
     raydium_fallback := Ok 104;
     raydium_has_swap := true;
     raydium_swap := None;
     raydium_exec := Ok (Some "sigR");
     date_now := "1700000000000" |}.

Definition env_live : Env :=
  {| USE_MOCK := None;
     POOL_ADDRESS := Some "MeteoraPool111";
     POOL_ID := Some "RaydiumPool111";
     meteora_quote := Ok (100, JNull);
     raydium_quote := Ok (105, JNull);
     publish_result := fun _ => None;
     update_query := fun _ _ => None;
     routing_query := fun _ => None;
     wallet_setup := None;
     exec := exec_live |}.

Definition with_quotes (m r : Res (Z * Json)) (env : Env) : Env :=
  {| USE_MOCK := USE_MOCK env; POOL_ADDRESS := POOL_ADDRESS env;
     POOL_ID := POOL_ID env;
     meteora_quote := m; raydium_quote := r;
     publish_result := publish_result env; update_query := update_query env;
     routing_query := routing_query env; wallet_setup := wallet_setup env;
     exec := exec env |}.

Definition with_use_mock (v : option string) (env : Env) : Env :=
  {| USE_MOCK := v; POOL_ADDRESS := POOL_ADDRESS env; POOL_ID := POOL_ID env;
     meteora_quote := meteora_quote env; raydium_quote := raydium_quote env;
     publish_result := publish_result env; update_query := update_query env;
     routing_query := routing_query env; wallet_setup := wallet_setup env;
     exec := exec env |}.

Definition params_live (amount : Z) : QuoteParams :=
  {| qp_amountInBn := amount; qp_tokenIn := "MintA"; qp_tokenOut := "MintB";
     qp_meteoraPoolAddress := POOL_ADDRESS env_live;
     qp_raydiumPoolId := POOL_ID env_live |}.

(** The fate of a statement sent through [retry(..., 3)]: it runs at the
    first attempt whose [pool.query] succeeds ([None]), or the third error
    is thrown. *)
Definition after_retries (q : nat -> option Err) : option Err :=
  match q 0%nat with
  | None => None
  | Some _ =>
      match q 1%nat with
      | None => None
      | Some _ => q 2%nat
      end
  end.

(** A stored [routing_info] key that the supplied value does not mention
    is still there after the write. *)
Definition keeps_other_keys (before after : option (gmap string Json))
    (supplied : gmap string Json) : Prop :=
  forall k v,
    default ∅ before !! k = Some v ->
    supplied !! k = None ->
    default ∅ after !! k = Some v.

(** Scenario: the order left behind by a first attempt that failed at
    execution. *)
Definition row_failed_once : OrderRow :=
  {| user_id := None; token_in := "MintA"; token_out := "MintB";
     amount_in := "1000000"; status := failed; attempts := Some 1;
     error := Some "Error: slippage exceeded"; executed_price := None;
     tx_hash := Some "sig-of-first-try";
     routing_info := Some {[ "chosen" := JStr "meteora";
                             "estimatedOut" := JStr "100" ]} |}.

Definition world_failed_once : World :=
  {| bus := []; db := {[ "order-1" := row_failed_once ]}; sql_log := []; chain := [] |}.

Definition job1 : Job :=
  {| orderId := "order-1"; j_token_in := "MintA"; j_token_out := "MintB";
     j_amount_in := 1000000 |}.

(** [{ chosen: 'raydium' }] *)
Definition chosen_raydium : gmap string Json := {[ "chosen" := JStr "raydium" ]}.

(** Scenario: a gateway process that has not subscribed anything yet. *)
Definition ws_fresh : WsState := {| subscribers := ∅; sub_commands := [] |}.

(** A world in which nothing has happened yet. *)
Definition world0 : World := {| bus := []; db := ∅; sql_log := []; chain := [] |}.

(** What a call of [executeSwap] returns or throws, and the calls it makes
    on chain; neither depends on the world it starts from. *)
Definition swap_outcome (env : Env) (params : SwapParams) : Res SwapResult :=
  fst (executeSwap env params world0).

Definition swap_calls (env : Env) (params : SwapParams) : list ChainCall :=
  chain (snd (executeSwap env params world0)).

Definition is_venue_swap (c : ChainCall) : Prop := exists d, c = VenueSwap d.

Definition add_calls (calls : list ChainCall) (w : World) : World :=
  {| bus := bus w; db := db w; sql_log := sql_log w; chain := chain w ++ calls |}.

(** The statuses of the messages a run added to the bus, and the statements
    it added to the SQL log. *)
Definition statuses (evs : list (string * Payload)) : list Status :=
  map (fun m => p_status (snd m)) evs.

Definition published_by (w w' : World) : list (string * Payload) :=
  drop (length (bus w)) (bus w').

Definition written_by (w w' : World) : list SqlWrite :=
  drop (length (sql_log w)) (sql_log w').

Definition with_publish (f : Status -> option Err) (env : Env) : Env :=
  {| USE_MOCK := USE_MOCK env; POOL_ADDRESS := POOL_ADDRESS env; POOL_ID := POOL_ID env;
     meteora_quote := meteora_quote env; raydium_quote := raydium_quote env;
     publish_result := f; update_query := update_query env;
     routing_query := routing_query env; wallet_setup := wallet_setup env;
     exec := exec env |}.

Definition with_update_query (f : Status -> nat -> option Err) (env : Env) : Env :=
  {| USE_MOCK := USE_MOCK env; POOL_ADDRESS := POOL_ADDRESS env; POOL_ID := POOL_ID env;
     meteora_quote := meteora_quote env; raydium_quote := raydium_quote env;
     publish_result := publish_result env; update_query := f;
     routing_query := routing_query env; wallet_setup := wallet_setup env;
     exec := exec env |}.

(** The venues reject the swap: Meteora's [amm.swap] and Raydium's
    [execute] throw [e]. *)
Definition with_rejected_swap (e : Err) (env : Env) : Env :=
  {| USE_MOCK := USE_MOCK env; POOL_ADDRESS := POOL_ADDRESS env; POOL_ID := POOL_ID env;
     meteora_quote := meteora_quote env; raydium_quote := raydium_quote env;
     publish_result := publish_result env; update_query := update_query env;
     routing_query := routing_query env; wallet_setup := wallet_setup env;
     exec :=
       {| wrap_result := wrap_result (exec env);
          close_result := close_result (exec env);
          meteora_create := meteora_create (exec env);
          meteora_swap_quote := meteora_swap_quote (exec env);
          meteora_swap := Throw e;
          raydium_sdk_init := raydium_sdk_init (exec env);
          raydium_pool_info := raydium_pool_info (exec env);
          raydium_curve := raydium_curve (exec env);
          raydium_fallback := raydium_fallback (exec env);
          raydium_has_swap := raydium_has_swap (exec env);
          raydium_swap := raydium_swap (exec env);
          raydium_exec := Throw e;
          date_now := date_now (exec env) |} |}.

(** The outcome of every publish but that of [st], which fails. *)
Definition publish_fails_at (st : Status) (env : Env) : Env :=
  with_publish (fun s => if decide (s = st) then Some "Error: Connection is closed."
                         else publish_result env s) env.

(** The outcome of every write but those of status [st], whose three
    attempts all fail. *)
Definition update_fails_at (st : Status) (env : Env) : Env :=
  with_update_query
    (fun s i => if decide (s = st) then Some "Error: connection terminated"
                else update_query env s i) env.

(** The quote the router returns for given parameters; it does not depend
    on the state the router is called in. *)
Definition best_quote (env : Env) (params : QuoteParams) : Res Quote :=
  fst (getBestQuote env params tt).

(** Every publish, every write and the wallet setup succeed. *)
Definition calls_succeed (env : Env) : Prop :=
  (forall s, publish_result env s = None) /\
  (forall s, after_retries (update_query env s) = None) /\
  after_retries (routing_query env) = None /\
  wallet_setup env = None.

(** Every statement of the outer [try] before the execution block
    succeeds. *)
Definition reaches_execution (env : Env) : Prop :=
  publish_result env pending = None /\
  after_retries (update_query env pending) = None /\
  wallet_setup env = None /\
  publish_result env routing = None /\
  after_retries (routing_query env) = None /\
  publish_result env building = None /\
  after_retries (update_query env routing) = None.

Definition write_status (wr : SqlWrite) : option Status :=
  match wr with
  | SqlUpdateStatus _ st _ => Some st
  | SqlSetRouting _ => None
  end.

(** What a statement adds to [attempts]. *)
Definition write_delta (wr : SqlWrite) : Z :=
  match wr with
  | SqlUpdateStatus _ _ delta => delta
  | SqlSetRouting _ => 0
  end.

Definition failed_events (evs : list (string * Payload)) : list (string * Payload) :=
  filter (fun m => p_status (snd m) = failed) evs.

Definition failed_writes (writes : list SqlWrite) : list SqlWrite :=
  filter (fun wr => write_status wr = Some failed) writes.

(** The three requirements of the lifecycle claim on the statuses one run
    publishes. *)
Definition lifecycle_complete (sts : list Status) : Prop :=
  (exists t, (t = confirmed \/ t = failed) /\
             sublist sts [pending; routing; building; submitted; t]) /\
  head sts = Some pending /\
  (last sts = Some confirmed \/ last sts = Some failed).

(** One [failed] event and one write of [failed] that adds 1. *)
Definition failure_recorded_once (id : string)
    (evs : list (string * Payload)) (writes : list SqlWrite) : Prop :=
  length (failed_events evs) = 1%nat /\
  failed_writes writes = [SqlUpdateStatus id failed 1].

(** Scenarios for the worker. *)
Definition env_db_down_at_pending : Env := update_fails_at pending env_live.

Definition env_execution_fails : Env :=
  with_rejected_swap "Error: slippage exceeded" env_live.

Definition env_execution_and_bus_fail : Env := publish_fails_at failed env_execution_fails.

Definition env_bus_down_at_confirmed : Env := publish_fails_at confirmed env_live.

Definition env_bus_down_at_pending : Env := publish_fails_at pending env_live.

Definition env_db_down_at_confirmed : Env := update_fails_at confirmed env_live.

Definition row_new : OrderRow :=
  {| user_id := None; token_in := "MintA"; token_out := "MintB";
     amount_in := "1000000"; status := pending; attempts := Some 0;
     error := None; executed_price := None; tx_hash := None;
     routing_info := None |}.

Definition world_new : World :=
  {| bus := []; db := {[ "order-1" := row_new ]}; sql_log := []; chain := [] |}.

(* ===================================================================== *)
(** ** More of the code: strings *)
(* ===================================================================== *)

(** [s.split(sep)] for a one-character separator: never empty, one more
    piece than there are separators. *)
Fixpoint split_char (sep : ascii) (s : string) : list string :=
  match s with
  | EmptyString => [EmptyString]
  | String c s' =>
      if Ascii.eqb c sep then EmptyString :: split_char sep s'
      else
        match split_char sep s' with
        | p :: ps => String c p :: ps
        | [] => [String c EmptyString]
        end
  end.

(** [pieces.join(sep)] *)
Fixpoint join_char (sep : ascii) (pieces : list string) : string :=
  match pieces with
  | [] => EmptyString
  | [p] => p
  | p :: ps => (p ++ String sep (join_char sep ps))%string
  end.

Fixpoint has_char (c : ascii) (s : string) : bool :=
  match s with
  | EmptyString => false
  | String c' s' => (Ascii.eqb c' c || has_char c s')%bool
  end.

(* ===================================================================== *)
(** ** wsManager.ts: the relay from Redis to the sockets *)
(* ===================================================================== *)

(** What the handler can observe of a socket: [ws.readyState === ws.OPEN]
    and whether [ws.send] throws. *)
Record Sockets := {
  ws_open : nat -> bool;
  ws_send : nat -> option Err;
}.

(** The socket is open and [send] to it succeeds. *)
Definition receives (socks : Sockets) (ws : nat) : Prop :=
  ws_open socks ws = true /\ ws_send socks ws = None.

(** [channel.split(':')[1]] *)
Definition channel_order_id (channel : string) : string :=
  nth 1 (split_char ":" channel) EmptyString.

(** The body of the loop for one socket: the message reaches the socket's
    inbox when the socket is open and [send] does not throw; a throw is
    logged and the loop goes on. *)
Definition relay_to {M : Type} (socks : Sockets) (message : M) (ws : nat)
    (inbox : gmap nat (list M)) : gmap nat (list M) :=
  if ws_open socks ws then
    match ws_send socks ws with
    | None => <[ws := default [] (inbox !! ws) ++ [message]]> inbox
    | Some e => inbox
    end
  else inbox.

(** [sub.on('message', (channel, message) => ...)]. The sockets of the set
    are visited once each; the inboxes that result do not depend on the
    order of the visit. *)
Definition onMessage {M : Type} (socks : Sockets) (st : WsState)
    (channel : string) (message : M) (inbox : gmap nat (list M))
  : gmap nat (list M) :=
  if negb (String.prefix "order:" channel) then inbox
  else
    let id := channel_order_id channel in
    match subscribers st !! id with
    | None => inbox
    | Some set => set_fold (relay_to socks message) inbox set
    end.

(** Redis delivers what was published, in order. *)
Definition relay_all {M : Type} (socks : Sockets) (st : WsState)
    (msgs : list (string * M)) (inbox : gmap nat (list M)) : gmap nat (list M) :=
  foldl (fun inbox m => onMessage socks st (fst m) (snd m) inbox) inbox msgs.

(** A sequence of calls on the registry. *)
Inductive WsOp :=
| Subscribe (orderId : string) (ws : nat)
| Unsubscribe (orderId : string) (ws : nat).

Definition ws_step (st : WsState) (op : WsOp) : WsState :=
  match op with
  | Subscribe orderId ws => subscribeSocket orderId ws st
  | Unsubscribe orderId ws => unsubscribeSocket orderId ws st
  end.

Definition ws_run (ops : list WsOp) (st : WsState) : WsState := foldl ws_step st ops.

(** The registry holds no empty set, and the [sub] connection listens on
    exactly the channels of the orders that have an entry. *)
Definition ws_consistent (st : WsState) : Prop :=
  (forall id set, subscribers st !! id = Some set -> set <> ∅) /\
  (forall ch, ch ∈ subscribed_channels (sub_commands st) <->
              exists id, ch = order_channel id /\ is_Some (subscribers st !! id)).

(** Scenario: sockets that are all open and never fail. *)
Definition socks_healthy : Sockets :=
  {| ws_open := fun _ => true; ws_send := fun _ => None |}.

(** Scenario: one socket attached to order-1. *)
Definition ws_one : WsState := subscribeSocket "order-1" 3 ws_fresh.

(* ===================================================================== *)
(** ** db.ts: retry in general, insertOrder *)
(* ===================================================================== *)

(** The attempts [i], ..., [i + k - 1] of [fn] all throw: the error of the
    last one ([lastErr] when [k] is 0) and the state they leave behind. *)
Fixpoint all_throw {S T} (fn : nat -> Prog S T) (i k : nat) (lastErr : Err) (s : S)
  : option (Err * S) :=
  match k with
  | O => Some (lastErr, s)
  | Datatypes.S k' =>
      match fn i s with
      | (Throw e, s') => all_throw fn (Datatypes.S i) k' e s'
      | (Ok _, _) => None
      end
  end.

(** The argument of [insertOrder]. The columns [type] and [slippage] it
    also fills, and [created_at] and [updated_at], are not columns of
    [OrderRow]. *)
Record NewOrder := {
  no_id : string;
  no_user_id : option string;
  no_token_in : string;
  no_token_out : string;
  no_amount_in : string;
}.

(** The row the [INSERT] writes: [status] is ['pending'], [attempts] takes
    its default 0 and the columns not listed stay NULL. *)
Definition inserted_row (o : NewOrder) : OrderRow :=
  {| user_id := no_user_id o; token_in := no_token_in o; token_out := no_token_out o;
     amount_in := no_amount_in o; status := pending; attempts := Some 0;
     error := None; executed_price := None; tx_hash := None; routing_info := None |}.

(** [pool.query] of the [INSERT]: the call fails as the connection decides
    ([outcome]), or Postgres refuses a second row for the primary key
    [id], or the row is added. *)
Definition insert_query (outcome : option Err) (o : NewOrder)
  : Prog (gmap string OrderRow) unit :=
  match outcome with
  | Some e => throw e
  | None =>
      fun tbl =>
        match tbl !! no_id o with
        | Some _ =>
            (Throw "error: duplicate key value violates unique constraint", tbl)
        | None => (Ok tt, <[no_id o := inserted_row o]> tbl)
        end
  end.

(** [retry(..., 4, 400)] around the [INSERT]; [outcome i] is what the
    connection does at attempt [i]. *)
Definition insertOrder (outcome : nat -> option Err) (o : NewOrder)
  : Prog (gmap string OrderRow) unit :=
  retry (fun i => insert_query (outcome i) o) 4.

(** Scenario: an order as the admission route builds it. *)
Definition order_new : NewOrder :=
  {| no_id := "order-2"; no_user_id := None; no_token_in := "MintA";
     no_token_out := "MintB"; no_amount_in := "1000000" |}.

(** The columns that describe the order itself. *)
Definition same_order (r r' : OrderRow) : Prop :=
  user_id r' = user_id r /\ token_in r' = token_in r /\
  token_out r' = token_out r /\ amount_in r' = amount_in r.

(** From [tbl] to [tbl'] no row was added or removed, no row but that of
    [id] changed, and the row of [id] still describes the same order. *)
Definition table_kept (id : string) (tbl tbl' : gmap string OrderRow) : Prop :=
  dom tbl' = dom tbl /\
  (forall id', id' <> id -> tbl' !! id' = tbl !! id') /\
  (forall row, tbl !! id = Some row ->
               exists row', tbl' !! id = Some row' /\ same_order row row').

(** A row with the column [updated_at], which [OrderRow] leaves out and
    both UPDATEs set to [now()]. *)
Record Stamped := {
  columns : OrderRow;
  updated_at : Z;
}.

(** The UPDATE of [updateOrderStatus] as Postgres runs it at time [now]. *)
Definition update_status_at (now : Z) (id : string) (st : Status) (opts : UpdateOpts)
    (tbl : gmap string Stamped) : gmap string Stamped :=
  alter (fun r =>
           {| columns :=
                update_status_row st (default 0 (o_attemptsDelta opts)) (o_error opts)
                  (o_txHash opts) (o_executedPrice opts) (default ∅ (o_routing opts))
                  (columns r);
              updated_at := now |}) id tbl.

(** The UPDATE of [setRoutingInfo] as Postgres runs it at time [now]. *)
Definition set_routing_at (now : Z) (id : string) (rt : gmap string Json)
    (tbl : gmap string Stamped) : gmap string Stamped :=
  alter (fun r => {| columns := set_routing_row rt (columns r); updated_at := now |})
    id tbl.

(** Scenario: the order of [world_failed_once], last updated at time 10. *)
Definition table_stamped : gmap string Stamped :=
  {[ "order-1" := {| columns := row_failed_once; updated_at := 10 |} ]}.

(** Scenario: two orders in the table. *)
Definition world_two : World :=
  {| bus := [];
     db := {[ "order-1" := row_new; "order-7" := row_failed_once ]};
     sql_log := []; chain := [] |}.

(** Scenario: live mode, and both venues fail to quote. *)
Definition env_venues_down : Env :=
  with_quotes (Throw "Error: meteora unreachable") (Throw "Error: raydium unreachable")
    env_live.

(* ===================================================================== *)
(** ** server.ts: the WebSocket token and the socket handlers *)
(* ===================================================================== *)

(** JavaScript truthiness of a JSON value that may be absent. *)
Definition js_truthy (j : option Json) : bool :=
  match j with
  | None => false
  | Some JNull => false
  | Some (JBool b) => b
  | Some (JNum z) => negb (z =? 0)
  | Some (JStr s) => negb (String.eqb s "")
  | Some (JArr _) => true
  | Some (JObj _) => true
  end.

(** [j === s] for a string [s]. *)
Definition is_string (s : string) (j : option Json) : bool :=
  match j with
  | Some (JStr s') => String.eqb s' s
  | _ => false
  end.

(** What the handler reads of a parsed message: [data?.action],
    [data?.token], [data?.orderId]. *)
Record WsData := {
  d_action : option Json;
  d_token : option Json;
  d_orderId : option Json;
}.

(** What the server sends to a socket. *)
Inductive Reply :=
| ReplyError (error : string)
| ReplySubscribed (orderId : string)
| ReplyPong.

(** One connection: the variable [authedOrderId] of its closure, what was
    sent to it, and whether the server called [ws.close()]. *)
Record Conn := {
  authedOrderId : option string;
  replies : list Reply;
  close_called : bool;
}.

Definition conn_new : Conn :=
  {| authedOrderId := None; replies := []; close_called := false |}.

(** [try { ws.send(JSON.stringify(r)) } catch {}] *)
Definition send_reply (r : Reply) (c : Conn) : Conn :=
  {| authedOrderId := authedOrderId c; replies := replies c ++ [r];
     close_called := close_called c |}.

Definition call_close (c : Conn) : Conn :=
  {| authedOrderId := authedOrderId c; replies := replies c; close_called := true |}.

Definition set_authed (id : string) (c : Conn) : Conn :=
  {| authedOrderId := Some id; replies := replies c; close_called := close_called c |}.

Section Gateway.
(** [crypto.createHmac('sha256', key).update(message).digest('hex')] *)
Variable hmac_sha256_hex : string -> string -> string.
(** [process.env.WS_SECRET] *)
Variable WS_SECRET : option string.

(** [process.env.WS_SECRET || 'hello_world'] *)
Definition ws_secret : string :=
  if truthy WS_SECRET then default "" WS_SECRET else "hello_world".

Definition createWsToken (orderId : string) : string :=
  (orderId ++ String ":" (hmac_sha256_hex ws_secret orderId))%string.

Definition verifyWsToken (token : option string) : option string :=
  if negb (truthy token) then None
  else
    match split_char ":" (default "" token) with
    | [orderId; sig] =>
        let expected := hmac_sha256_hex ws_secret orderId in
        if String.eqb expected sig then Some orderId else None
    | _ => None
    end.

(** [verifyWsToken(data.token)] on whatever the message holds: only a
    string has [split]. *)
Definition verify_any (token : option Json) : Res (option string) :=
  if negb (js_truthy token) then Ok None
  else
    match token with
    | Some (JStr s) => Ok (verifyWsToken (Some s))
    | _ => Throw "TypeError: token.split is not a function"
    end.

(** The body of the [try] in [ws.on('message', ...)], after [JSON.parse],
    when what follows its [await import(...)] runs before any other handler
    of the connection does, as it does for a connection that sends one
    message. The handlers with their [await] as a point where others run
    are [session_step] below. *)
Definition handle_data (ws : nat) (data : WsData) (c : Conn) (st : WsState)
  : Res (Conn * WsState) :=
  if (is_string "auth" (d_action data) && js_truthy (d_token data))%bool then
    match verify_any (d_token data) with
    | Throw e => Throw e
    | Ok id =>
        if negb (truthy id) then
          Ok (call_close (send_reply (ReplyError "invalid_token") c), st)
        else
          let id := default "" id in
          Ok (send_reply (ReplySubscribed id) (set_authed id c),
              subscribeSocket id ws st)
    end
  else if (is_string "subscribe" (d_action data) && js_truthy (d_orderId data)
           && js_truthy (d_token data))%bool then
    match verify_any (d_token data) with
    | Throw e => Throw e
    | Ok id =>
        if (negb (truthy id) || negb (is_string (default "" id) (d_orderId data)))%bool
        then Ok (send_reply (ReplyError "invalid_token_for_order") c, st)
        else
          let id := default "" id in
          Ok (send_reply (ReplySubscribed id) (set_authed id c),
              subscribeSocket id ws st)
    end
  else if is_string "ping" (d_action data) then
    Ok (send_reply ReplyPong c, st)
  else Ok (c, st).

(** [ws.on('message', ...)]: [None] is a message that is not JSON, which is
    ignored; an exception in the body is answered with [invalid_message]. *)
Definition onSocketMessage (ws : nat) (msg : option WsData) (c : Conn) (st : WsState)
  : Conn * WsState :=
  match msg with
  | None => (c, st)
  | Some data =>
      match handle_data ws data c st with
      | Ok r => r
      | Throw e => (send_reply (ReplyError "invalid_message") c, st)
      end
  end.

(** [ws.on('close', ...)] *)
Definition onClose (ws : nat) (c : Conn) (st : WsState) : WsState :=
  if truthy (authedOrderId c) then
    unsubscribeSocket (default "" (authedOrderId c)) ws st
  else st.

(** [{ action: 'auth', token }] with the token issued for [orderId]. *)
Definition auth_message (orderId : string) : option WsData :=
  Some {| d_action := Some (JStr "auth");
          d_token := Some (JStr (createWsToken orderId));
          d_orderId := None |}.
End Gateway.

(** Scenario: a stand-in for the HMAC whose digests, like hex digests, hold
    no colon. *)
Definition hmac_standin (key message : string) : string :=
  if String.eqb message "order-1" then "5f3a9c" else "c01d7e".

(* ===================================================================== *)
(** ** server.ts: the socket handlers, one step at a time *)
(* ===================================================================== *)

(** What a handler leaves to run when its [await import(...)] resolves.
    Each of them reads the variable [authedOrderId] again at that time. The
    import of wsManager, a module of the server itself, is taken to
    succeed. *)
Inductive Continuation :=
| ThenSubscribe      (** [mod.subscribeSocket(authedOrderId, ws)] and the reply *)
| ThenUnsubscribe.   (** [mod.unsubscribeSocket(authedOrderId, ws)] *)

(** One connection and the registry: the closure of the connection, the
    continuations that wait for their [import], and the module state of
    wsManager. *)
Record Session := {
  conn : Conn;
  waiting : list Continuation;
  registry : WsState;
}.

(** What happens to a connection: the handler of [/ws] runs with the
    [token] of the URL, a message arrives, the [i]-th waiting continuation
    resumes, the socket closes. *)
Inductive WsEvent :=
| Connected (token : option string)
| Received (msg : option WsData)
| Resumed (i : nat)
| Closed.

Section GatewaySteps.
Variable hmac_sha256_hex : string -> string -> string.
Variable WS_SECRET : option string.

(** The body of the [try] in [ws.on('message', ...)] from [JSON.parse] to
    its [await import(...)] or its [return]. *)
Definition message_until_await (data : WsData) (c : Conn)
  : Res (Conn * option Continuation) :=
  if (is_string "auth" (d_action data) && js_truthy (d_token data))%bool then
    match verify_any hmac_sha256_hex WS_SECRET (d_token data) with
    | Throw e => Throw e
    | Ok id =>
        if negb (truthy id) then
          Ok (call_close (send_reply (ReplyError "invalid_token") c), None)
        else Ok (set_authed (default "" id) c, Some ThenSubscribe)
    end
  else if (is_string "subscribe" (d_action data) && js_truthy (d_orderId data)
           && js_truthy (d_token data))%bool then
    match verify_any hmac_sha256_hex WS_SECRET (d_token data) with
    | Throw e => Throw e
    | Ok id =>
        if (negb (truthy id) || negb (is_string (default "" id) (d_orderId data)))%bool
        then Ok (send_reply (ReplyError "invalid_token_for_order") c, None)
        else Ok (set_authed (default "" id) c, Some ThenSubscribe)
    end
  else if is_string "ping" (d_action data) then
    Ok (send_reply ReplyPong c, None)
  else Ok (c, None).

(** A continuation resumes: it acts on the order that [authedOrderId]
    names now. *)
Definition resume (ws : nat) (k : Continuation) (s : Session) : Session :=
  let id := default "" (authedOrderId (conn s)) in
  match k with
  | ThenSubscribe =>
      {| conn := send_reply (ReplySubscribed id) (conn s);
         waiting := waiting s;
         registry := subscribeSocket id ws (registry s) |}
  | ThenUnsubscribe =>
      {| conn := conn s; waiting := waiting s;
         registry := unsubscribeSocket id ws (registry s) |}
  end.

Definition session_step (ws : nat) (s : Session) (ev : WsEvent) : Session :=
  match ev with
  | Connected token =>
      if truthy token then
        let id := verifyWsToken hmac_sha256_hex WS_SECRET token in
        if truthy id then
          {| conn := set_authed (default "" id) (conn s);
             waiting := waiting s ++ [ThenSubscribe];
             registry := registry s |}
        else s
      else s
  | Received None => s
  | Received (Some data) =>
      match message_until_await data (conn s) with
      | Ok (c, k) =>
          {| conn := c; waiting := waiting s ++ option_list k; registry := registry s |}
      | Throw e =>
          {| conn := send_reply (ReplyError "invalid_message") (conn s);
             waiting := waiting s; registry := registry s |}
      end
  | Resumed i =>
      match waiting s !! i with
      | Some k =>
          resume ws k {| conn := conn s; waiting := delete i (waiting s);
                         registry := registry s |}
      | None => s
      end
  | Closed =>
      if truthy (authedOrderId (conn s)) then
        {| conn := conn s; waiting := waiting s ++ [ThenUnsubscribe];
           registry := registry s |}
      else s
  end.

Definition session_run (ws : nat) (evs : list WsEvent) (s : Session) : Session :=
  foldl (session_step ws) s evs.

(** A new connection on the registry [st]. *)
Definition session_new (st : WsState) : Session :=
  {| conn := conn_new; waiting := []; registry := st |}.

(** Among [evs] the connection presented the token issued for [id], in the
    URL or in a message. *)
Definition token_presented (evs : list WsEvent) (id : string) : Prop :=
  id <> EmptyString /\
  (Connected (Some (createWsToken hmac_sha256_hex WS_SECRET id)) ∈ evs \/
   exists data,
     Received (Some data) ∈ evs /\
     d_token data = Some (JStr (createWsToken hmac_sha256_hex WS_SECRET id))).

(** Two authentications and the close, each handler done before the next
    event; and the same with the second message arriving before the
    [import] of the first has resolved. *)
Definition one_at_a_time (a b : string) : list WsEvent :=
  [Received (auth_message hmac_sha256_hex WS_SECRET a); Resumed 0;
   Received (auth_message hmac_sha256_hex WS_SECRET b); Resumed 0;
   Closed; Resumed 0].

Definition back_to_back (a b : string) : list WsEvent :=
  [Received (auth_message hmac_sha256_hex WS_SECRET a);
   Received (auth_message hmac_sha256_hex WS_SECRET b);
   Resumed 0; Resumed 0;
   Closed; Resumed 0].
End GatewaySteps.

(* ===================================================================== *)
(** ** server.ts: POST /api/orders/execute *)
(* ===================================================================== *)

(** What the route reads of [req.body]. [type] and [slippage], which it
    passes on with their defaults, are not columns of [OrderRow]. The
    numbers of [Json] are integers: an amount with a fraction is one sent
    as a string. *)
Record Body := {
  b_user_id : option Json;
  b_token_in : option Json;
  b_token_out : option Json;
  b_amount_in : option Json;
}.

(** The data and the options of a job on the queue ['orders']. *)
Record QueuedJob := {
  q_name : string;
  q_orderId : string;
  q_token_in : Json;
  q_token_out : Json;
  q_amount_in : string;
  q_attempts : nat;
}.

Inductive Response :=
| Reply400 (error : string)
| Reply500 (error : string)
| Reply200 (orderId wsToken wsUrl : string).

(** What the route can change: the table of orders and the queue. *)
Record Api := {
  api_db : gmap string OrderRow;
  api_queue : list QueuedJob;
}.

Definition on_db {A} (m : Prog (gmap string OrderRow) A) : Prog Api A :=
  fun s =>
    match m (api_db s) with
    | (r, tbl) => (r, {| api_db := tbl; api_queue := api_queue s |})
    end.

(** [await queue.add(name, data, opts)] *)
Definition queue_add (outcome : option Err) (j : QueuedJob) : Prog Api unit :=
  match outcome with
  | Some e => throw e
  | None => modify (fun s => {| api_db := api_db s; api_queue := api_queue s ++ [j] |})
  end.

(** [v ?? null] *)
Definition or_null (v : option Json) : option Json :=
  match v with
  | Some JNull => None
  | _ => v
  end.

Section Route.
Variable hmac_sha256_hex : string -> string -> string.
Variable WS_SECRET : option string.
(** [v.toString()] of a value that is not null: it throws when the value is
    an object whose own [toString] is not a function. *)
Variable js_toString : Json -> Res string.
(** The text node-postgres sends for a parameter. *)
Variable pg_text : Json -> string.
Variable encodeURIComponent : string -> string.

(** The handler of the route. [uuid] is what [uuidv4()] returns,
    [insert_outcome] what the connection to Postgres does at each attempt
    of the insert, [add_outcome] what Redis does at [queue.add]. *)
Definition execute_route (uuid : string) (insert_outcome : nat -> option Err)
    (add_outcome : option Err) (body : option Body) : Prog Api Response :=
  try_catch
    (let token_in := body ≫= b_token_in in
     let token_out := body ≫= b_token_out in
     let amount_in := body ≫= b_amount_in in
     if (negb (js_truthy token_in) || negb (js_truthy token_out)
         || negb (js_truthy amount_in))%bool
     then ret (Reply400 "token_in, token_out, amount_in required")
     else
       let id := uuid in
       let! amount := of_res (js_toString (default JNull amount_in)) in
       on_db (insertOrder insert_outcome
                {| no_id := id;
                   no_user_id := pg_text <$> or_null (body ≫= b_user_id);
                   no_token_in := pg_text (default JNull token_in);
                   no_token_out := pg_text (default JNull token_out);
                   no_amount_in := amount |}) >>>
       let wsToken := createWsToken hmac_sha256_hex WS_SECRET id in
       let! amount' := of_res (js_toString (default JNull amount_in)) in
       queue_add add_outcome
         {| q_name := "execute"; q_orderId := id;
            q_token_in := default JNull token_in;
            q_token_out := default JNull token_out;
            q_amount_in := amount'; q_attempts := 3 |} >>>
       ret (Reply200 id wsToken ("/ws?token=" ++ encodeURIComponent wsToken)%string))
    (fun _ => ret (Reply500 "internal_error")).

(** The row and the job of an accepted request. *)
Definition route_row (b : Body) (amount : string) : OrderRow :=
  {| user_id := pg_text <$> or_null (b_user_id b);
     token_in := pg_text (default JNull (b_token_in b));
     token_out := pg_text (default JNull (b_token_out b));
     amount_in := amount; status := pending; attempts := Some 0;
     error := None; executed_price := None; tx_hash := None; routing_info := None |}.

Definition route_job (uuid : string) (b : Body) (amount : string) : QueuedJob :=
  {| q_name := "execute"; q_orderId := uuid;
     q_token_in := default JNull (b_token_in b);
     q_token_out := default JNull (b_token_out b);
     q_amount_in := amount; q_attempts := 3 |}.

(** The request names both tokens and an amount, each with a truthy value. *)
Definition body_complete (b : Body) : Prop :=
  js_truthy (b_token_in b) = true /\ js_truthy (b_token_out b) = true /\
  js_truthy (b_amount_in b) = true.
End Route.

(** Scenario: stand-ins for the conversions, a request, and the service
    with the order of [world_new] and an empty queue. *)
Definition toString_standin (j : Json) : Res string :=
  match j with
  | JStr s => Ok s
  | JNum z => Ok (pretty z)
  | JBool true => Ok "true"
  | JBool false => Ok "false"
  | _ => Throw "TypeError: body.amount_in.toString is not a function"
  end.

Definition pg_text_standin (j : Json) : string :=
  match j with
  | JStr s => s
  | JNum z => pretty z
  | _ => "null"
  end.

Definition body1 : Body :=
  {| b_user_id := None; b_token_in := Some (JStr "MintA");
     b_token_out := Some (JStr "MintB"); b_amount_in := Some (JNum 1000000) |}.

Definition api_new : Api := {| api_db := db world_new; api_queue := [] |}.

(* ===================================================================== *)
(** ** dexRouter.ts: getRaydiumQuote, step by step *)
(* ===================================================================== *)

(** [a.div(b)] of bn.js: it asserts that the divisor is not zero. *)
Definition BN_div (a b : Z) : Res Z :=
  if b =? 0 then Throw "Error: Assertion failed" else Ok (Z.quot a b).

(** [new BN(raw.toString())] of a reserve read from [rpcData], which is a
    [BN] or is missing. *)
Definition BN_of_raw (raw : option Z) : Res Z :=
  match raw with
  | Some z => Ok z
  | None => Throw "TypeError: Cannot read properties of undefined (reading 'toString')"
  end.

(** The constant-product estimate that the router writes out where the
    curve calculator cannot be used. [multiplier] is
    [new BN(Math.round((1 - feeRate) * 100000))], which throws when the
    number is not one a [BN] can be made of. *)
Definition fallback_estimate (amountInBn : Z) (reserveInRaw reserveOutRaw : option Z)
    (multiplier : Res Z) : Res Z :=
  match BN_of_raw reserveInRaw with
  | Throw e => Throw e
  | Ok reserveIn =>
      match BN_of_raw reserveOutRaw with
      | Throw e => Throw e
      | Ok reserveOut =>
          let numerator := amountInBn * reserveOut in
          let denom := reserveIn + amountInBn in
          match BN_div numerator denom with
          | Throw e => Throw e
          | Ok rawOut =>
              match multiplier with
              | Throw e => Throw e
              | Ok m => BN_div (rawOut * m) 100000
              end
          end
      end
  end.

Module Raydium.

(** What [getPoolInfoFromRpc] yields, as far as the quote reads it. *)
Record PoolData := {
  mintA_address : string;
  mintB_address : string;
  baseReserve : option Z;
  quoteReserve : option Z;
  (** [feeRate], and the [BN] made of [Math.round((1 - feeRate) * 100000)] *)
  feeRate : Json;
  fee_multiplier : Res Z;
}.

(** What [CurveCalculator.swapBaseInput] returns. *)
Record CurveResult := {
  outputAmount : option Z;
  swapResult : Json;
}.

(** The outcomes of the calls into the Raydium SDK: [initSdk],
    [cpmm.getPoolInfoFromRpc] with the reading of the two mints, and
    [CurveCalculator.swapBaseInput], which is [None] when the SDK has no
    such function. *)
Record Sdk := {
  initSdk : option Err;
  getPoolInfoFromRpc : Res PoolData;
  swapBaseInput : option (Res CurveResult);
}.

Definition raw_json (raw : option Z) : Json :=
  match raw with
  | Some z => JNum z
  | None => JNull
  end.

(** [{ reserveInRaw, reserveOutRaw, feeRate }] *)
Definition rpcDataSnapshot (reserveInRaw reserveOutRaw : option Z) (data : PoolData)
  : Json :=
  JObj [("reserveInRaw", raw_json reserveInRaw);
        ("reserveOutRaw", raw_json reserveOutRaw);
        ("feeRate", feeRate data)].

Definition getRaydiumQuote (sdk : Sdk) (poolId inputMint : string) (amountInBn : Z)
  : Res Quote :=
  match initSdk sdk with
  | Some e => Throw e
  | None =>
      match getPoolInfoFromRpc sdk with
      | Throw e => Throw e
      | Ok data =>
          let baseMint := mintA_address data in
          let baseIn := String.eqb inputMint baseMint in
          let reserveInRaw := if baseIn then baseReserve data else quoteReserve data in
          let reserveOutRaw := if baseIn then quoteReserve data else baseReserve data in
          match swapBaseInput sdk with
          | None =>
              match fallback_estimate amountInBn reserveInRaw reserveOutRaw
                      (fee_multiplier data) with
              | Ok afterFee =>
                  Ok {| dex := raydium; outAmountBn := afterFee;
                        details :=
                          JObj [("fallback", JBool true);
                                ("rpcDataSnapshot",
                                 rpcDataSnapshot reserveInRaw reserveOutRaw data)] |}
              | Throw ee =>
                  Ok {| dex := raydium; outAmountBn := amountInBn;
                        details := JObj [("fallback", JBool true);
                                         ("error", JStr ee)] |}
              end
          | Some (Throw e) =>
              match fallback_estimate amountInBn reserveInRaw reserveOutRaw
                      (fee_multiplier data) with
              | Ok afterFee =>
                  Ok {| dex := raydium; outAmountBn := afterFee;
                        details :=
                          JObj [("fallbackAfterThrow", JBool true);
                                ("rpcDataSnapshot",
                                 rpcDataSnapshot reserveInRaw reserveOutRaw data)] |}
              | Throw e' => Throw e'
              end
          | Some (Ok res) =>
              match outputAmount res with
              | None =>
                  Throw "TypeError: Cannot read properties of undefined (reading 'toString')"
              | Some out =>
                  Ok {| dex := raydium; outAmountBn := out;
                        details := JObj [("swapResult", swapResult res)] |}
              end
          end
      end
  end.

End Raydium.

(** What the environment of [getBestQuote] holds for a venue whose quote
    function returned [r]. *)
Definition quote_result (r : Res Quote) : Res (Z * Json) :=
  match r with
  | Ok q => Ok (outAmountBn q, details q)
  | Throw e => Throw e
  end.

(** Scenario: a pool of 1000000 MintA and 2000000 MintB with a fee of 25
    basis points, read through an SDK without a curve calculator; and the
    same pool with its reserves missing from the data. *)
Definition pool1 : Raydium.PoolData :=
  {| Raydium.mintA_address := "MintA"; Raydium.mintB_address := "MintB";
     Raydium.baseReserve := Some 1000000; Raydium.quoteReserve := Some 2000000;
     Raydium.feeRate := JNum 0; Raydium.fee_multiplier := Ok 99750 |}.

Definition pool_unread : Raydium.PoolData :=
  {| Raydium.mintA_address := "MintA"; Raydium.mintB_address := "MintB";
     Raydium.baseReserve := None; Raydium.quoteReserve := None;
     Raydium.feeRate := JNum 0; Raydium.fee_multiplier := Ok 99750 |}.

Definition sdk_no_calculator (data : Raydium.PoolData) : Raydium.Sdk :=
  {| Raydium.initSdk := None; Raydium.getPoolInfoFromRpc := Ok data;
     Raydium.swapBaseInput := None |}.

Definition sdk_calculator_throws (data : Raydium.PoolData) : Raydium.Sdk :=
  {| Raydium.initSdk := None; Raydium.getPoolInfoFromRpc := Ok data;
     Raydium.swapBaseInput := Some (Throw "Error: invalid fee") |}.

Definition env_raydium (sdk : Raydium.Sdk) (amount : Z) : Env :=
  with_quotes (Ok (amount - 1, JNull))
    (quote_result (Raydium.getRaydiumQuote sdk "RaydiumPool111" "MintA" amount))
    env_live.

(* ===================================================================== *)
(** ** scripts/raydium/createCpmmPool.ts: humanToBaseUnitsBN *)
(* ===================================================================== *)

Definition is_digit (c : ascii) : bool :=
  ((48 <=? nat_of_ascii c)%nat && (nat_of_ascii c <=? 57)%nat)%bool.

Fixpoint all_digits (s : string) : bool :=
  match s with
  | EmptyString => true
  | String c s' => (is_digit c && all_digits s')%bool
  end.

Definition digit_of (c : ascii) : Z := Z.of_nat (nat_of_ascii c) - 48.

(** The number a string of decimal digits writes, read after [acc]. *)
Fixpoint parse_digits (acc : Z) (s : string) : Z :=
  match s with
  | EmptyString => acc
  | String c s' => parse_digits (acc * 10 + digit_of c) s'
  end.

(** [new BN(s)] for a string of decimal digits, with or without a minus
    sign in front; [new BN('')] is 0. *)
Definition BN_of_string (s : string) : Z :=
  match s with
  | EmptyString => 0
  | String c s' =>
      if Ascii.eqb c "-" then - parse_digits 0 s' else parse_digits 0 s
  end.

(** [c.repeat(n)] *)
Fixpoint string_repeat (c : ascii) (n : nat) : string :=
  match n with
  | O => EmptyString
  | Datatypes.S n' => String c (string_repeat c n')
  end.

(** [s || d] *)
Definition or_string (s d : string) : string :=
  if String.eqb s "" then d else s.

(** [decimals] is the number of decimals of a mint, a natural number. *)
Definition humanToBaseUnitsBN (humanStr : string) (decimals : nat) : Z :=
  let parts := split_char "." humanStr in
  let intPart := or_string (default "" (parts !! 0%nat)) "0" in
  let fracPart := or_string (default "" (parts !! 1%nat)) "" in
  let factor := 10 ^ Z.of_nat decimals in
  let bn := BN_of_string intPart * factor in
  if (0 <? String.length fracPart)%nat then
    let padded :=
      substring 0 decimals (fracPart ++ string_repeat "0" decimals)%string in
    bn + BN_of_string padded
  else bn.

(** Scenario: simulation mode and an order whose synthetic output is
    [2 ^ 53 + 1]. *)
Definition job_large : Job :=
  {| orderId := "order-1"; j_token_in := "MintA"; j_token_out := "MintB";
     j_amount_in := 9053371449131564 |}.

(* ===================================================================== *)
(** * Properties *)
(* ===================================================================== *)

(** ** The monad *)

Lemma bind_ok {S A B} (m : Prog S A) (k : A -> Prog S B) s a s' :
  m s = (Ok a, s') -> bind m k s = k a s'.
Proof. intros H. unfold bind. now rewrite H. Qed.

Lemma bind_throw {S A B} (m : Prog S A) (k : A -> Prog S B) s e s' :
  m s = (Throw e, s') -> bind m k s = (Throw e, s').
Proof. intros H. unfold bind. now rewrite H. Qed.

Lemma try_catch_ok {S A} (m : Prog S A) h s a s' :
  m s = (Ok a, s') -> try_catch m h s = (Ok a, s').
Proof. intros H. unfold try_catch. now rewrite H. Qed.

Lemma try_catch_throw {S A} (m : Prog S A) h s e s' :
  m s = (Throw e, s') -> try_catch m h s = h e s'.
Proof. intros H. unfold try_catch. now rewrite H. Qed.

(** Rethrowing in the handler changes nothing. *)
Lemma try_catch_rethrow {S A} (m : Prog S A) s :
  try_catch m (fun e => throw e) s = m s.
Proof. unfold try_catch, throw. destruct (m s) as [[a|e] s']; reflexivity. Qed.

(** ** Router: the stable sort and the head of its result *)

Lemma compareQuotes_le0 a b :
  (compareQuotes a b <=? 0) = (outAmountBn b <=? outAmountBn a).
Proof.
  unfold compareQuotes.
  destruct (Z.eqb_spec (outAmountBn a) (outAmountBn b)) as [->|Hne].
  - symmetry. apply Z.leb_le. lia.
  - destruct (Z.gtb_spec (outAmountBn a) (outAmountBn b)).
    + symmetry. apply Z.leb_le. lia.
    + symmetry. apply Z.leb_gt. lia.
Qed.

Lemma sort_insert_perm {A} (cmp : A -> A -> Z) x l :
  sort_insert cmp x l ≡ₚ x :: l.
Proof.
  induction l as [|y l IH]; simpl; [reflexivity|].
  destruct (cmp x y <=? 0); [reflexivity|].
  rewrite IH. apply Permutation_swap.
Qed.

Lemma array_sort_perm {A} (cmp : A -> A -> Z) l : array_sort cmp l ≡ₚ l.
Proof.
  induction l as [|x l IH]; simpl; [reflexivity|].
  unfold array_sort in *. simpl. rewrite sort_insert_perm. now rewrite IH.
Qed.

Lemma array_sort_nonempty {A} (cmp : A -> A -> Z) l :
  l <> [] -> array_sort cmp l <> [].
Proof.
  intros Hl Hs. apply Hl. apply Permutation_nil_r.
  rewrite <- Hs. symmetry. apply array_sort_perm.
Qed.

(** On the two-element array the router can build, a stable sort leaves
    only this choice. *)
Lemma array_sort_two {A} (cmp : A -> A -> Z) a b :
  array_sort cmp [a; b] = if cmp a b <=? 0 then [a; b] else [b; a].
Proof. reflexivity. Qed.

(** The sorted array is in descending order of output amount. *)
Lemma sort_insert_descending x l :
  StronglySorted (fun a b => outAmountBn b <= outAmountBn a) l ->
  StronglySorted (fun a b => outAmountBn b <= outAmountBn a)
    (sort_insert compareQuotes x l).
Proof.
  induction 1 as [|y l Hl IH Hy]; cbn.
  - repeat constructor.
  - rewrite compareQuotes_le0.
    destruct (Z.leb_spec (outAmountBn y) (outAmountBn x)) as [Hle|Hlt].
    + constructor; [now constructor|]. constructor; [exact Hle|].
      eapply Forall_impl; [exact Hy|]. cbn. intros; lia.
    + constructor; [exact IH|].
      rewrite sort_insert_perm. constructor; [lia|exact Hy].
Qed.

Lemma array_sort_descending l :
  StronglySorted (fun a b => outAmountBn b <= outAmountBn a)
    (array_sort compareQuotes l).
Proof.
  induction l as [|x l IH]; [constructor|].
  apply sort_insert_descending, IH.
Qed.

(** The head of the sorted array is the first quote of the original array
    that no other quote beats. *)
Lemma array_sort_head l :
  l <> [] ->
  exists chosen pre post rest,
    array_sort compareQuotes l = chosen :: rest /\
    l = pre ++ chosen :: post /\
    Forall (fun q => outAmountBn q < outAmountBn chosen) pre /\
    Forall (fun q => outAmountBn q <= outAmountBn chosen) post.
Proof.
  induction l as [|x l IH]; [congruence|]. intros _.
  destruct l as [|y l'].
  - exists x, [], [], []. repeat split; auto.
  - destruct IH as (c & pre & post & rest & Hs & Hl & Hpre & Hpost); [congruence|].
    change (array_sort compareQuotes (x :: y :: l'))
      with (sort_insert compareQuotes x (array_sort compareQuotes (y :: l'))).
    rewrite Hs. simpl. rewrite compareQuotes_le0.
    destruct (Z.leb_spec (outAmountBn c) (outAmountBn x)) as [Hle|Hlt].
    + exists x, [], (y :: l'), (c :: rest). repeat split; auto.
      rewrite Hl. apply Forall_app. split.
      * eapply Forall_impl; [exact Hpre|]. simpl. intros; lia.
      * constructor; [lia|]. eapply Forall_impl; [exact Hpost|]. simpl. intros; lia.
    + exists c, (x :: pre), post, (sort_insert compareQuotes x rest).
      repeat split; auto.
      * rewrite Hl. reflexivity.
Qed.

(** ** Router: getBestQuote *)

Section RouterFacts.
Context {S : Type}.
Variables (env : Env) (params : QuoteParams) (s : S).

Lemma collectQuotes_collected :
  collectQuotes env params s = (Ok (collected env params), s).
Proof.
  unfold collectQuotes, collected, venue_quotes, getMeteoraQuote, getRaydiumQuote.
  unfold bind, try_catch, ret, throw.
  destruct (truthy (qp_meteoraPoolAddress params)),
           (truthy (qp_raydiumPoolId params)),
           (meteora_quote env) as [[a da]|ea],
           (raydium_quote env) as [[b db]|eb]; reflexivity.
Qed.

Lemma getBestQuote_live :
  envUseMock env = false ->
  getBestQuote env params s =
    match collected env params with
    | [] => (Ok (mock_quote (qp_amountInBn params)), s)
    | _ :: _ =>
        match array_sort compareQuotes (collected env params) with
        | chosen :: _ => (Ok chosen, s)
        | [] => (Throw "TypeError: Cannot read properties of undefined (reading 'dex')", s)
        end
    end.
Proof.
  intros Hm. unfold getBestQuote. rewrite Hm.
  rewrite (bind_ok _ _ _ _ _ collectQuotes_collected).
  destruct (collected env params) as [|q l]; [reflexivity|].
  change ((length (q :: l) =? 0)%nat) with false. cbv iota.
  destruct (array_sort compareQuotes (q :: l)); reflexivity.
Qed.

Lemma getBestQuote_mock :
  envUseMock env = true ->
  getBestQuote env params s = (Ok (mock_quote (qp_amountInBn params)), s).
Proof. intros Hm. unfold getBestQuote. now rewrite Hm. Qed.

End RouterFacts.

(** Every venue failure is absorbed: the router always returns a quote and
    leaves the state as it was. *)
Lemma getBestQuote_total {S : Type} (env : Env) (params : QuoteParams) (s : S) :
  exists q, getBestQuote env params s = (Ok q, s).
Proof.
  destruct (envUseMock env) eqn:Hm.
  - eexists. now apply getBestQuote_mock.
  - rewrite getBestQuote_live by exact Hm.
    destruct (collected env params) as [|q l] eqn:Hc; [eauto|].
    destruct (array_sort compareQuotes (q :: l)) eqn:Hs; [|eauto].
    exfalso. revert Hs. now apply array_sort_nonempty.
Qed.

(** C3. In live mode, when the two venue queries collected at least one
    quote, [getBestQuote] returns a collected quote whose [outAmountBn] is
    maximal, and among the maximal ones the first in collection order, so
    that a tie between the two venues goes to Meteora, which is queried
    first. The result is a function of the venue responses alone: it is the
    same from any two program states. *)
Theorem getBestQuote_selects_first_maximum
    {S S' : Type} (env : Env) (params : QuoteParams) (s : S) (s' : S') :
  envUseMock env = false ->
  collected env params <> [] ->
  exists chosen pre post,
    getBestQuote env params s = (Ok chosen, s) /\
    collected env params = pre ++ chosen :: post /\
    Forall (fun q => outAmountBn q < outAmountBn chosen) pre /\
    Forall (fun q => outAmountBn q <= outAmountBn chosen) post /\
    (forall a d1 d2,
        truthy (qp_meteoraPoolAddress params) = true ->
        truthy (qp_raydiumPoolId params) = true ->
        meteora_quote env = Ok (a, d1) ->
        raydium_quote env = Ok (a, d2) ->
        chosen = {| dex := meteora; outAmountBn := a; details := d1 |}) /\
    fst (getBestQuote env params s') = Ok chosen.
Proof.
  intros Hm Hne.
  destruct (array_sort_head _ Hne) as (c & pre & post & rest & Hs & Hl & Hpre & Hpost).
  exists c, pre, post.
  assert (Hrun : forall (T : Type) (t : T), getBestQuote env params t = (Ok c, t)).
  { intros T t. rewrite getBestQuote_live by exact Hm.
    rewrite Hs. destruct (collected env params); [congruence|reflexivity]. }
  repeat split; auto.
  - intros a d1 d2 Hp1 Hp2 Hq1 Hq2.
    unfold collected, venue_quotes in Hs.
    rewrite Hp1, Hp2, Hq1, Hq2 in Hs. cbn in Hs.
    rewrite compareQuotes_le0 in Hs. cbn in Hs.
    rewrite Z.leb_refl in Hs. now inversion Hs.
  - now rewrite Hrun.
Qed.

Lemma getBestQuote_selects_first_maximum_witness :
  envUseMock env_live = false /\
  collected env_live (params_live 1000000) <> [] /\
  exists chosen pre post,
    getBestQuote env_live (params_live 1000000) tt = (Ok chosen, tt) /\
    collected env_live (params_live 1000000) = pre ++ chosen :: post /\
    Forall (fun q => outAmountBn q < outAmountBn chosen) pre /\
    Forall (fun q => outAmountBn q <= outAmountBn chosen) post /\
    (forall a d1 d2,
        truthy (qp_meteoraPoolAddress (params_live 1000000)) = true ->
        truthy (qp_raydiumPoolId (params_live 1000000)) = true ->
        meteora_quote env_live = Ok (a, d1) ->
        raydium_quote env_live = Ok (a, d2) ->
        chosen = {| dex := meteora; outAmountBn := a; details := d1 |}) /\
    fst (getBestQuote env_live (params_live 1000000) tt) = Ok chosen.
Proof.
  split; [reflexivity|]. split; [discriminate|].
  apply (getBestQuote_selects_first_maximum env_live (params_live 1000000) tt tt);
    [reflexivity|discriminate].
Defined.

(** Quotes of 100 and 105: the router returns 105. *)
Example getBestQuote_100_105 :
  getBestQuote env_live (params_live 1000000) tt
  = (Ok {| dex := raydium; outAmountBn := 105; details := JNull |}, tt).
Proof. reflexivity. Qed.

(** A tie at 100: the router returns Meteora's quote. *)
Example getBestQuote_tie :
  getBestQuote (with_quotes (Ok (100, JNull)) (Ok (100, JBool true)) env_live)
    (params_live 1000000) tt
  = (Ok {| dex := meteora; outAmountBn := 100; details := JNull |}, tt).
Proof. reflexivity. Qed.

(** C4. In simulation mode, or in live mode when no venue returned a
    quote, [getBestQuote] returns the synthetic quote of venue [mock] whose
    [outAmountBn] is [amountIn * 9949] divided by 10000 in exact integer
    arithmetic: the quotient of [BN.div], which for every token amount (a
    non-negative integer) is the floor of [amountIn * 9949 / 10000] ([/] on
    [Z] is floor division). For [amountIn = 1000000] it is exactly 994900. *)
Theorem getBestQuote_synthetic_floor
    {S : Type} (env : Env) (params : QuoteParams) (s : S) :
  envUseMock env = true \/ collected env params = [] ->
  exists q,
    getBestQuote env params s = (Ok q, s) /\
    dex q = mock /\
    details q = simulated_details /\
    outAmountBn q = Z.quot (qp_amountInBn params * 9949) 10000 /\
    (0 <= qp_amountInBn params ->
     outAmountBn q = qp_amountInBn params * 9949 / 10000) /\
    (qp_amountInBn params = 1000000 -> outAmountBn q = 994900).
Proof.
  intros Hcase.
  exists (mock_quote (qp_amountInBn params)).
  split; [|cbn; repeat split; auto].
  - destruct (envUseMock env) eqn:Hm.
    + now apply getBestQuote_mock.
    + destruct Hcase as [?|Hnil]; [congruence|].
      rewrite getBestQuote_live by exact Hm. now rewrite Hnil.
  - intros Hpos. unfold mock_out. apply Z.quot_div_nonneg; lia.
  - intros Heq. unfold mock_out. rewrite Heq. reflexivity.
Qed.

Lemma getBestQuote_synthetic_floor_witness :
  (envUseMock (with_use_mock (Some "TRUE") env_live) = true \/
   collected (with_use_mock (Some "TRUE") env_live) (params_live 1000000) = []) /\
  exists q,
    getBestQuote (with_use_mock (Some "TRUE") env_live) (params_live 1000000) tt
      = (Ok q, tt) /\
    dex q = mock /\
    details q = simulated_details /\
    outAmountBn q = Z.quot (qp_amountInBn (params_live 1000000) * 9949) 10000 /\
    (0 <= qp_amountInBn (params_live 1000000) ->
     outAmountBn q = qp_amountInBn (params_live 1000000) * 9949 / 10000) /\
    (qp_amountInBn (params_live 1000000) = 1000000 -> outAmountBn q = 994900).
Proof.
  split; [left; reflexivity|].
  apply (getBestQuote_synthetic_floor (with_use_mock (Some "TRUE") env_live)
           (params_live 1000000) tt); left; reflexivity.
Defined.

(** Zero reachable venues, one million in: 994900 out. *)
Example getBestQuote_no_venue_1000000 :
  getBestQuote (with_quotes (Throw "meteora down") (Throw "raydium down") env_live)
    (params_live 1000000) tt
  = (Ok {| dex := mock; outAmountBn := 994900; details := simulated_details |}, tt).
Proof. reflexivity. Qed.

(** [BN.div] rounds toward zero: below zero the synthetic amount is not
    the floor. *)
Example mock_out_negative : mock_out (-1) = 0 /\ (-1) * 9949 / 10000 = -1.
Proof. split; reflexivity. Qed.

(** C7. [getBestQuote] always returns a quote, whatever the venue calls
    do. In live mode with both pools configured: when Meteora's call throws
    and Raydium's returns, the result is Raydium's quote; when Raydium's
    throws and Meteora's returns, it is Meteora's; when both throw, it is
    the synthetic fallback quote. *)
Theorem getBestQuote_isolates_venue_failures
    {S : Type} (env : Env) (params : QuoteParams) (s : S) :
  (exists q, getBestQuote env params s = (Ok q, s)) /\
  (envUseMock env = false ->
   truthy (qp_meteoraPoolAddress params) = true ->
   truthy (qp_raydiumPoolId params) = true ->
   (forall e b d,
       meteora_quote env = Throw e -> raydium_quote env = Ok (b, d) ->
       getBestQuote env params s
       = (Ok {| dex := raydium; outAmountBn := b; details := d |}, s)) /\
   (forall a d e,
       meteora_quote env = Ok (a, d) -> raydium_quote env = Throw e ->
       getBestQuote env params s
       = (Ok {| dex := meteora; outAmountBn := a; details := d |}, s)) /\
   (forall e1 e2,
       meteora_quote env = Throw e1 -> raydium_quote env = Throw e2 ->
       getBestQuote env params s = (Ok (mock_quote (qp_amountInBn params)), s))).
Proof.
  split.
  - apply getBestQuote_total.
  - intros Hm Hp1 Hp2.
    repeat split; intros; rewrite getBestQuote_live by exact Hm;
      unfold collected, venue_quotes; rewrite Hp1, Hp2;
      repeat match goal with H : _ env = _ |- _ => rewrite H end; reflexivity.
Qed.

(** ** Persistence: retry, updateOrderStatus, setRoutingInfo *)

Lemma retry_pool_query (q : nat -> option Err) entry stmt (w : World) :
  retry (fun i => pool_query (q i) entry stmt) 3 w =
    match after_retries q with
    | None => (Ok tt, execute_sql entry stmt w)
    | Some e => (Throw e, w)
    end.
Proof.
  unfold retry, after_retries, retry_loop, try_catch, pool_query, modify, throw.
  destruct (q 0%nat); [|reflexivity].
  destruct (q 1%nat); [|reflexivity].
  destruct (q 2%nat); reflexivity.
Qed.

Lemma updateOrderStatus_run env id st opts w :
  updateOrderStatus env id st opts w =
    match after_retries (update_query env st) with
    | None =>
        (Ok tt,
         execute_sql (SqlUpdateStatus id st (default 0 (o_attemptsDelta opts)))
           (alter (update_status_row st (default 0 (o_attemptsDelta opts))
                     (o_error opts) (o_txHash opts) (o_executedPrice opts)
                     (default ∅ (o_routing opts))) id) w)
    | Some e => (Throw e, w)
    end.
Proof. unfold updateOrderStatus. apply retry_pool_query. Qed.

Lemma setRoutingInfo_run env id rt w :
  setRoutingInfo env id rt w =
    match after_retries (routing_query env) with
    | None => (Ok tt, execute_sql (SqlSetRouting id) (alter (set_routing_row rt) id) w)
    | Some e => (Throw e, w)
    end.
Proof. unfold setRoutingInfo. apply retry_pool_query. Qed.

Lemma publishOrderUpdate_run env id m w :
  publishOrderUpdate env id m w =
    match publish_result env (p_status m) with
    | None => (Ok tt, publish_to (order_channel id) m w)
    | Some e => (Throw e, w)
    end.
Proof.
  unfold publishOrderUpdate. rewrite try_catch_rethrow.
  destruct (publish_result env (p_status m)); reflexivity.
Qed.

Lemma jsonb_concat_lookup (a b : gmap string Json) k :
  jsonb_concat a b !! k = match b !! k with Some v => Some v | None => a !! k end.
Proof.
  unfold jsonb_concat. rewrite lookup_union.
  destruct (b !! k), (a !! k); reflexivity.
Qed.

(** C10. A call of [updateOrderStatus] whose statement runs on an existing
    row sets [error], [tx_hash] and [executed_price] to the supplied options,
    NULL for the omitted ones, whatever they held, and adds the delta
    (0 when omitted) to [attempts]. In particular the worker's opening
    [pending] publication and write leave the row with [error] and [tx_hash]
    NULL and with the number of attempts it had. *)
Theorem updateOrderStatus_overwrites_outcome_columns
    (env : Env) (id : string) (w : World) (row : OrderRow) :
  db w !! id = Some row ->
  (forall st opts,
      after_retries (update_query env st) = None ->
      exists row',
        db (snd (updateOrderStatus env id st opts w)) !! id = Some row' /\
        status row' = st /\
        error row' = o_error opts /\
        tx_hash row' = o_txHash opts /\
        executed_price row' = o_executedPrice opts /\
        attempts row' = Some (default 0 (attempts row) + default 0 (o_attemptsDelta opts))) /\
  (forall job,
      orderId job = id ->
      publish_result env pending = None ->
      after_retries (update_query env pending) = None ->
      exists row',
        db (snd (reassert_pending env job w)) !! id = Some row' /\
        status row' = pending /\
        error row' = None /\
        tx_hash row' = None /\
        executed_price row' = None /\
        attempts row' = Some (default 0 (attempts row))).
Proof.
  intros Hrow. split.
  - intros st opts Hq. rewrite updateOrderStatus_run, Hq. cbn.
    rewrite lookup_alter_eq, Hrow. cbn. eexists. split; [reflexivity|].
    cbn. repeat split; reflexivity.
  - intros job <- Hp Hq. unfold reassert_pending.
    erewrite bind_ok; [|rewrite publishOrderUpdate_run; cbn; rewrite Hp; reflexivity].
    rewrite updateOrderStatus_run, Hq. cbn.
    rewrite lookup_alter_eq, Hrow. cbn. eexists. split; [reflexivity|].
    cbn. repeat split; try reflexivity. f_equal. lia.
Qed.

Lemma updateOrderStatus_overwrites_outcome_columns_witness :
  db world_failed_once !! "order-1" = Some row_failed_once /\
  (forall st opts,
      after_retries (update_query env_live st) = None ->
      exists row',
        db (snd (updateOrderStatus env_live "order-1" st opts world_failed_once))
          !! "order-1" = Some row' /\
        status row' = st /\
        error row' = o_error opts /\
        tx_hash row' = o_txHash opts /\
        executed_price row' = o_executedPrice opts /\
        attempts row' = Some (default 0 (attempts row_failed_once)
                              + default 0 (o_attemptsDelta opts))) /\
  (forall job,
      orderId job = "order-1" ->
      publish_result env_live pending = None ->
      after_retries (update_query env_live pending) = None ->
      exists row',
        db (snd (reassert_pending env_live job world_failed_once)) !! "order-1"
          = Some row' /\
        status row' = pending /\
        error row' = None /\
        tx_hash row' = None /\
        executed_price row' = None /\
        attempts row' = Some (default 0 (attempts row_failed_once))).
Proof.
  split; [reflexivity|].
  apply (updateOrderStatus_overwrites_outcome_columns env_live "order-1"
           world_failed_once row_failed_once).
  reflexivity.
Defined.

(** On redelivery the first attempt's error and signature are gone and the
    attempt count stays at 1. *)
Example reassert_pending_clears :
  (fun r => (status r, error r, tx_hash r, attempts r)) <$>
    (db (snd (reassert_pending env_live job1 world_failed_once)) !! "order-1")
  = Some (pending, None, None, Some 1).
Proof. vm_compute. reflexivity. Qed.

(** C6 as stated fails for [setRoutingInfo]: the stored key [estimatedOut]
    is not in the supplied object and is gone after the write. *)
Lemma setRoutingInfo_drops_stored_keys :
  ~ keeps_other_keys (routing_info row_failed_once)
      (from_option routing_info None
         (db (snd (setRoutingInfo env_live "order-1" chosen_raydium world_failed_once))
            !! "order-1"))
      chosen_raydium.
Proof.
  intros Hkeep.
  specialize (Hkeep "estimatedOut" (JStr "100")).
  assert (H : default ∅ (from_option routing_info None
                 (db (snd (setRoutingInfo env_live "order-1" chosen_raydium
                             world_failed_once)) !! "order-1"))
              !! "estimatedOut" = Some (JStr "100")).
  { apply Hkeep; vm_compute; reflexivity. }
  vm_compute in H. discriminate H.
Qed.

(** C6, amended. On an existing row, a write of [updateOrderStatus] that
    runs merges the supplied routing object into the stored [routing_info]:
    stored keys the supplied object does not mention keep their values and
    supplied keys take the supplied values ([{}] is merged when no routing
    is supplied). A write of [setRoutingInfo] that runs replaces
    [routing_info] by the supplied object as a whole. *)
Theorem routing_info_merged_by_update_replaced_by_set
    (env : Env) (id : string) (w : World) (row : OrderRow) :
  db w !! id = Some row ->
  (forall st opts,
      after_retries (update_query env st) = None ->
      exists row',
        db (snd (updateOrderStatus env id st opts w)) !! id = Some row' /\
        routing_info row'
          = Some (jsonb_concat (default ∅ (routing_info row)) (default ∅ (o_routing opts))) /\
        keeps_other_keys (routing_info row) (routing_info row')
          (default ∅ (o_routing opts)) /\
        (forall k v, default ∅ (o_routing opts) !! k = Some v ->
                     default ∅ (routing_info row') !! k = Some v)) /\
  (forall rt,
      after_retries (routing_query env) = None ->
      exists row',
        db (snd (setRoutingInfo env id rt w)) !! id = Some row' /\
        routing_info row' = Some rt /\
        (forall k, rt !! k = None -> default ∅ (routing_info row') !! k = None)).
Proof.
  intros Hrow. split.
  - intros st opts Hq. rewrite updateOrderStatus_run, Hq. cbn.
    rewrite lookup_alter_eq, Hrow. cbn. eexists. split; [reflexivity|].
    cbn. split; [reflexivity|]. split.
    + intros k v Hold Hnew. cbn. rewrite jsonb_concat_lookup, Hnew. exact Hold.
    + intros k v Hnew. rewrite jsonb_concat_lookup, Hnew. reflexivity.
  - intros rt Hq. rewrite setRoutingInfo_run, Hq. cbn.
    rewrite lookup_alter_eq, Hrow. cbn. eexists. split; [reflexivity|].
    cbn. split; [reflexivity|]. intros k Hk. exact Hk.
Qed.

Lemma routing_info_merged_by_update_replaced_by_set_witness :
  db world_failed_once !! "order-1" = Some row_failed_once /\
  (forall st opts,
      after_retries (update_query env_live st) = None ->
      exists row',
        db (snd (updateOrderStatus env_live "order-1" st opts world_failed_once))
          !! "order-1" = Some row' /\
        routing_info row'
          = Some (jsonb_concat (default ∅ (routing_info row_failed_once))
                    (default ∅ (o_routing opts))) /\
        keeps_other_keys (routing_info row_failed_once) (routing_info row')
          (default ∅ (o_routing opts)) /\
        (forall k v, default ∅ (o_routing opts) !! k = Some v ->
                     default ∅ (routing_info row') !! k = Some v)) /\
  (forall rt,
      after_retries (routing_query env_live) = None ->
      exists row',
        db (snd (setRoutingInfo env_live "order-1" rt world_failed_once))
          !! "order-1" = Some row' /\
        routing_info row' = Some rt /\
        (forall k, rt !! k = None -> default ∅ (routing_info row') !! k = None)).
Proof.
  split; [reflexivity|].
  apply (routing_info_merged_by_update_replaced_by_set env_live "order-1"
           world_failed_once row_failed_once).
  reflexivity.
Defined.

(** ** Subscription registry *)

Lemma subscribed_channels_snoc cmds c :
  subscribed_channels (cmds ++ [c]) = redis_step (subscribed_channels cmds) c.
Proof. unfold subscribed_channels. now rewrite foldl_app. Qed.

Lemma subscribeSocket_entry orderId ws st :
  subscribers (subscribeSocket orderId ws st) !! orderId
  = Some (default ∅ (subscribers st !! orderId) ∪ {[ws]}).
Proof.
  unfold subscribeSocket.
  destruct (subscribers st !! orderId) as [set|]; cbn; now rewrite lookup_insert_eq.
Qed.

Lemma subscribeSocket_commands orderId ws st :
  sub_commands (subscribeSocket orderId ws st)
  = match subscribers st !! orderId with
    | Some _ => sub_commands st
    | None => sub_commands st ++ [SUBSCRIBE (order_channel orderId)]
    end.
Proof.
  unfold subscribeSocket. destruct (subscribers st !! orderId); reflexivity.
Qed.

Lemma subscribeSocket_others orderId ws st o :
  o <> orderId ->
  subscribers (subscribeSocket orderId ws st) !! o = subscribers st !! o.
Proof.
  intros Hne. unfold subscribeSocket.
  destruct (subscribers st !! orderId); cbn;
    repeat rewrite lookup_insert_ne by congruence; reflexivity.
Qed.

(** Removing the last socket of an order. *)
Lemma unsubscribeSocket_last orderId ws st set :
  subscribers st !! orderId = Some set ->
  set ∖ {[ws]} = ∅ ->
  unsubscribeSocket orderId ws st
  = {| subscribers := delete orderId (subscribers st);
       sub_commands := sub_commands st ++ [UNSUBSCRIBE (order_channel orderId)] |}.
Proof.
  intros Hset Hlast. unfold unsubscribeSocket. rewrite Hset, Hlast.
  rewrite size_empty. cbn. f_equal.
  apply map_eq. intros k. destruct (decide (k = orderId)) as [->|Hne].
  - now rewrite !lookup_delete_eq.
  - now rewrite !lookup_delete_ne, lookup_insert_ne by congruence.
Qed.

(** C9. When no other connection is registered for [orderId],
    [subscribeSocket orderId c] followed by [unsubscribeSocket orderId c]
    leaves no entry for [orderId], leaves the other orders' entries as they
    were, and ends by issuing [UNSUBSCRIBE order:orderId] on the [sub]
    connection, so that the channel is no longer listened on. A later
    [subscribeSocket] for the same order creates the entry again and
    issues [SUBSCRIBE order:orderId] again. *)
Theorem subscribe_unsubscribe_leaves_no_entry
    (orderId : string) (c : nat) (st : WsState) :
  (forall set, subscribers st !! orderId = Some set -> set ⊆ {[c]}) ->
  forall st1, st1 = unsubscribeSocket orderId c (subscribeSocket orderId c st) ->
  subscribers st1 !! orderId = None /\
  (forall o, o <> orderId -> subscribers st1 !! o = subscribers st !! o) /\
  (exists issued, sub_commands st1 = issued ++ [UNSUBSCRIBE (order_channel orderId)]) /\
  (order_channel orderId ∉ subscribed_channels (sub_commands st1)) /\
  (forall c' st2,
      st2 = subscribeSocket orderId c' st1 ->
      subscribers st2 !! orderId = Some {[c']} /\
      sub_commands st2 = sub_commands st1 ++ [SUBSCRIBE (order_channel orderId)] /\
      order_channel orderId ∈ subscribed_channels (sub_commands st2)).
Proof.
  intros Honly st1 Hdef.
  assert (Hst1 : st1 =
    {| subscribers := delete orderId (subscribers (subscribeSocket orderId c st));
       sub_commands := sub_commands (subscribeSocket orderId c st)
                       ++ [UNSUBSCRIBE (order_channel orderId)] |}).
  { rewrite Hdef. eapply unsubscribeSocket_last; [apply subscribeSocket_entry|].
    destruct (subscribers st !! orderId) as [set|] eqn:Hs; cbn.
    - specialize (Honly set eq_refl). apply set_eq. intros x.
      rewrite elem_of_difference, elem_of_union, elem_of_empty.
      split; [|tauto]. intros [[Hx|Hx] Hnx]; [apply Hnx, Honly, Hx|tauto].
    - rewrite union_empty_l_L. apply difference_diag_L. }
  assert (Hnone : subscribers st1 !! orderId = None).
  { rewrite Hst1. cbn. apply lookup_delete_eq. }
  assert (Hgone : order_channel orderId ∉ subscribed_channels (sub_commands st1)).
  { rewrite Hst1. cbn. rewrite subscribed_channels_snoc. cbn.
    rewrite elem_of_difference, elem_of_singleton. tauto. }
  split; [exact Hnone|]. split; [|split; [|split; [exact Hgone|]]].
  - intros o Hne. rewrite Hst1. cbn.
    rewrite lookup_delete_ne by congruence. now apply subscribeSocket_others.
  - rewrite Hst1. cbn. eauto.
  - intros c' st2 ->. rewrite subscribeSocket_entry, subscribeSocket_commands, Hnone.
    split; [|split; [reflexivity|]].
    + cbn. f_equal. apply union_empty_l_L.
    + rewrite subscribed_channels_snoc. cbn. apply elem_of_union_r.
      now apply elem_of_singleton.
Qed.

Lemma subscribe_unsubscribe_leaves_no_entry_witness :
  (forall set, subscribers ws_fresh !! "order-1" = Some set -> set ⊆ {[7%nat]}) /\
  forall st1,
  st1 = unsubscribeSocket "order-1" 7 (subscribeSocket "order-1" 7 ws_fresh) ->
  subscribers st1 !! "order-1" = None /\
  (forall o, o <> "order-1" -> subscribers st1 !! o = subscribers ws_fresh !! o) /\
  (exists issued, sub_commands st1 = issued ++ [UNSUBSCRIBE (order_channel "order-1")]) /\
  (order_channel "order-1" ∉ subscribed_channels (sub_commands st1)) /\
  (forall c' st2,
      st2 = subscribeSocket "order-1" c' st1 ->
      subscribers st2 !! "order-1" = Some {[c']} /\
      sub_commands st2 = sub_commands st1 ++ [SUBSCRIBE (order_channel "order-1")] /\
      order_channel "order-1" ∈ subscribed_channels (sub_commands st2)).
Proof.
  split.
  - intros set H. vm_compute in H. discriminate H.
  - apply (subscribe_unsubscribe_leaves_no_entry "order-1" 7%nat ws_fresh).
    intros set H. vm_compute in H. discriminate H.
Defined.

(** The commands a fresh gateway issues over subscribe, unsubscribe,
    subscribe. *)
Example subscribe_unsubscribe_subscribe_commands :
  sub_commands
    (subscribeSocket "order-1" 8
       (unsubscribeSocket "order-1" 7 (subscribeSocket "order-1" 7 ws_fresh)))
  = [SUBSCRIBE "order:order-1"; UNSUBSCRIBE "order:order-1"; SUBSCRIBE "order:order-1"].
Proof. vm_compute. reflexivity. Qed.

(** With a second connection attached the entry stays and nothing is torn
    down. *)
Example unsubscribe_keeps_other_connection :
  sub_commands
    (unsubscribeSocket "order-1" 7
       (subscribeSocket "order-1" 7 (subscribeSocket "order-1" 3 ws_fresh)))
  = [SUBSCRIBE "order:order-1"] /\
  elements <$>
    (subscribers
       (unsubscribeSocket "order-1" 7
          (subscribeSocket "order-1" 7 (subscribeSocket "order-1" 3 ws_fresh)))
       !! "order-1")
  = Some [3%nat].
Proof. vm_compute. split; reflexivity. Qed.

(** ** Execution: the temporary wrapped-SOL account *)

Ltac unfold_branch :=
  unfold execute_meteora, execute_raydium, venue_swap_called, of_res, of_outcome,
    bind, lift, modify, ret, throw, try_catch.

Ltac solve_branch :=
  first
    [ exists []; split; [constructor|];
      intros [b d l c] loc; cbn; unfold add_calls; cbn;
      rewrite ?app_nil_r; reflexivity
    | eexists [_]; split; [repeat constructor; eexists; reflexivity|];
      intros [b d l c] loc; cbn; reflexivity ].

(** Each venue branch invokes the venue's swap at most once, touches
    nothing else, and does the same from every state. *)
Lemma execute_meteora_run env params :
  exists r swaps,
    Forall is_venue_swap swaps /\
    forall w loc, execute_meteora env params (w, loc) = (r, (add_calls swaps w, loc)).
Proof.
  unfold_branch.
  destruct (negb (truthy (sp_meteoraPoolAddress params))); [eexists; solve_branch|].
  destruct (meteora_create (exec env)); [eexists; solve_branch|].
  destruct (meteora_swap_quote (exec env)); [|eexists; solve_branch].
  destruct (meteora_swap (exec env)) as [[[sig|e] [e'|]|id|[t|e]|]|e];
    eexists; solve_branch.
Qed.

Lemma execute_raydium_run env params :
  exists r swaps,
    Forall is_venue_swap swaps /\
    forall w loc, execute_raydium env params (w, loc) = (r, (add_calls swaps w, loc)).
Proof.
  unfold_branch.
  destruct (raydium_sdk_init (exec env)); [eexists; solve_branch|].
  destruct (negb (truthy (sp_raydiumPoolId params))); [eexists; solve_branch|].
  destruct (raydium_pool_info (exec env)); [eexists; solve_branch|].
  destruct (raydium_curve (exec env)) as [[[out|]|e]|],
           (raydium_fallback (exec env)),
           (raydium_has_swap (exec env)),
           (raydium_swap (exec env)),
           (raydium_exec (exec env));
    eexists; solve_branch.
Qed.

Lemma venue_swaps_create_no_account swaps a :
  Forall is_venue_swap swaps -> WrappedAccountCreated a ∉ swaps.
Proof.
  intros Hswaps Ha. rewrite Forall_forall in Hswaps.
  destruct (Hswaps _ Ha) as [d' Hd']. discriminate Hd'.
Qed.

Ltac solve_swap_shape r swaps Hrun :=
  exists r, swaps; split;
  [ intros [b d l c]; cbn; rewrite Hrun; reflexivity | ].

(** The shape of every run of [executeSwap]: what it returns and the calls
    it appends to the chain are fixed by the environment and the
    parameters, and a run that created a wrapped account ends by closing
    it. *)
Lemma executeSwap_shape env params :
  exists r calls,
    (forall w, executeSwap env params w = (r, add_calls calls w)) /\
    (forall a,
        WrappedAccountCreated a ∈ calls ->
        exists swaps closed,
          calls = WrappedAccountCreated a :: swaps ++ [CloseAccountCalled a closed] /\
          Forall is_venue_swap swaps) /\
    (forall a,
        envUseMock env = false ->
        sp_dex params <> mock ->
        sp_tokenIn params = Some "SOL" \/ sp_tokenIn params = None ->
        wrap_result (exec env) = Ok a ->
        exists rest, calls = WrappedAccountCreated a :: rest).
Proof.
  unfold executeSwap.
  destruct (envUseMock env) eqn:Hmock; cbn [orb].
  { eexists _, []. split; [|split].
    - intros [b d l c]. unfold add_calls. cbn. now rewrite app_nil_r.
    - intros a Ha. inversion Ha.
    - discriminate. }
  destruct (bool_decide (sp_dex params = mock)) eqn:Hdex.
  { eexists _, []. split; [|split].
    - intros [b d l c]. unfold add_calls. cbn. now rewrite app_nil_r.
    - intros a Ha. inversion Ha.
    - intros a _ Hd. apply bool_decide_eq_true_1 in Hdex. contradiction. }
  assert (Hbranch : exists r swaps,
             Forall is_venue_swap swaps /\
             forall w loc,
               (if bool_decide (sp_dex params = meteora)
                then execute_meteora env params else execute_raydium env params)
                 (w, loc)
               = (r, (add_calls swaps w, loc))).
  { destruct (bool_decide (sp_dex params = meteora));
      [apply execute_meteora_run|apply execute_raydium_run]. }
  destruct Hbranch as (r & swaps & Hswaps & Hrun).
  unfold with_locals, try_finally, wrapSOLAndGetCleanup, set_cleanupWrapped,
    set_realTokenIn.
  unfold bind at 1.
  destruct (bool_decide (sp_tokenIn params = Some WSOL_MINT)) eqn:Hwsol.
  { solve_swap_shape r swaps Hrun. split.
    - intros a Ha. exfalso. revert Ha. now apply venue_swaps_create_no_account.
    - intros a _ _ [Ht|Ht] _; rewrite Ht in Hwsol; discriminate Hwsol. }
  destruct (bool_decide (sp_tokenIn params = Some "SOL")
            || bool_decide (sp_tokenIn params = None))%bool eqn:Hsol.
  2:{ solve_swap_shape r swaps Hrun. split.
      - intros a Ha. exfalso. revert Ha. now apply venue_swaps_create_no_account.
      - intros a _ _ [Ht|Ht] _; rewrite Ht in Hsol; discriminate Hsol. }
  unfold bind, lift, modify, ret, throw, try_catch, get.
  destruct (wrap_result (exec env)) as [acct|e] eqn:Hwrap.
  2:{ eexists _, []. split; [|split].
      - intros [b d l c]. unfold add_calls. cbn. now rewrite app_nil_r.
      - intros a Ha. inversion Ha.
      - discriminate. }
  destruct (close_result (exec env)) as [e|] eqn:Hclose.
  - exists r, (WrappedAccountCreated acct :: swaps ++ [CloseAccountCalled acct false]).
    split; [|split].
    + intros [b d l c]. cbn. rewrite Hrun. cbn. unfold add_calls, chain_call. cbn.
      now rewrite <- !app_assoc.
    + intros a Ha. apply elem_of_cons in Ha as [Ha|Ha].
      * injection Ha as ->. eauto.
      * exfalso. apply elem_of_app in Ha as [Ha|Ha].
        -- revert Ha. now apply venue_swaps_create_no_account.
        -- apply list_elem_of_singleton in Ha. discriminate Ha.
    + intros a _ _ _ [= ->]. eauto.
  - exists r, (WrappedAccountCreated acct :: swaps ++ [CloseAccountCalled acct true]).
    split; [|split].
    + intros [b d l c]. cbn. rewrite Hrun. cbn. unfold add_calls, chain_call. cbn.
      now rewrite <- !app_assoc.
    + intros a Ha. apply elem_of_cons in Ha as [Ha|Ha].
      * injection Ha as ->. eauto.
      * exfalso. apply elem_of_app in Ha as [Ha|Ha].
        -- revert Ha. now apply venue_swaps_create_no_account.
        -- apply list_elem_of_singleton in Ha. discriminate Ha.
    + intros a _ _ _ [= ->]. eauto.
Qed.

(** [executeSwap] touches nothing but the chain, and what it does there and
    what it returns are the same from every world. *)
Lemma executeSwap_run env params w :
  executeSwap env params w
  = (swap_outcome env params, add_calls (swap_calls env params) w).
Proof.
  destruct (executeSwap_shape env params) as (r & calls & Hrun & _).
  unfold swap_outcome, swap_calls. now rewrite !Hrun.
Qed.

(** With native SOL in, in live mode, the account is created whenever
    [createWrappedNativeAccount] succeeds. *)
Lemma executeSwap_wraps_native_sol env params a :
  envUseMock env = false ->
  sp_dex params <> mock ->
  sp_tokenIn params = Some "SOL" \/ sp_tokenIn params = None ->
  wrap_result (exec env) = Ok a ->
  exists rest, swap_calls env params = WrappedAccountCreated a :: rest.
Proof.
  intros Hm Hd Ht Hw.
  destruct (executeSwap_shape env params) as (r & calls & Hrun & _ & Hwrap).
  unfold swap_calls. rewrite Hrun. cbn. now apply Hwrap.
Qed.

(** C8. Whenever a run of [executeSwap] creates a temporary wrapped-SOL
    account, the run calls [closeAccount] on that account exactly once, as
    its last call on chain, after the venue's swap if there was one,
    whether [executeSwap] returns or throws. *)
Theorem executeSwap_always_cleans_up (env : Env) (params : SwapParams) (w : World) :
  exists calls,
    chain (snd (executeSwap env params w)) = chain w ++ calls /\
    forall a,
      WrappedAccountCreated a ∈ calls ->
      exists swaps closed,
        calls = WrappedAccountCreated a :: swaps ++ [CloseAccountCalled a closed] /\
        Forall (fun c => exists d, c = VenueSwap d) swaps.
Proof.
  destruct (executeSwap_shape env params) as (r & calls & Hrun & Hclean & _).
  exists calls. rewrite Hrun. split; [reflexivity|exact Hclean].
Qed.

(** Native SOL through Meteora: the account is closed after a swap that
    succeeds and after a swap that throws. *)
Example executeSwap_sol_success :
  executeSwap env_live
    {| sp_dex := meteora; sp_tokenIn := Some "SOL"; sp_tokenOut := "MintB";
       sp_amountInBn := 1000000; sp_meteoraPoolAddress := POOL_ADDRESS env_live;
       sp_raydiumPoolId := POOL_ID env_live |} world0
  = (Ok {| txId := Some "sigM"; executedOutBn := Some 100; res_dex := meteora;
           simulated := false |},
     add_calls [WrappedAccountCreated "TempWsolAccount"; VenueSwap meteora;
                CloseAccountCalled "TempWsolAccount" true] world0).
Proof. vm_compute. reflexivity. Qed.

Example executeSwap_sol_failure :
  executeSwap env_execution_fails
    {| sp_dex := meteora; sp_tokenIn := Some "SOL"; sp_tokenOut := "MintB";
       sp_amountInBn := 1000000; sp_meteoraPoolAddress := POOL_ADDRESS env_live;
       sp_raydiumPoolId := POOL_ID env_live |} world0
  = (Throw "Error: slippage exceeded",
     add_calls [WrappedAccountCreated "TempWsolAccount"; VenueSwap meteora;
                CloseAccountCalled "TempWsolAccount" true] world0).
Proof. vm_compute. reflexivity. Qed.

(** ** The worker *)

Lemma best_quote_total env params : exists q, best_quote env params = Ok q.
Proof.
  unfold best_quote. destruct (getBestQuote_total env params tt) as [q Hq].
  exists q. now rewrite Hq.
Qed.

Lemma getBestQuote_run {S : Type} env params (s : S) :
  getBestQuote env params s = (best_quote env params, s).
Proof.
  unfold best_quote. destruct (envUseMock env) eqn:Hm.
  - now rewrite !getBestQuote_mock.
  - rewrite !getBestQuote_live by exact Hm.
    destruct (collected env params); [reflexivity|].
    destruct (array_sort compareQuotes (q :: l)); reflexivity.
Qed.

(** Symbolic execution of one job run: each external call is replaced by
    its summary and split on the outcome the environment gives it. *)
Ltac split_outcome :=
  match goal with
  | |- context [match publish_result ?env ?s with _ => _ end] =>
      let H := fresh "Hpub" in destruct (publish_result env s) eqn:H
  | |- context [match after_retries ?q with _ => _ end] =>
      let H := fresh "Hsql" in destruct (after_retries q) eqn:H
  | |- context [match wallet_setup ?env with _ => _ end] =>
      let H := fresh "Hwallet" in destruct (wallet_setup env) eqn:H
  | |- context [match swap_outcome ?env ?p with _ => _ end] =>
      let H := fresh "Hswap" in destruct (swap_outcome env p) eqn:H
  end.

Ltac run_worker :=
  unfold worker, reassert_pending, execution_block, execution_failed;
  unfold bind, try_catch, ret, throw; cbv beta zeta;
  repeat first
    [ rewrite publishOrderUpdate_run; cbn [p_status payload]
    | rewrite updateOrderStatus_run
    | rewrite setRoutingInfo_run
    | rewrite executeSwap_run
    | match goal with
      | |- context [getBestQuote ?env ?p ?w] =>
          let q := fresh "quote" in
          let Hq := fresh "Hquote" in
          rewrite (getBestQuote_run env p w);
          destruct (best_quote_total env p) as [q Hq]; rewrite Hq
      end
    | split_outcome
    | progress cbv beta iota zeta ].

(** The bus and the SQL log of a world built by the run's steps. *)
Ltac world_fields :=
  cbn [bus sql_log db chain publish_to execute_sql add_calls chain_call fst snd].

Ltac solve_appended :=
  world_fields; rewrite <- ?app_assoc;
  first [reflexivity | symmetry; apply app_nil_r].

Ltac solve_sublist :=
  solve [repeat first [apply sublist_nil | apply sublist_skip | apply sublist_cons]].

Ltac solve_notin :=
  cbn; repeat (apply not_elem_of_cons; split; [discriminate|]); apply not_elem_of_nil.

(** A path on which some call failed contradicts [calls_succeed]. *)
Ltac contradict_calls Hall :=
  destruct Hall as (Hp & Hu & Hr & Hw);
  try match goal with
      | H : publish_result _ ?s = Some _ |- _ => rewrite Hp in H; discriminate H
      | H : after_retries (update_query _ ?s) = Some _ |- _ =>
          rewrite Hu in H; discriminate H
      | H : after_retries (routing_query _) = Some _ |- _ =>
          rewrite Hr in H; discriminate H
      | H : wallet_setup _ = Some _ |- _ => rewrite Hw in H; discriminate H
      end.

(** C5 as stated fails: when Redis rejects the first publish the job fails
    at once, and nothing is written or published, where the same job with a
    working bus runs to the end. *)
Lemma publish_failure_aborts_job :
  publish_result env_bus_down_at_pending pending = Some "Error: Connection is closed." /\
  worker env_bus_down_at_pending job1 world_new
  = (Throw "Error: Connection is closed.", world_new) /\
  fst (worker env_live job1 world_new) = Ok tt.
Proof. repeat split. Qed.

(** C5, amended. [publishOrderUpdate] logs and rethrows: when the publish
    of [pending], [routing], [building], [submitted] or [confirmed] fails,
    the job fails. When it is the publish of [pending], nothing at all is
    written or published. When it is a publish before the execution block,
    the run stops there: no later status is published, and neither
    [confirmed] nor [failed] is written. *)
Theorem publish_failure_fails_the_job (env : Env) (job : Job) (w : World) :
  (forall s e,
      s <> failed -> publish_result env s = Some e ->
      exists e', fst (worker env job w) = Throw e') /\
  (forall e,
      publish_result env pending = Some e ->
      worker env job w = (Throw e, w)) /\
  (exists evs writes,
      bus (snd (worker env job w)) = bus w ++ evs /\
      sql_log (snd (worker env job w)) = sql_log w ++ writes /\
      forall s e,
        s = pending \/ s = routing \/ s = building ->
        publish_result env s = Some e ->
        sublist (statuses evs) [pending; routing] /\
        (s ∉ statuses evs) /\
        Forall (fun wr => write_status wr <> Some confirmed /\
                          write_status wr <> Some failed) writes).
Proof.
  split; [|split].
  - intros s e Hs He. run_worker; cbn [fst]; eauto.
    destruct s; congruence.
  - intros e He. run_worker; congruence.
  - run_worker.
    all: eexists _, _; split; [solve_appended|]; split; [solve_appended|].
    all: intros s err Hs Herr.
    all: destruct Hs as [-> | [-> | ->]]; try congruence.
    all: cbn; split; [solve_sublist|]; split; [solve_notin|].
    all: repeat (constructor; [split; cbn; discriminate|]); constructor.
Qed.

(** C1 as stated fails: when the write that re-asserts [pending] fails on
    its three attempts, the run has published [pending] and publishes
    nothing else, so the sequence has no terminal event. *)
Lemma worker_may_stop_after_pending :
  statuses (published_by world_new (snd (worker env_db_down_at_pending job1 world_new)))
  = [pending] /\
  ~ lifecycle_complete
      (statuses (published_by world_new
                   (snd (worker env_db_down_at_pending job1 world_new)))).
Proof.
  split; [reflexivity|].
  intros (_ & _ & [H|H]); vm_compute in H; discriminate H.
Qed.

(** A write of [confirmed] that fails after its publication is followed by
    the publication of [failed]. *)
Example worker_confirmed_then_failed :
  statuses (published_by world_new (snd (worker env_db_down_at_confirmed job1 world_new)))
  = [pending; routing; building; submitted; confirmed; failed].
Proof. reflexivity. Qed.

(** C1, amended. The events one run of the worker publishes all go to the
    order's channel and their statuses are, in this order and without
    repetition, a subsequence of pending, routing, building, submitted,
    confirmed, failed that is empty or begins with pending. When the write
    of [confirmed] does not fail, the sequence holds at most one of
    confirmed and failed. When every publish, every write and the wallet
    setup succeed, it is exactly pending, routing, building, submitted and
    then confirmed if [executeSwap] returned, failed if it threw. A run that
    returns has published exactly pending, routing, building, submitted,
    confirmed. When a step before the execution block throws, the run
    throws and what it has published is a prefix of pending, routing,
    building: no submitted and no terminal event. *)
Theorem worker_publishes_in_lifecycle_order (env : Env) (job : Job) (w : World) :
  exists evs,
    bus (snd (worker env job w)) = bus w ++ evs /\
    Forall (fun m => fst m = order_channel (orderId job) /\
                     p_orderId (snd m) = orderId job) evs /\
    sublist (statuses evs) [pending; routing; building; submitted; confirmed; failed] /\
    (evs = [] \/ exists rest, statuses evs = pending :: rest) /\
    (after_retries (update_query env confirmed) = None ->
     exists t, (t = confirmed \/ t = failed) /\
               sublist (statuses evs) [pending; routing; building; submitted; t]) /\
    (calls_succeed env ->
     forall quote, best_quote env (job_quote_params env job) = Ok quote ->
     statuses evs
     = [pending; routing; building; submitted;
        match swap_outcome env (job_swap_params env job quote) with
        | Ok _ => confirmed
        | Throw _ => failed
        end]) /\
    (fst (worker env job w) = Ok tt ->
     statuses evs = [pending; routing; building; submitted; confirmed]) /\
    (~ reaches_execution env ->
     (exists err, fst (worker env job w) = Throw err) /\
     statuses evs `prefix_of` [pending; routing; building]).
Proof.
  run_worker.
  all: eexists; split; [solve_appended|].
  all: split; [repeat (constructor; [split; reflexivity|]); constructor|].
  all: cbn [statuses map app snd p_status payload].
  all: split; [solve_sublist|].
  all: split; [first [left; reflexivity | right; eexists; reflexivity]|].
  all: split; [intros Hconfirmed; try congruence;
               first [exists confirmed; split; [now left|solve_sublist]
                     |exists failed; split; [now right|solve_sublist]]|].
  all: split; [|split;
                [cbn [fst]; intros Hok; first [discriminate Hok | reflexivity]
                |intros Hstop;
                 first [exfalso; apply Hstop; unfold reaches_execution;
                        repeat split; first [assumption | reflexivity]
                       |split; [cbn [fst]; eexists; reflexivity
                               |eexists; reflexivity]]]].
  all: intros Hall q Hq; contradict_calls Hall.
  all: simplify_eq;
    match goal with H : swap_outcome _ _ = _ |- _ => rewrite H end; reflexivity.
Qed.

(** C2 as stated fails on both counts. When [executeSwap] throws and the
    publish of [failed] throws as well, there is no [failed] event and no
    write of [failed]. And when [executeSwap] returns but the publish of
    [confirmed] throws, [failed] is written with [attempts] plus 1. *)
Lemma execution_failure_may_go_unrecorded :
  (swap_outcome env_execution_and_bus_fail
     (job_swap_params env_execution_and_bus_fail job1
        {| dex := raydium; outAmountBn := 105; details := JNull |})
   = Throw "Error: slippage exceeded" /\
   statuses (published_by world_new
               (snd (worker env_execution_and_bus_fail job1 world_new)))
   = [pending; routing; building; submitted] /\
   ~ failure_recorded_once "order-1"
       (published_by world_new (snd (worker env_execution_and_bus_fail job1 world_new)))
       (written_by world_new (snd (worker env_execution_and_bus_fail job1 world_new)))) /\
  (swap_outcome env_bus_down_at_confirmed
     (job_swap_params env_bus_down_at_confirmed job1
        {| dex := raydium; outAmountBn := 105; details := JNull |})
   = Ok {| txId := Some "sigR"; executedOutBn := Some 105; res_dex := raydium;
           simulated := false |} /\
   failed_writes
     (written_by world_new (snd (worker env_bus_down_at_confirmed job1 world_new)))
   = [SqlUpdateStatus "order-1" failed 1] /\
   attempts <$> (db (snd (worker env_bus_down_at_confirmed job1 world_new)) !! "order-1")
   = Some (Some 1)).
Proof.
  split; split.
  - reflexivity.
  - split; [reflexivity|]. intros [H _]. vm_compute in H. discriminate H.
  - reflexivity.
  - split; vm_compute; reflexivity.
Qed.

Ltac solve_row Hrow :=
  world_fields; rewrite ?lookup_alter_eq, Hrow; cbn;
  eexists; split; [reflexivity|]; cbn.

(** C2, amended. When the run reaches the execution block, [submitted] is
    published, [executeSwap] throws, and the publish and the write of
    [failed] succeed, the worker throws the same error, has published
    exactly one [failed] event and executed exactly one write of [failed],
    which adds exactly 1 to [attempts] and stores the error. A run that
    fails before the execution block, and a run that returns, add nothing
    to [attempts] and publish no [failed] event. *)
Theorem execution_failure_recorded_once (env : Env) (job : Job) (w : World) :
  exists evs writes,
    bus (snd (worker env job w)) = bus w ++ evs /\
    sql_log (snd (worker env job w)) = sql_log w ++ writes /\
    (forall quote err,
        reaches_execution env ->
        publish_result env submitted = None ->
        best_quote env (job_quote_params env job) = Ok quote ->
        swap_outcome env (job_swap_params env job quote) = Throw err ->
        publish_result env failed = None ->
        after_retries (update_query env failed) = None ->
        fst (worker env job w) = Throw err /\
        failure_recorded_once (orderId job) evs writes /\
        (forall row,
            db w !! orderId job = Some row ->
            exists row',
              db (snd (worker env job w)) !! orderId job = Some row' /\
              status row' = failed /\
              error row' = Some err /\
              attempts row' = Some (default 0 (attempts row) + 1))) /\
    (~ reaches_execution env \/ fst (worker env job w) = Ok tt ->
     Forall (fun wr => write_delta wr = 0) writes /\
     failed_events evs = [] /\
     (forall row,
         db w !! orderId job = Some row ->
         exists row',
           db (snd (worker env job w)) !! orderId job = Some row' /\
           default 0 (attempts row') = default 0 (attempts row))).
Proof.
  run_worker.
  all: eexists _, _; split; [solve_appended|]; split; [solve_appended|].
  all: split;
    [ intros q err (H1 & H2 & H3 & H4 & H5 & H6 & H7) H8 H9 H10 H11 H12;
      try congruence
    | intros Hcase;
      first
        [ solve [ split; [repeat constructor|]; split; [reflexivity|];
                  intros row Hrow; solve_row Hrow; lia ]
        | exfalso; destruct Hcase as [Hn|Hok];
          [apply Hn; repeat split; assumption | discriminate Hok] ] ].
  simplify_eq. assert (e = err) as -> by congruence.
  split; [reflexivity|]. split.
  - split; reflexivity.
  - intros row Hrow. solve_row Hrow. repeat split. f_equal. lia.
Qed.

(** ** Runs of the scenarios *)

(** Everything succeeds: the five statuses in order and a confirmed row. *)
Example worker_run_confirmed :
  fst (worker env_live job1 world_new) = Ok tt /\
  statuses (published_by world_new (snd (worker env_live job1 world_new)))
  = [pending; routing; building; submitted; confirmed] /\
  (fun r => (status r, attempts r, tx_hash r, executed_price r)) <$>
    (db (snd (worker env_live job1 world_new)) !! "order-1")
  = Some (confirmed, Some 0, Some "sigR", Some 105).
Proof. repeat split; vm_compute; reflexivity. Qed.

(** The venue rejects the swap: [failed] once, [attempts] from 0 to 1, and
    the error goes on to the queue. *)
Example worker_run_failed :
  fst (worker env_execution_fails job1 world_new) = Throw "Error: slippage exceeded" /\
  statuses (published_by world_new (snd (worker env_execution_fails job1 world_new)))
  = [pending; routing; building; submitted; failed] /\
  written_by world_new (snd (worker env_execution_fails job1 world_new))
  = [SqlUpdateStatus "order-1" pending 0; SqlSetRouting "order-1";
     SqlUpdateStatus "order-1" routing 0; SqlUpdateStatus "order-1" failed 1] /\
  (fun r => (status r, attempts r, error r)) <$>
    (db (snd (worker env_execution_fails job1 world_new)) !! "order-1")
  = Some (failed, Some 1, Some "Error: slippage exceeded").
Proof. repeat split; vm_compute; reflexivity. Qed.

(** The queue redelivers the job and the venue rejects it again: the second
    run starts over from [pending] and [attempts] goes from 1 to 2. *)
Example worker_rerun_failed :
  statuses (published_by world_new
              (snd (worker env_execution_fails job1
                      (snd (worker env_execution_fails job1 world_new)))))
  = [pending; routing; building; submitted; failed;
     pending; routing; building; submitted; failed] /\
  attempts <$>
    (db (snd (worker env_execution_fails job1
                (snd (worker env_execution_fails job1 world_new)))) !! "order-1")
  = Some (Some 2).
Proof. split; vm_compute; reflexivity. Qed.

Example scenarios_reach_execution :
  reaches_execution env_execution_fails /\ calls_succeed env_live.
Proof. repeat split. Qed.

(* ===================================================================== *)
(** * More of the code *)
(* ===================================================================== *)

(** ** Strings: split and join *)

Lemma split_char_cons sep s : exists p ps, split_char sep s = p :: ps.
Proof.
  destruct s as [|c s]; cbn; [eauto|].
  destruct (Ascii.eqb c sep); [eauto|].
  destruct (split_char sep s); eauto.
Qed.

Lemma join_split_char sep s : join_char sep (split_char sep s) = s.
Proof.
  induction s as [|c s IH]; [reflexivity|]. cbn.
  destruct (Ascii.eqb_spec c sep) as [->|Hne].
  - destruct (split_char_cons sep s) as (p & ps & Hs). rewrite Hs in *.
    cbn. cbn in IH. now rewrite IH.
  - destruct (split_char_cons sep s) as (p & ps & Hs). rewrite Hs in *.
    destruct ps as [|q ps].
    + cbn in *. now rewrite IH.
    + change (join_char sep (String c p :: q :: ps))
        with (String c (p ++ String sep (join_char sep (q :: ps)))).
      f_equal. exact IH.
Qed.

Lemma split_char_no_sep sep s : has_char sep s = false -> split_char sep s = [s].
Proof.
  induction s as [|c s IH]; [reflexivity|]. cbn. intros H.
  apply orb_false_iff in H as [Hc Hs]. rewrite Hc, (IH Hs). reflexivity.
Qed.

Lemma split_char_app sep a b :
  has_char sep a = false ->
  split_char sep (a ++ String sep b) = a :: split_char sep b.
Proof.
  induction a as [|c a IH]; cbn; intros H.
  - change (split_char sep (String sep b) = EmptyString :: split_char sep b).
    cbn. now rewrite Ascii.eqb_refl.
  - apply orb_false_iff in H as [Hc Ha].
    change (split_char sep (String c (a ++ String sep b)%string)
            = String c a :: split_char sep b).
    cbn. rewrite Hc, (IH Ha). reflexivity.
Qed.

(** The first piece holds no separator, and with a separator in the string
    there are at least two pieces. *)
Lemma split_char_has_sep sep s :
  has_char sep s = true ->
  exists p q qs, split_char sep s = p :: q :: qs /\ has_char sep p = false.
Proof.
  induction s as [|c s IH]; cbn; [discriminate|].
  destruct (Ascii.eqb c sep) eqn:Hc; cbn.
  - intros _. destruct (split_char_cons sep s) as (q & qs & ->).
    exists EmptyString, q, qs. split; reflexivity.
  - intros Hs. destruct (IH Hs) as (p & q & qs & -> & Hp).
    exists (String c p), q, qs. split; [reflexivity|]. cbn. now rewrite Hc, Hp.
Qed.

Lemma split_char_two sep s a b :
  split_char sep s = [a; b] -> s = (a ++ String sep b)%string.
Proof.
  intros H. rewrite <- (join_split_char sep s), H. reflexivity.
Qed.

Lemma has_char_app c a b : has_char c (a ++ b) = (has_char c a || has_char c b)%bool.
Proof.
  induction a as [|c' a IH]; [reflexivity|].
  change (has_char c (String c' (a ++ b)%string)
          = (has_char c (String c' a) || has_char c b)%bool).
  cbn. rewrite IH. now rewrite orb_assoc.
Qed.

(** ** Registry: consistency with the upstream subscription *)

Lemma order_channel_inj a b : order_channel a = order_channel b -> a = b.
Proof. unfold order_channel. apply String.app_inj. Qed.

Lemma unsubscribeSocket_entry orderId ws st :
  subscribers (unsubscribeSocket orderId ws st) !! orderId
  = match subscribers st !! orderId with
    | Some set => if decide (set ∖ {[ws]} = ∅) then None else Some (set ∖ {[ws]})
    | None => None
    end.
Proof.
  unfold unsubscribeSocket.
  destruct (subscribers st !! orderId) as [set|] eqn:Hs; [|exact Hs].
  destruct (decide (set ∖ {[ws]} = ∅)) as [He|Hne].
  - rewrite He, size_empty. cbn. apply lookup_delete_eq.
  - destruct (size (set ∖ {[ws]})) eqn:Hsz.
    + exfalso. apply Hne. apply leibniz_equiv. now apply size_empty_iff.
    + cbn. apply lookup_insert_eq.
Qed.

Lemma unsubscribeSocket_others orderId ws st o :
  o <> orderId ->
  subscribers (unsubscribeSocket orderId ws st) !! o = subscribers st !! o.
Proof.
  intros Hne. unfold unsubscribeSocket.
  destruct (subscribers st !! orderId) as [set|]; [|reflexivity].
  destruct (size (set ∖ {[ws]}) =? 0)%nat; cbn;
    rewrite ?lookup_delete_ne, ?lookup_insert_ne by congruence; reflexivity.
Qed.

Lemma unsubscribeSocket_commands orderId ws st :
  sub_commands (unsubscribeSocket orderId ws st)
  = match subscribers st !! orderId with
    | Some set =>
        if decide (set ∖ {[ws]} = ∅)
        then sub_commands st ++ [UNSUBSCRIBE (order_channel orderId)]
        else sub_commands st
    | None => sub_commands st
    end.
Proof.
  unfold unsubscribeSocket.
  destruct (subscribers st !! orderId) as [set|] eqn:Hs; [|reflexivity].
  destruct (decide (set ∖ {[ws]} = ∅)) as [He|Hne].
  - now rewrite He, size_empty.
  - destruct (size (set ∖ {[ws]})) eqn:Hsz; [|reflexivity].
    exfalso. apply Hne. apply leibniz_equiv. now apply size_empty_iff.
Qed.

Lemma subscribeSocket_consistent orderId ws st :
  ws_consistent st -> ws_consistent (subscribeSocket orderId ws st).
Proof.
  intros [Hne Hch]. split.
  - intros id set. destruct (decide (id = orderId)) as [->|Hid].
    + rewrite subscribeSocket_entry. intros [= <-] Hempty.
      assert (Hin : ws ∈ (∅ : gset nat)).
      { rewrite <- Hempty. apply elem_of_union_r. now apply elem_of_singleton. }
      now apply not_elem_of_empty in Hin.
    + rewrite subscribeSocket_others by exact Hid. apply Hne.
  - intros ch. rewrite subscribeSocket_commands.
    assert (Hdom : forall id, is_Some (subscribers (subscribeSocket orderId ws st) !! id)
                              <-> id = orderId \/ is_Some (subscribers st !! id)).
    { intros id. destruct (decide (id = orderId)) as [->|Hid].
      - rewrite subscribeSocket_entry. split; eauto.
      - rewrite subscribeSocket_others by exact Hid. tauto. }
    destruct (subscribers st !! orderId) as [set|] eqn:Hs.
    + rewrite Hch. split; intros (id & -> & Hid); exists id; split; auto.
      * apply Hdom. now right.
      * apply Hdom in Hid as [->|Hid]; [rewrite Hs; eauto|exact Hid].
    + rewrite subscribed_channels_snoc. cbn.
      rewrite elem_of_union, elem_of_singleton, Hch. split.
      * intros [(id & -> & Hid)| ->].
        -- exists id. split; auto. apply Hdom. now right.
        -- exists orderId. split; auto. apply Hdom. now left.
      * intros (id & -> & Hid). apply Hdom in Hid as [->|Hid]; [now right|].
        left. eauto.
Qed.

Lemma unsubscribeSocket_consistent orderId ws st :
  ws_consistent st -> ws_consistent (unsubscribeSocket orderId ws st).
Proof.
  intros [Hne Hch]. split.
  - intros id set. destruct (decide (id = orderId)) as [->|Hid].
    + rewrite unsubscribeSocket_entry.
      destruct (subscribers st !! orderId) as [set0|]; [|discriminate].
      destruct (decide (set0 ∖ {[ws]} = ∅)); [discriminate|]. now intros [= <-].
    + rewrite unsubscribeSocket_others by exact Hid. apply Hne.
  - intros ch. rewrite unsubscribeSocket_commands.
    destruct (subscribers st !! orderId) as [set|] eqn:Hs.
    + destruct (decide (set ∖ {[ws]} = ∅)) as [He|Hn].
      * rewrite subscribed_channels_snoc. cbn.
        rewrite elem_of_difference, elem_of_singleton, Hch. split.
        -- intros [(id & -> & Hid) Hneq]. exists id. split; auto.
           rewrite unsubscribeSocket_others; [exact Hid|]. congruence.
        -- intros (id & -> & Hid).
           destruct (decide (id = orderId)) as [->|Hd].
           ++ rewrite unsubscribeSocket_entry, Hs in Hid.
              destruct (decide (set ∖ {[ws]} = ∅)); [|contradiction].
              now destruct Hid.
           ++ rewrite unsubscribeSocket_others in Hid by exact Hd. split; eauto.
              intros Heq. now apply order_channel_inj in Heq.
      * rewrite Hch. split; intros (id & -> & Hid); exists id; split; auto.
        -- destruct (decide (id = orderId)) as [->|Hd].
           ++ rewrite unsubscribeSocket_entry, Hs.
              destruct (decide (set ∖ {[ws]} = ∅)); [contradiction|eauto].
           ++ now rewrite unsubscribeSocket_others.
        -- destruct (decide (id = orderId)) as [->|Hd]; [rewrite Hs; eauto|].
           now rewrite unsubscribeSocket_others in Hid.
    + rewrite Hch. split; intros (id & -> & Hid); exists id; split; auto.
      * destruct (decide (id = orderId)) as [->|Hd]; [rewrite Hs in Hid; now destruct Hid|].
        now rewrite unsubscribeSocket_others.
      * destruct (decide (id = orderId)) as [->|Hd].
        -- rewrite unsubscribeSocket_entry, Hs in Hid. now destruct Hid.
        -- now rewrite unsubscribeSocket_others in Hid.
Qed.

Lemma ws_fresh_consistent : ws_consistent ws_fresh.
Proof.
  split.
  - intros id set H. cbn in H. rewrite lookup_empty in H. discriminate H.
  - intros ch. cbn. split.
    + intros H. now apply not_elem_of_empty in H.
    + intros (id & _ & H). cbn in H. rewrite lookup_empty in H. now destruct H.
Qed.

(** X1. From a fresh gateway, after any sequence of [subscribeSocket] and
    [unsubscribeSocket] calls the registry holds no empty set and the [sub]
    connection listens on exactly the channels [order:id] of the orders
    that have an entry: the upstream subscription exists from the first
    subscriber of an order until its last one leaves. *)
Theorem registry_consistent_with_upstream (ops : list WsOp) :
  ws_consistent (ws_run ops ws_fresh).
Proof.
  unfold ws_run. generalize ws_fresh_consistent. generalize ws_fresh.
  induction ops as [|op ops IH]; intros st Hst; [exact Hst|].
  cbn. apply IH. destruct op; cbn;
    [now apply subscribeSocket_consistent|now apply unsubscribeSocket_consistent].
Qed.

(** X2. Subscribing the same socket to the same order a second time changes
    nothing: the set already holds it and no second [SUBSCRIBE] is
    issued. *)
Theorem subscribeSocket_idempotent (orderId : string) (ws : nat) (st : WsState) :
  subscribeSocket orderId ws (subscribeSocket orderId ws st)
  = subscribeSocket orderId ws st.
Proof.
  unfold subscribeSocket at 1. rewrite subscribeSocket_entry. cbn.
  destruct (subscribeSocket orderId ws st) as [subs cmds] eqn:Hst. cbn. f_equal.
  assert (Hsubs : subs !! orderId = Some (default ∅ (subscribers st !! orderId) ∪ {[ws]})).
  { change subs with (subscribers {| subscribers := subs; sub_commands := cmds |}).
    rewrite <- Hst. apply subscribeSocket_entry. }
  apply map_eq. intros k. destruct (decide (k = orderId)) as [->|Hk].
  - rewrite lookup_insert_eq, Hsubs. f_equal.
    apply set_eq. intros x. rewrite !elem_of_union. tauto.
  - now rewrite lookup_insert_ne by congruence.
Qed.

(** X3. In a registry without empty sets, [unsubscribeSocket] for a socket
    that is not attached to the order (or for an order without entry)
    changes nothing and tears nothing down. *)
Theorem unsubscribeSocket_unattached (orderId : string) (ws : nat) (st : WsState) :
  (forall id set, subscribers st !! id = Some set -> set <> ∅) ->
  (forall set, subscribers st !! orderId = Some set -> ws ∉ set) ->
  unsubscribeSocket orderId ws st = st.
Proof.
  intros Hne Hnot. unfold unsubscribeSocket.
  destruct (subscribers st !! orderId) as [set|] eqn:Hs; [|reflexivity].
  assert (Hsame : set ∖ {[ws]} = set).
  { apply set_eq. intros x. rewrite elem_of_difference, elem_of_singleton.
    split; [tauto|]. intros Hx. split; [exact Hx|]. intros ->.
    now apply (Hnot set). }
  rewrite Hsame.
  destruct (size set) eqn:Hsz.
  - exfalso. apply (Hne orderId set Hs). apply leibniz_equiv. now apply size_empty_iff.
  - cbn. destruct st as [subs cmds]. cbn in *. f_equal. now apply insert_id.
Qed.

Lemma unsubscribeSocket_unattached_witness :
  (forall id set, subscribers ws_one !! id = Some set -> set <> ∅) /\
  (forall set, subscribers ws_one !! "order-1" = Some set -> 7%nat ∉ set) /\
  unsubscribeSocket "order-1" 7 ws_one = ws_one.
Proof.
  assert (H1 : forall id set, subscribers ws_one !! id = Some set -> set <> ∅).
  { apply (subscribeSocket_consistent "order-1" 3 ws_fresh ws_fresh_consistent). }
  assert (H2 : forall set, subscribers ws_one !! "order-1" = Some set -> 7%nat ∉ set).
  { intros set. unfold ws_one. rewrite subscribeSocket_entry. intros [= <-].
    cbn. rewrite lookup_empty. cbn. rewrite elem_of_union, elem_of_empty, elem_of_singleton.
    intros [[]|H]. discriminate H. }
  split; [exact H1|]. split; [exact H2|].
  apply (unsubscribeSocket_unattached "order-1" 7%nat ws_one H1 H2).
Defined.

(** ** The relay *)

Lemma relay_to_lookup {M} socks (m : M) x inbox ws :
  relay_to socks m x inbox !! ws
  = if decide (ws = x) then
      if ws_open socks ws then
        match ws_send socks ws with
        | None => Some (default [] (inbox !! ws) ++ [m])
        | Some _ => inbox !! ws
        end
      else inbox !! ws
    else inbox !! ws.
Proof.
  unfold relay_to. destruct (decide (ws = x)) as [->|Hne].
  - destruct (ws_open socks x); [|reflexivity].
    destruct (ws_send socks x); [reflexivity|]. apply lookup_insert_eq.
  - destruct (ws_open socks x); [|reflexivity].
    destruct (ws_send socks x); [reflexivity|]. now apply lookup_insert_ne.
Qed.

Lemma relay_set_lookup {M} socks (m : M) (set : gset nat) inbox ws :
  set_fold (relay_to socks m) inbox set !! ws
  = if decide (ws ∈ set) then
      if ws_open socks ws then
        match ws_send socks ws with
        | None => Some (default [] (inbox !! ws) ++ [m])
        | Some _ => inbox !! ws
        end
      else inbox !! ws
    else inbox !! ws.
Proof.
  set (P := fun (r : gmap nat (list M)) (X : gset nat) =>
              r !! ws
              = if decide (ws ∈ X) then
                  if ws_open socks ws then
                    match ws_send socks ws with
                    | None => Some (default [] (inbox !! ws) ++ [m])
                    | Some _ => inbox !! ws
                    end
                  else inbox !! ws
                else inbox !! ws).
  change (P (set_fold (relay_to socks m) inbox set) set).
  apply set_fold_ind_L; unfold P; clear P.
  - destruct (decide (ws ∈ (∅ : gset nat))) as [H|_]; [|reflexivity].
    now apply not_elem_of_empty in H.
  - intros x X r Hx IH. rewrite relay_to_lookup.
    destruct (decide (ws = x)) as [->|Hne].
    + destruct (decide (x ∈ X)); [contradiction|].
      destruct (decide (x ∈ {[x]} ∪ X)) as [_|Hn].
      * now rewrite IH.
      * exfalso. apply Hn. apply elem_of_union_l. now apply elem_of_singleton.
    + rewrite IH. destruct (decide (ws ∈ X)) as [Hin|Hnin].
      * destruct (decide (ws ∈ {[x]} ∪ X)) as [_|Hn]; [reflexivity|].
        exfalso. apply Hn. now apply elem_of_union_r.
      * destruct (decide (ws ∈ {[x]} ∪ X)) as [Hin|_]; [|reflexivity].
        apply elem_of_union in Hin as [Hin|Hin]; [|contradiction].
        apply elem_of_singleton in Hin. contradiction.
Qed.

Lemma channel_order_id_channel id :
  channel_order_id (order_channel id) = hd EmptyString (split_char ":" id).
Proof.
  unfold channel_order_id, order_channel.
  change ("order:" ++ id)%string with ("order" ++ String ":" id)%string.
  rewrite split_char_app by reflexivity. cbn.
  destruct (split_char_cons ":" id) as (p & ps & ->). reflexivity.
Qed.

Lemma prefix_append s t : String.prefix s (s ++ t)%string = true.
Proof.
  induction s as [|a s IH]; [now destruct t|].
  change (String.prefix (String a s) (String a (s ++ t)%string) = true). cbn.
  destruct (ascii_dec a a); [exact IH|contradiction].
Qed.

Lemma order_channel_prefix id : String.prefix "order:" (order_channel id) = true.
Proof. apply prefix_append. Qed.

Lemma onMessage_order_channel {M} socks st id (m : M) inbox :
  onMessage socks st (order_channel id) m inbox
  = match subscribers st !! hd EmptyString (split_char ":" id) with
    | Some set => set_fold (relay_to socks m) inbox set
    | None => inbox
    end.
Proof.
  unfold onMessage. rewrite order_channel_prefix, channel_order_id_channel. reflexivity.
Qed.

Lemma onMessage_lookup {M} socks st id (m : M) inbox ws :
  has_char ":" id = false ->
  onMessage socks st (order_channel id) m inbox !! ws
  = match subscribers st !! id with
    | Some set =>
        if decide (ws ∈ set) then
          if ws_open socks ws then
            match ws_send socks ws with
            | None => Some (default [] (inbox !! ws) ++ [m])
            | Some _ => inbox !! ws
            end
          else inbox !! ws
        else inbox !! ws
    | None => inbox !! ws
    end.
Proof.
  intros Hid. rewrite onMessage_order_channel, split_char_no_sep by exact Hid. cbn.
  destruct (subscribers st !! id); [apply relay_set_lookup|reflexivity].
Qed.

(** X4. A message on the channel of an order whose id holds no colon
    reaches exactly the sockets attached to that order that are open and
    whose [send] does not throw: each of them gets it once, at the end of
    what it had; a closed socket or a socket whose [send] throws is skipped
    without keeping the message from the others, and no other socket's
    inbox changes. *)
Theorem onMessage_reaches_attached_sockets
    {M : Type} (socks : Sockets) (st : WsState) (id : string) (m : M)
    (inbox : gmap nat (list M)) (ws : nat) :
  has_char ":" id = false ->
  (forall set,
      subscribers st !! id = Some set -> ws ∈ set -> receives socks ws ->
      onMessage socks st (order_channel id) m inbox !! ws
      = Some (default [] (inbox !! ws) ++ [m])) /\
  ((forall set, subscribers st !! id = Some set -> ws ∉ set) \/ ~ receives socks ws ->
   onMessage socks st (order_channel id) m inbox !! ws = inbox !! ws).
Proof.
  intros Hid. rewrite onMessage_lookup by exact Hid.
  split.
  - intros set Hs Hin [Hopen Hsend]. rewrite Hs.
    destruct (decide (ws ∈ set)); [|contradiction]. now rewrite Hopen, Hsend.
  - intros Hcase. destruct (subscribers st !! id) as [set|] eqn:Hs; [|reflexivity].
    destruct (decide (ws ∈ set)) as [Hin|_]; [|reflexivity].
    destruct Hcase as [Hnot|Hnr]; [now apply Hnot in Hin|].
    destruct (ws_open socks ws) eqn:Hopen; [|reflexivity].
    destruct (ws_send socks ws) eqn:Hsend; [reflexivity|].
    exfalso. apply Hnr. now split.
Qed.

Lemma onMessage_reaches_attached_sockets_witness :
  has_char ":" "order-1" = false /\
  (forall set,
      subscribers ws_one !! "order-1" = Some set -> 3%nat ∈ set ->
      receives socks_healthy 3 ->
      onMessage socks_healthy ws_one (order_channel "order-1") (payload "order-1" pending)
        ∅ !! 3%nat
      = Some (default [] ((∅ : gmap nat (list Payload)) !! 3%nat)
              ++ [payload "order-1" pending])) /\
  ((forall set, subscribers ws_one !! "order-1" = Some set -> 3%nat ∉ set)
   \/ ~ receives socks_healthy 3 ->
   onMessage socks_healthy ws_one (order_channel "order-1") (payload "order-1" pending)
     ∅ !! 3%nat
   = (∅ : gmap nat (list Payload)) !! 3%nat).
Proof.
  split; [reflexivity|].
  apply (onMessage_reaches_attached_sockets socks_healthy ws_one "order-1"
           (payload "order-1" pending) ∅ 3%nat).
  reflexivity.
Defined.

(** X5. The handler takes the order id to be the piece of the channel
    name between the first and the second colon: a message published for an
    order id [a:b] is relayed to the sockets attached to order [a]. *)
Theorem onMessage_truncates_order_id_at_colon
    {M : Type} (socks : Sockets) (st : WsState) (a b : string) (m : M)
    (inbox : gmap nat (list M)) :
  has_char ":" a = false ->
  onMessage socks st (order_channel (a ++ String ":" b)) m inbox
  = onMessage socks st (order_channel a) m inbox.
Proof.
  intros Ha. rewrite !onMessage_order_channel.
  rewrite split_char_app by exact Ha. rewrite (split_char_no_sep ":" a Ha). reflexivity.
Qed.

Lemma onMessage_truncates_order_id_at_colon_witness :
  has_char ":" "order-1" = false /\
  onMessage socks_healthy ws_one (order_channel ("order-1" ++ String ":" "x"))
    (payload "order-1:x" pending) ∅
  = onMessage socks_healthy ws_one (order_channel "order-1")
      (payload "order-1:x" pending) ∅.
Proof.
  split; [reflexivity|].
  apply (onMessage_truncates_order_id_at_colon socks_healthy ws_one "order-1" "x").
  reflexivity.
Defined.

(** ** From the worker to the client *)

Lemma worker_bus_channel env job w :
  exists evs,
    bus (snd (worker env job w)) = bus w ++ evs /\
    Forall (fun m => fst m = order_channel (orderId job)) evs.
Proof.
  run_worker.
  all: eexists; split; [solve_appended|].
  all: repeat (constructor; [reflexivity|]); constructor.
Qed.

Lemma published_by_appended w w' evs :
  bus w' = bus w ++ evs -> published_by w w' = evs.
Proof. intros H. unfold published_by. rewrite H. apply drop_app_length. Qed.

Lemma relay_all_cons {M} socks st ch (m : M) evs inbox :
  relay_all socks st ((ch, m) :: evs) inbox
  = relay_all socks st evs (onMessage socks st ch m inbox).
Proof. reflexivity. Qed.

Lemma relay_all_attached {M} socks st id set ws (evs : list (string * M)) :
  has_char ":" id = false ->
  subscribers st !! id = Some set -> ws ∈ set -> receives socks ws ->
  Forall (fun m => fst m = order_channel id) evs ->
  forall inbox,
    default [] (relay_all socks st evs inbox !! ws)
    = default [] (inbox !! ws) ++ map snd evs.
Proof.
  intros Hid Hs Hin Hrcv Hall. induction Hall as [|[ch m] evs Hch _ IH]; intros inbox.
  - cbn. now rewrite app_nil_r.
  - cbn in Hch. subst ch. rewrite relay_all_cons, IH.
    rewrite onMessage_lookup, Hs by exact Hid.
    destruct (decide (ws ∈ set)); [|contradiction].
    destruct Hrcv as [-> ->]. cbn. now rewrite <- app_assoc.
Qed.

Lemma relay_all_unattached {M} socks st id ws (evs : list (string * M)) :
  has_char ":" id = false ->
  (forall set, subscribers st !! id = Some set -> ws ∉ set) ->
  Forall (fun m => fst m = order_channel id) evs ->
  forall inbox, relay_all socks st evs inbox !! ws = inbox !! ws.
Proof.
  intros Hid Hnot Hall. induction Hall as [|[ch m] evs Hch _ IH]; intros inbox.
  - reflexivity.
  - cbn in Hch. subst ch. rewrite relay_all_cons, IH.
    rewrite onMessage_lookup by exact Hid.
    destruct (subscribers st !! id) as [set|] eqn:Hs; [|reflexivity].
    destruct (decide (ws ∈ set)) as [Hin|_]; [|reflexivity].
    now apply Hnot in Hin.
Qed.

(** X6. For an order id without colon, when Redis relays what one run of
    the worker published, a socket attached to that order that is open and
    accepts [send] receives every event of the run, once each and in the
    order of publication, and a socket that is not attached to that order
    receives none of them. *)
Theorem worker_events_reach_the_order_s_sockets
    (env : Env) (job : Job) (w : World) (socks : Sockets) (st : WsState)
    (inbox : gmap nat (list Payload)) (ws : nat) :
  has_char ":" (orderId job) = false ->
  (forall set,
      subscribers st !! orderId job = Some set -> ws ∈ set -> receives socks ws ->
      default []
        (relay_all socks st (published_by w (snd (worker env job w))) inbox !! ws)
      = default [] (inbox !! ws)
        ++ map snd (published_by w (snd (worker env job w)))) /\
  ((forall set, subscribers st !! orderId job = Some set -> ws ∉ set) ->
   relay_all socks st (published_by w (snd (worker env job w))) inbox !! ws
   = inbox !! ws).
Proof.
  intros Hid. destruct (worker_bus_channel env job w) as (evs & Hbus & Hch).
  rewrite (published_by_appended _ _ _ Hbus). split.
  - intros set Hs Hin Hrcv. now apply (relay_all_attached socks st (orderId job) set).
  - intros Hnot. now apply (relay_all_unattached socks st (orderId job)).
Qed.

Lemma worker_events_reach_the_order_s_sockets_witness :
  has_char ":" (orderId job1) = false /\
  (forall set,
      subscribers ws_one !! orderId job1 = Some set -> 3%nat ∈ set ->
      receives socks_healthy 3 ->
      default []
        (relay_all socks_healthy ws_one
           (published_by world_new (snd (worker env_live job1 world_new))) ∅ !! 3%nat)
      = default [] ((∅ : gmap nat (list Payload)) !! 3%nat)
        ++ map snd (published_by world_new (snd (worker env_live job1 world_new)))) /\
  ((forall set, subscribers ws_one !! orderId job1 = Some set -> 3%nat ∉ set) ->
   relay_all socks_healthy ws_one
     (published_by world_new (snd (worker env_live job1 world_new))) ∅ !! 3%nat
   = (∅ : gmap nat (list Payload)) !! 3%nat).
Proof.
  split; [reflexivity|].
  apply (worker_events_reach_the_order_s_sockets env_live job1 world_new
           socks_healthy ws_one ∅ 3%nat).
  reflexivity.
Defined.

(** ** Persistence: retry in general *)

Lemma retry_loop_first_success {S T} (fn : nat -> Prog S T) k :
  forall i n lastErr s e s1 a s2,
    (k < n)%nat ->
    all_throw fn i k lastErr s = Some (e, s1) ->
    fn (i + k)%nat s1 = (Ok a, s2) ->
    retry_loop fn i n lastErr s = (Ok a, s2).
Proof.
  induction k as [|k IH]; intros i n lastErr s e s1 a s2 Hlt Hall Hok.
  - cbn in Hall. injection Hall as <- <-. rewrite Nat.add_0_r in Hok.
    destruct n as [|n]; [lia|]. cbn. unfold try_catch. now rewrite Hok.
  - destruct n as [|n]; [lia|]. cbn in *. unfold try_catch.
    destruct (fn i s) as [[b|e'] s'] eqn:Hfn; [discriminate|].
    apply (IH (Datatypes.S i) n e' s' e s1 a s2); [lia|exact Hall|].
    now rewrite Nat.add_succ_comm.
Qed.

Lemma retry_loop_all_throw {S T} (fn : nat -> Prog S T) n :
  forall i lastErr s e s',
    all_throw fn i n lastErr s = Some (e, s') ->
    retry_loop fn i n lastErr s = (Throw e, s').
Proof.
  induction n as [|n IH]; intros i lastErr s e s' Hall.
  - cbn in *. now injection Hall as <- <-.
  - cbn in *. unfold try_catch.
    destruct (fn i s) as [[b|e'] s1] eqn:Hfn; [discriminate|]. now apply IH.
Qed.

(** X7. [retry(fn, attempts)] returns what the first attempt that succeeds
    returns and does not call [fn] again; when all [attempts] attempts throw
    it throws the error of the last one; with [attempts] 0 it throws
    [undefined] without calling [fn]. *)
Theorem retry_first_success_or_last_error
    {S T : Type} (fn : nat -> Prog S T) (n : nat) (s : S) :
  (forall k e s1 a s2,
      (k < n)%nat ->
      all_throw fn 0 k "undefined" s = Some (e, s1) ->
      fn k s1 = (Ok a, s2) ->
      retry fn n s = (Ok a, s2)) /\
  (forall e s',
      all_throw fn 0 n "undefined" s = Some (e, s') ->
      retry fn n s = (Throw e, s')) /\
  (n = 0%nat -> retry fn n s = (Throw "undefined", s)).
Proof.
  split; [|split].
  - intros k e s1 a s2 Hlt Hall Hok.
    now apply (retry_loop_first_success fn k 0 n "undefined" s e s1).
  - intros e s' Hall. now apply retry_loop_all_throw.
  - intros ->. reflexivity.
Qed.

(** ** Persistence: what the statements leave alone *)

Lemma alter_missing {A} (f : A -> A) (m : gmap string A) i :
  m !! i = None -> alter f i m = m.
Proof.
  intros H. apply map_eq. intros j. destruct (decide (j = i)) as [->|Hne].
  - now rewrite lookup_alter_eq, H.
  - now rewrite lookup_alter_ne by congruence.
Qed.

(** X8. [updateOrderStatus] and [setRoutingInfo] for an order id that has
    no row leave the table as it is, create no row, and still return
    normally when the query goes through: an unknown order is not an
    error. *)
Theorem update_of_unknown_order_is_silent
    (env : Env) (id : string) (st : Status) (opts : UpdateOpts)
    (rt : gmap string Json) (w : World) :
  db w !! id = None ->
  db (snd (updateOrderStatus env id st opts w)) = db w /\
  db (snd (setRoutingInfo env id rt w)) = db w /\
  (after_retries (update_query env st) = None ->
   fst (updateOrderStatus env id st opts w) = Ok tt) /\
  (after_retries (routing_query env) = None ->
   fst (setRoutingInfo env id rt w) = Ok tt).
Proof.
  intros Hnone. rewrite updateOrderStatus_run, setRoutingInfo_run.
  destruct (after_retries (update_query env st)),
           (after_retries (routing_query env)); cbn;
    rewrite ?alter_missing by exact Hnone; repeat split; congruence.
Qed.

Lemma update_of_unknown_order_is_silent_witness :
  db world_new !! "order-9" = None /\
  db (snd (updateOrderStatus env_live "order-9" failed no_opts world_new))
  = db world_new /\
  db (snd (setRoutingInfo env_live "order-9" chosen_raydium world_new)) = db world_new /\
  (after_retries (update_query env_live failed) = None ->
   fst (updateOrderStatus env_live "order-9" failed no_opts world_new) = Ok tt) /\
  (after_retries (routing_query env_live) = None ->
   fst (setRoutingInfo env_live "order-9" chosen_raydium world_new) = Ok tt).
Proof.
  split; [reflexivity|].
  apply (update_of_unknown_order_is_silent env_live "order-9" failed no_opts
           chosen_raydium world_new).
  reflexivity.
Defined.

Lemma table_kept_refl id tbl : table_kept id tbl tbl.
Proof.
  split; [reflexivity|]. split; [reflexivity|].
  intros row Hrow. exists row. repeat split; auto.
Qed.

Lemma table_kept_alter (f : OrderRow -> OrderRow) id tbl0 tbl :
  (forall r, same_order r (f r)) ->
  table_kept id tbl0 tbl -> table_kept id tbl0 (alter f id tbl).
Proof.
  intros Hf (Hdom & Hother & Hrow). split; [|split].
  - rewrite <- Hdom. apply dom_alter_L.
  - intros id' Hne. rewrite lookup_alter_ne by congruence. now apply Hother.
  - intros row Hr. destruct (Hrow row Hr) as (row' & Hr' & H1 & H2 & H3 & H4).
    exists (f row'). rewrite lookup_alter_eq, Hr'. split; [reflexivity|].
    destruct (Hf row') as (G1 & G2 & G3 & G4). repeat split; congruence.
Qed.

Lemma update_status_row_same_order st d e t p rt r :
  same_order r (update_status_row st d e t p rt r).
Proof. repeat split. Qed.

Lemma set_routing_row_same_order rt r : same_order r (set_routing_row rt r).
Proof. repeat split. Qed.

Ltac solve_table_kept :=
  world_fields;
  repeat (apply table_kept_alter;
          [first [apply update_status_row_same_order
                 |apply set_routing_row_same_order]|]);
  apply table_kept_refl.

(** X9. Whatever their outcome, [updateOrderStatus] and [setRoutingInfo]
    add and remove no row, change no row but that of the given id, and in
    that row leave [user_id], [token_in], [token_out] and [amount_in] as
    they were. *)
Theorem statements_keep_the_order
    (env : Env) (id : string) (st : Status) (opts : UpdateOpts)
    (rt : gmap string Json) (w : World) :
  table_kept id (db w) (db (snd (updateOrderStatus env id st opts w))) /\
  table_kept id (db w) (db (snd (setRoutingInfo env id rt w))).
Proof.
  rewrite updateOrderStatus_run, setRoutingInfo_run.
  destruct (after_retries (update_query env st)),
           (after_retries (routing_query env)); split; solve_table_kept.
Qed.

(** X10. Whatever happens during it, one run of the worker adds and
    removes no row, changes no row but that of its order, and in that row
    leaves [user_id], [token_in], [token_out] and [amount_in] as they were:
    the amount of an order is never rewritten. *)
Theorem worker_keeps_the_order (env : Env) (job : Job) (w : World) :
  table_kept (orderId job) (db w) (db (snd (worker env job w))).
Proof. run_worker; solve_table_kept. Qed.

(** X11. One run of the worker adds 0 or 1 to the [attempts] of its order,
    never more and never less (NULL counting as 0). *)
Theorem worker_adds_at_most_one_attempt
    (env : Env) (job : Job) (w : World) (row : OrderRow) :
  db w !! orderId job = Some row ->
  exists row',
    db (snd (worker env job w)) !! orderId job = Some row' /\
    (default 0 (attempts row') = default 0 (attempts row) \/
     default 0 (attempts row') = default 0 (attempts row) + 1).
Proof.
  intros Hrow. run_worker.
  all: solve_row Hrow; lia.
Qed.

Lemma worker_adds_at_most_one_attempt_witness :
  db world_failed_once !! orderId job1 = Some row_failed_once /\
  exists row',
    db (snd (worker env_execution_fails job1 world_failed_once)) !! orderId job1
    = Some row' /\
    (default 0 (attempts row') = default 0 (attempts row_failed_once) \/
     default 0 (attempts row') = default 0 (attempts row_failed_once) + 1).
Proof.
  split; [reflexivity|].
  apply (worker_adds_at_most_one_attempt env_execution_fails job1 world_failed_once
           row_failed_once).
  reflexivity.
Defined.

Lemma jsonb_concat_twice (old rt : gmap string Json) :
  jsonb_concat (jsonb_concat old rt) rt = jsonb_concat old rt.
Proof.
  apply map_eq. intros k. rewrite !jsonb_concat_lookup.
  destruct (rt !! k); reflexivity.
Qed.

Lemma update_status_row_twice st e t p rt r :
  update_status_row st 0 e t p rt (update_status_row st 0 e t p rt r)
  = update_status_row st 0 e t p rt r.
Proof.
  unfold update_status_row. cbn. f_equal.
  - f_equal. lia.
  - f_equal. apply jsonb_concat_twice.
Qed.

(** The table of [OrderRow]s is the table of Postgres without
    [updated_at]: a call whose query goes through runs the UPDATE once. *)
Lemma updateOrderStatus_columns env id st opts w now (tbl : gmap string Stamped) :
  after_retries (update_query env st) = None ->
  db w = columns <$> tbl ->
  db (snd (updateOrderStatus env id st opts w))
  = columns <$> update_status_at now id st opts tbl.
Proof.
  intros Hq Hdb. rewrite updateOrderStatus_run, Hq. cbn. rewrite Hdb.
  unfold update_status_at. apply map_eq. intros k.
  rewrite lookup_fmap. destruct (decide (k = id)) as [->|Hne].
  - rewrite !lookup_alter_eq, lookup_fmap. now destruct (tbl !! id).
  - now rewrite !lookup_alter_ne, lookup_fmap by congruence.
Qed.

Lemma setRoutingInfo_columns env id rt w now (tbl : gmap string Stamped) :
  after_retries (routing_query env) = None ->
  db w = columns <$> tbl ->
  db (snd (setRoutingInfo env id rt w)) = columns <$> set_routing_at now id rt tbl.
Proof.
  intros Hq Hdb. rewrite setRoutingInfo_run, Hq. cbn. rewrite Hdb.
  unfold set_routing_at. apply map_eq. intros k.
  rewrite lookup_fmap. destruct (decide (k = id)) as [->|Hne].
  - rewrite !lookup_alter_eq, lookup_fmap. now destruct (tbl !! id).
  - now rewrite !lookup_alter_ne, lookup_fmap by congruence.
Qed.

Lemma alter_absorbs {A} (f g : A -> A) (m : gmap string A) i :
  (forall x, g (f x) = g x) -> alter g i (alter f i m) = alter g i m.
Proof.
  intros Hf. apply map_eq. intros j. destruct (decide (j = i)) as [->|Hne].
  - rewrite !lookup_alter_eq. destruct (m !! i); cbn; [now rewrite Hf|reflexivity].
  - now rewrite !lookup_alter_ne by congruence.
Qed.

(** X12. A duplicated write changes nothing but [updated_at] when it adds
    nothing to [attempts]. The UPDATE of [updateOrderStatus] run at time
    [t1] and again, with the same arguments and delta 0 (or none), at time
    [t2] leaves the table as the one run at [t2] does: every column but
    [updated_at] is as after the first run, and [updated_at] is the time of
    the second. The same holds for the UPDATE of [setRoutingInfo] with the
    same routing. *)
Theorem duplicate_write_changes_only_updated_at
    (t1 t2 : Z) (id : string) (st : Status) (opts : UpdateOpts)
    (rt : gmap string Json) (tbl : gmap string Stamped) :
  default 0 (o_attemptsDelta opts) = 0 ->
  (update_status_at t2 id st opts (update_status_at t1 id st opts tbl)
   = update_status_at t2 id st opts tbl /\
   columns <$> update_status_at t2 id st opts (update_status_at t1 id st opts tbl)
   = columns <$> update_status_at t1 id st opts tbl /\
   forall r, update_status_at t2 id st opts (update_status_at t1 id st opts tbl) !! id
             = Some r -> updated_at r = t2) /\
  (set_routing_at t2 id rt (set_routing_at t1 id rt tbl) = set_routing_at t2 id rt tbl /\
   columns <$> set_routing_at t2 id rt (set_routing_at t1 id rt tbl)
   = columns <$> set_routing_at t1 id rt tbl /\
   forall r, set_routing_at t2 id rt (set_routing_at t1 id rt tbl) !! id = Some r ->
             updated_at r = t2).
Proof.
  intros Hd.
  assert (Hu : update_status_at t2 id st opts (update_status_at t1 id st opts tbl)
               = update_status_at t2 id st opts tbl).
  { unfold update_status_at. rewrite Hd. apply alter_absorbs. intros r. cbn.
    f_equal. apply update_status_row_twice. }
  assert (Hs : set_routing_at t2 id rt (set_routing_at t1 id rt tbl)
               = set_routing_at t2 id rt tbl).
  { unfold set_routing_at. apply alter_absorbs. intros r. reflexivity. }
  split; (split; [assumption|split]).
  - rewrite Hu. unfold update_status_at. apply map_eq. intros k.
    rewrite !lookup_fmap. destruct (decide (k = id)) as [->|Hne].
    + rewrite !lookup_alter_eq. now destruct (tbl !! id).
    + now rewrite !lookup_alter_ne by congruence.
  - rewrite Hu. unfold update_status_at. rewrite lookup_alter_eq.
    destruct (tbl !! id); cbn; [|discriminate]. now intros r [= <-].
  - rewrite Hs. unfold set_routing_at. apply map_eq. intros k.
    rewrite !lookup_fmap. destruct (decide (k = id)) as [->|Hne].
    + rewrite !lookup_alter_eq. now destruct (tbl !! id).
    + now rewrite !lookup_alter_ne by congruence.
  - rewrite Hs. unfold set_routing_at. rewrite lookup_alter_eq.
    destruct (tbl !! id); cbn; [|discriminate]. now intros r [= <-].
Qed.

Lemma duplicate_write_changes_only_updated_at_witness :
  update_status_at 30 "order-1" pending no_opts
    (update_status_at 20 "order-1" pending no_opts table_stamped) !! "order-1"
  = update_status_at 30 "order-1" pending no_opts table_stamped !! "order-1" /\
  (updated_at <$>
     update_status_at 30 "order-1" pending no_opts
       (update_status_at 20 "order-1" pending no_opts table_stamped) !! "order-1")
  = Some 30 /\
  (updated_at <$> update_status_at 20 "order-1" pending no_opts table_stamped !! "order-1")
  = Some 20.
Proof.
  destruct (duplicate_write_changes_only_updated_at 20 30 "order-1" pending no_opts
              chosen_raydium table_stamped eq_refl) as [[Hu _] _].
  split; [now rewrite Hu|]. split; reflexivity.
Defined.

(** The failure write is not of that kind: repeated, it counts twice. *)
Example duplicate_failure_write_counts_twice :
  attempts <$>
    (db (snd (updateOrderStatus env_live "order-1" failed
                {| o_attemptsDelta := Some 1; o_error := Some "e"; o_txHash := None;
                   o_executedPrice := None; o_routing := None |}
                (snd (updateOrderStatus env_live "order-1" failed
                        {| o_attemptsDelta := Some 1; o_error := Some "e";
                           o_txHash := None; o_executedPrice := None;
                           o_routing := None |} world_new)))) !! "order-1")
  = Some (Some 2).
Proof. vm_compute. reflexivity. Qed.

(** ** Persistence: insertOrder *)

(** X13. [insertOrder] for an id that has no row, when one of its four
    attempts gets through, adds exactly the row of that order, with status
    [pending], 0 attempts and no error, transaction, price or routing, and
    changes no other row. For an id that already has a row it throws and
    leaves the table as it is, whatever the connection does: an existing
    order is never overwritten. When the connection fails four times it
    throws the last error and inserts nothing. *)
Theorem insertOrder_adds_one_pending_row
    (outcome : nat -> option Err) (o : NewOrder) (tbl : gmap string OrderRow) :
  (tbl !! no_id o = None ->
   (exists k, (k < 4)%nat /\ outcome k = None) ->
   insertOrder outcome o tbl = (Ok tt, <[no_id o := inserted_row o]> tbl) /\
   snd (insertOrder outcome o tbl) !! no_id o = Some (inserted_row o) /\
   (forall id', id' <> no_id o ->
                snd (insertOrder outcome o tbl) !! id' = tbl !! id')) /\
  (is_Some (tbl !! no_id o) ->
   exists e, insertOrder outcome o tbl = (Throw e, tbl)) /\
  (forall e, outcome 0%nat <> None -> outcome 1%nat <> None ->
             outcome 2%nat <> None -> outcome 3%nat = Some e ->
             insertOrder outcome o tbl = (Throw e, tbl)).
Proof.
  unfold insertOrder, retry, retry_loop, try_catch, insert_query, throw.
  split; [|split].
  - intros Hnone (k & Hk & Hok).
    assert (Hrun : match outcome 0%nat with
                   | Some _ =>
                       match outcome 1%nat with
                       | Some _ =>
                           match outcome 2%nat with
                           | Some _ => match outcome 3%nat with
                                       | Some _ => False | None => True end
                           | None => True
                           end
                       | None => True
                       end
                   | None => True
                   end).
    { destruct k as [|[|[|[|k]]]]; [..|lia]; rewrite Hok;
        repeat match goal with |- context [outcome ?i] => destruct (outcome i) end;
        exact I. }
    destruct (outcome 0%nat), (outcome 1%nat), (outcome 2%nat), (outcome 3%nat);
      try contradiction; rewrite Hnone; cbn;
      (split; [reflexivity|split; [apply lookup_insert_eq|]]);
      intros id' Hne; now rewrite lookup_insert_ne by congruence.
  - intros [row Hrow].
    destruct (outcome 0%nat), (outcome 1%nat), (outcome 2%nat), (outcome 3%nat);
      rewrite ?Hrow; eauto.
  - intros e H0 H1 H2 H3.
    destruct (outcome 0%nat); [|contradiction].
    destruct (outcome 1%nat); [|contradiction].
    destruct (outcome 2%nat); [|contradiction].
    now rewrite H3.
Qed.

(** A new order next to an old one, and the same order a second time. *)
Example insertOrder_then_again :
  fst (insertOrder (fun _ => None) order_new (db world_new)) = Ok tt /\
  insertOrder (fun _ => None) order_new
    (snd (insertOrder (fun _ => None) order_new (db world_new)))
  = (Throw "error: duplicate key value violates unique constraint",
     snd (insertOrder (fun _ => None) order_new (db world_new))).
Proof. split; reflexivity. Qed.

(** ** The worker: what a run may and may not do *)

Lemma swap_calls_clean env params a :
  WrappedAccountCreated a ∈ swap_calls env params ->
  exists swaps closed,
    swap_calls env params
    = WrappedAccountCreated a :: swaps ++ [CloseAccountCalled a closed] /\
    Forall is_venue_swap swaps.
Proof.
  destruct (executeSwap_shape env params) as (r & calls & Hrun & Hclean & _).
  unfold swap_calls. rewrite Hrun. cbn. apply Hclean.
Qed.

(** X14. A run of the worker touches the chain only through the one call
    of [executeSwap] in its execution block: if it made any call on chain,
    then [pending] and [routing] were published and written, the routing
    info was stored, [building] and [submitted] were published, and the
    calls are those of [executeSwap] for the chosen quote; and if it
    created a wrapped-SOL account, closing that account is its last call
    on chain. *)
Theorem worker_swaps_only_after_submitted (env : Env) (job : Job) (w : World) :
  exists calls,
    chain (snd (worker env job w)) = chain w ++ calls /\
    (calls <> [] ->
     reaches_execution env /\
     publish_result env submitted = None /\
     exists quote,
       best_quote env (job_quote_params env job) = Ok quote /\
       calls = swap_calls env (job_swap_params env job quote)) /\
    (forall a,
        WrappedAccountCreated a ∈ calls ->
        exists swaps closed,
          calls = WrappedAccountCreated a :: swaps ++ [CloseAccountCalled a closed] /\
          Forall is_venue_swap swaps).
Proof.
  run_worker.
  all: eexists; split; [solve_appended|].
  all: split;
    [ intros Hcalls;
      first [ now contradiction Hcalls
            | split; [unfold reaches_execution; repeat split; assumption|];
              split; [reflexivity|]; eexists; split; reflexivity ]
    | intros acct Hacct;
      first [ now apply swap_calls_clean | now inversion Hacct ] ].
Qed.

Lemma chosen_only_merged (q : Quote) :
  jsonb_concat (jsonb_concat (routing_of_quote q) ∅) (chosen_only q)
  = routing_of_quote q.
Proof.
  apply map_eq. intros k. rewrite !jsonb_concat_lookup, lookup_empty.
  unfold chosen_only, routing_of_quote.
  destruct (decide (k = "chosen")) as [->|Hne].
  - now rewrite lookup_singleton_eq, lookup_insert_eq.
  - now rewrite lookup_singleton_ne by congruence.
Qed.

(** [Number] is exact on the integers up to [2 ^ 53]. *)
Lemma Number_of_BN_safe z : Z.abs z <= 2 ^ 53 -> Number_of_BN z = z.
Proof.
  intros Hz. unfold Number_of_BN.
  destruct (Z.eq_dec (Z.abs z) (2 ^ 53)) as [Heq|Hne].
  - destruct (Z.abs_eq_or_opp z) as [H|H]; rewrite H in Heq.
    + subst z. reflexivity.
    + assert (z = - 2 ^ 53) as -> by lia. reflexivity.
  - assert (Hlt : Z.abs z < 2 ^ 53) by lia.
    assert (Hbits : Z.log2 (Z.abs z) + 1 <= 53).
    { destruct (Z.eq_dec (Z.abs z) 0) as [->|H0]; [cbn; lia|].
      assert (Z.log2 (Z.abs z) < 53) by (apply Z.log2_lt_pow2; lia). lia. }
    destruct (Z.leb_spec (Z.log2 (Z.abs z) + 1) 53); [reflexivity|lia].
Qed.

(** X15. When a run of the worker returns, the record and the last event
    agree: the order's row has status [confirmed], no error, the
    transaction id that [executeSwap] returned, the number of attempts it
    had, and as [routing_info] exactly the chosen venue, the estimated
    output and the details of the quote; the last event published is
    [confirmed] with the same transaction id and the executed amount that
    [executeSwap] returned; and the executed amount of the row is that
    amount when it is at most [2 ^ 53] in absolute value, the range in
    which the [Number] made of it is exact (and NULL when there is none). *)
Theorem worker_success_record_matches_event
    (env : Env) (job : Job) (w : World) (row : OrderRow) :
  fst (worker env job w) = Ok tt ->
  db w !! orderId job = Some row ->
  exists row' quote res,
    best_quote env (job_quote_params env job) = Ok quote /\
    swap_outcome env (job_swap_params env job quote) = Ok res /\
    db (snd (worker env job w)) !! orderId job = Some row' /\
    status row' = confirmed /\
    error row' = None /\
    tx_hash row' = txId res /\
    (forall out, executedOutBn res = Some out -> Z.abs out <= 2 ^ 53 ->
                 executed_price row' = Some out) /\
    (executedOutBn res = None -> executed_price row' = None) /\
    attempts row' = Some (default 0 (attempts row)) /\
    routing_info row' = Some (routing_of_quote quote) /\
    last (published_by w (snd (worker env job w)))
    = Some (order_channel (orderId job),
            {| p_orderId := orderId job; p_status := confirmed; p_dex := None;
               p_txHash := txId res; p_executedOut := executedOutBn res;
               p_error := None |}).
Proof.
  intros Hok Hrow. revert Hok. run_worker; cbn [fst]; intros Hok; try discriminate Hok.
  eexists _, _, _. split; [reflexivity|]. split; [eassumption|].
  world_fields. rewrite !lookup_alter_eq, Hrow. cbn.
  split; [reflexivity|]. cbn.
  do 3 (split; [reflexivity|]).
  split; [intros out -> Hsafe; cbn; now rewrite Number_of_BN_safe|].
  split; [now intros ->|].
  split; [f_equal; lia|]. split; [f_equal; apply chosen_only_merged|].
  erewrite published_by_appended; [|solve_appended].
  rewrite !app_assoc. apply last_snoc.
Qed.

Lemma worker_success_record_matches_event_witness :
  fst (worker env_live job1 world_new) = Ok tt /\
  db world_new !! orderId job1 = Some row_new /\
  exists row' quote res,
    best_quote env_live (job_quote_params env_live job1) = Ok quote /\
    swap_outcome env_live (job_swap_params env_live job1 quote) = Ok res /\
    db (snd (worker env_live job1 world_new)) !! orderId job1 = Some row' /\
    status row' = confirmed /\
    error row' = None /\
    tx_hash row' = txId res /\
    (forall out, executedOutBn res = Some out -> Z.abs out <= 2 ^ 53 ->
                 executed_price row' = Some out) /\
    (executedOutBn res = None -> executed_price row' = None) /\
    attempts row' = Some (default 0 (attempts row_new)) /\
    routing_info row' = Some (routing_of_quote quote) /\
    last (published_by world_new (snd (worker env_live job1 world_new)))
    = Some (order_channel (orderId job1),
            {| p_orderId := orderId job1; p_status := confirmed; p_dex := None;
               p_txHash := txId res; p_executedOut := executedOutBn res;
               p_error := None |}).
Proof.
  split; [reflexivity|]. split; [reflexivity|].
  apply (worker_success_record_matches_event env_live job1 world_new row_new);
    reflexivity.
Defined.

(** Above [2 ^ 53] the record and the event part: in simulation mode an
    order of 9053371449131564 is announced as filled with
    9007199254740993 and recorded with 9007199254740992. *)
Example worker_record_rounds_large_amount :
  (p_executedOut <$>
     (snd <$> last (published_by world_new
                      (snd (worker (with_use_mock (Some "true") env_live) job_large
                              world_new)))))
  = Some (Some 9007199254740993) /\
  (executed_price <$>
     db (snd (worker (with_use_mock (Some "true") env_live) job_large world_new))
     !! "order-1")
  = Some (Some 9007199254740992).
Proof. split; vm_compute; reflexivity. Qed.

Lemma best_quote_synthetic env params :
  envUseMock env = true \/ collected env params = [] ->
  best_quote env params = Ok (mock_quote (qp_amountInBn params)).
Proof.
  intros Hcase. unfold best_quote. destruct (envUseMock env) eqn:Hm.
  - now rewrite getBestQuote_mock.
  - destruct Hcase as [?|Hnil]; [congruence|].
    rewrite getBestQuote_live by exact Hm. now rewrite Hnil.
Qed.

Lemma executeSwap_mock env params w :
  envUseMock env = true \/ sp_dex params = mock ->
  executeSwap env params w
  = (Ok {| txId := Some ("MOCK-" ++ date_now (exec env))%string;
           executedOutBn := Some (mock_out (sp_amountInBn params));
           res_dex := mock; simulated := true |}, w).
Proof.
  intros Hcase. unfold executeSwap.
  assert (Hcond : (envUseMock env || bool_decide (sp_dex params = mock))%bool = true).
  { destruct Hcase as [->|Hd]; [reflexivity|].
    rewrite (bool_decide_eq_true_2 _ Hd). apply orb_true_r. }
  now rewrite Hcond.
Qed.

(** X16. When the router's quote is the synthetic one (simulation mode, or
    live mode with no venue quote at all) and every publish and write
    succeeds, the run of the worker returns, publishes pending, routing,
    building, submitted, confirmed, makes no call on chain, and records the
    order as confirmed with a made-up transaction id [MOCK-...] and, when
    it is at most [2 ^ 53] in absolute value (where the [Number] made of it
    is exact), the synthetic amount as executed amount: an outage of every
    venue in live mode ends as a confirmed, simulated fill. *)
Theorem synthetic_quote_ends_in_simulated_fill
    (env : Env) (job : Job) (w : World) :
  envUseMock env = true \/ collected env (job_quote_params env job) = [] ->
  calls_succeed env ->
  fst (worker env job w) = Ok tt /\
  chain (snd (worker env job w)) = chain w /\
  statuses (published_by w (snd (worker env job w)))
  = [pending; routing; building; submitted; confirmed] /\
  (forall row,
      db w !! orderId job = Some row ->
      exists row',
        db (snd (worker env job w)) !! orderId job = Some row' /\
        status row' = confirmed /\
        tx_hash row' = Some ("MOCK-" ++ date_now (exec env))%string /\
        (Z.abs (mock_out (j_amount_in job)) <= 2 ^ 53 ->
         executed_price row' = Some (mock_out (j_amount_in job)))).
Proof.
  intros Hcase Hall.
  pose proof (best_quote_synthetic env (job_quote_params env job) Hcase) as Hq.
  assert (Hsw : forall w0,
             executeSwap env (job_swap_params env job
                                (mock_quote (qp_amountInBn (job_quote_params env job)))) w0
             = (Ok {| txId := Some ("MOCK-" ++ date_now (exec env))%string;
                      executedOutBn := Some (mock_out (j_amount_in job));
                      res_dex := mock; simulated := true |}, w0)).
  { intros w0. apply executeSwap_mock. now right. }
  unfold worker, reassert_pending, execution_block, execution_failed.
  unfold bind, try_catch, ret, throw. cbv beta zeta.
  destruct Hall as (Hp & Hu & Hr & Hw).
  rewrite !publishOrderUpdate_run. cbn [p_status payload]. rewrite Hp. cbv beta iota.
  rewrite updateOrderStatus_run, Hu, Hw. cbv beta iota.
  rewrite publishOrderUpdate_run. cbn [p_status payload]. rewrite Hp. cbv beta iota.
  rewrite getBestQuote_run, Hq. cbv beta iota.
  rewrite setRoutingInfo_run, Hr. cbv beta iota.
  rewrite publishOrderUpdate_run. cbn [p_status payload]. rewrite Hp. cbv beta iota.
  rewrite updateOrderStatus_run, Hu. cbv beta iota.
  rewrite publishOrderUpdate_run. cbn [p_status payload]. rewrite Hp. cbv beta iota.
  rewrite Hsw. cbv beta iota.
  rewrite publishOrderUpdate_run. cbn [p_status payload]. rewrite Hp. cbv beta iota.
  rewrite updateOrderStatus_run, Hu. cbv beta iota.
  split; [reflexivity|]. split; [reflexivity|]. split.
  - erewrite published_by_appended; [|solve_appended]. reflexivity.
  - intros row Hrow. solve_row Hrow. split; [reflexivity|]. split; [reflexivity|].
    intros Hsafe. cbn. now rewrite Number_of_BN_safe.
Qed.

Lemma synthetic_quote_ends_in_simulated_fill_witness :
  (envUseMock env_venues_down = true \/
   collected env_venues_down (job_quote_params env_venues_down job1) = []) /\
  calls_succeed env_venues_down /\
  fst (worker env_venues_down job1 world_new) = Ok tt /\
  chain (snd (worker env_venues_down job1 world_new)) = chain world_new /\
  statuses (published_by world_new (snd (worker env_venues_down job1 world_new)))
  = [pending; routing; building; submitted; confirmed] /\
  (forall row,
      db world_new !! orderId job1 = Some row ->
      exists row',
        db (snd (worker env_venues_down job1 world_new)) !! orderId job1 = Some row' /\
        status row' = confirmed /\
        tx_hash row' = Some ("MOCK-" ++ date_now (exec env_venues_down))%string /\
        (Z.abs (mock_out (j_amount_in job1)) <= 2 ^ 53 ->
         executed_price row' = Some (mock_out (j_amount_in job1)))).
Proof.
  assert (H1 : envUseMock env_venues_down = true \/
               collected env_venues_down (job_quote_params env_venues_down job1) = [])
    by (right; reflexivity).
  assert (H2 : calls_succeed env_venues_down) by (repeat split).
  split; [exact H1|]. split; [exact H2|].
  apply (synthetic_quote_ends_in_simulated_fill env_venues_down job1 world_new H1 H2).
Defined.

(** ** The WebSocket token *)

Lemma split_char_append sep a b :
  split_char sep (a ++ String sep b) = split_char sep a ++ split_char sep b.
Proof.
  induction a as [|c a IH].
  - change (split_char sep (String sep b) = [EmptyString] ++ split_char sep b).
    cbn. now rewrite Ascii.eqb_refl.
  - change (split_char sep (String c (a ++ String sep b)%string)
            = split_char sep (String c a) ++ split_char sep b).
    cbn. rewrite IH. destruct (Ascii.eqb c sep); [reflexivity|].
    destruct (split_char_cons sep a) as (p & ps & ->). reflexivity.
Qed.

Lemma truthy_append a c b : truthy (Some (a ++ String c b)%string) = true.
Proof. destruct a; reflexivity. Qed.

Section TokenFacts.
Variable hmac : string -> string -> string.
Variable secret : option string.

Lemma verifyWsToken_created id :
  has_char ":" id = false ->
  has_char ":" (hmac (ws_secret secret) id) = false ->
  verifyWsToken hmac secret (Some (createWsToken hmac secret id)) = Some id.
Proof.
  intros Hid Hsig. unfold verifyWsToken, createWsToken.
  rewrite truthy_append. cbn [negb from_option Datatypes.id].
  rewrite split_char_app by exact Hid. rewrite (split_char_no_sep _ _ Hsig).
  cbn. now rewrite String.eqb_refl.
Qed.

Lemma verifyWsToken_sound token id :
  verifyWsToken hmac secret (Some token) = Some id ->
  token = createWsToken hmac secret id.
Proof.
  unfold verifyWsToken, createWsToken.
  destruct (negb (truthy (Some token))); [discriminate|]. cbn [from_option Datatypes.id].
  destruct (split_char ":" token) as [|a [|b [|c l]]] eqn:Hsplit; try discriminate.
  destruct (String.eqb_spec (hmac (ws_secret secret) a) b) as [Heq|]; [|discriminate].
  intros [= <-]. rewrite Heq. now apply split_char_two.
Qed.
End TokenFacts.

(** X17. With a digest that holds no colon (a hex digest),
    [verifyWsToken (createWsToken id)] gives back [id] exactly when [id]
    holds no colon; a token issued for an id with a colon in it is never
    accepted. *)
Theorem token_round_trip
    (hmac : string -> string -> string) (secret : option string) (id : string) :
  (forall key message, has_char ":" (hmac key message) = false) ->
  (verifyWsToken hmac secret (Some (createWsToken hmac secret id)) = Some id
   <-> has_char ":" id = false) /\
  (has_char ":" id = true ->
   verifyWsToken hmac secret (Some (createWsToken hmac secret id)) = None).
Proof.
  intros Hhex.
  assert (Hbad : has_char ":" id = true ->
                 verifyWsToken hmac secret (Some (createWsToken hmac secret id)) = None).
  { intros Hid. unfold verifyWsToken, createWsToken.
    rewrite truthy_append. cbn [negb from_option Datatypes.id]. rewrite split_char_append.
    destruct (split_char_has_sep ":" id Hid) as (p & q & qs & -> & _).
    rewrite (split_char_no_sep _ _ (Hhex _ _)). destruct qs; reflexivity. }
  split; [|exact Hbad]. split.
  - intros Hok. destruct (has_char ":" id) eqn:Hid; [|reflexivity].
    rewrite (Hbad eq_refl) in Hok. discriminate Hok.
  - intros Hid. apply verifyWsToken_created; [exact Hid|apply Hhex].
Qed.

Lemma hmac_standin_hex key message : has_char ":" (hmac_standin key message) = false.
Proof. unfold hmac_standin. destruct (String.eqb message "order-1"); reflexivity. Qed.

Lemma token_round_trip_witness :
  (forall key message, has_char ":" (hmac_standin key message) = false) /\
  (verifyWsToken hmac_standin None (Some (createWsToken hmac_standin None "order-1"))
   = Some "order-1"
   <-> has_char ":" "order-1" = false) /\
  (has_char ":" "order-1" = true ->
   verifyWsToken hmac_standin None (Some (createWsToken hmac_standin None "order-1"))
   = None).
Proof.
  split; [exact hmac_standin_hex|].
  apply (token_round_trip hmac_standin None "order-1" hmac_standin_hex).
Defined.

(** X18. [verifyWsToken] accepts nothing but what [createWsToken] issues:
    if it returns an order id for a token, the token is exactly
    [createWsToken] of that id, the id followed by a colon and the digest of
    the id under the secret. *)
Theorem token_accepted_only_if_issued
    (hmac : string -> string -> string) (secret : option string)
    (token id : string) :
  verifyWsToken hmac secret (Some token) = Some id ->
  token = createWsToken hmac secret id /\
  has_char ":" id = false.
Proof.
  intros Hv. split; [now apply verifyWsToken_sound|].
  unfold verifyWsToken in Hv.
  destruct (negb (truthy (Some token))); [discriminate|]. cbn [from_option Datatypes.id] in Hv.
  destruct (has_char ":" id) eqn:Hid; [|reflexivity]. exfalso.
  destruct (split_char ":" token) as [|a [|b [|c l]]] eqn:Hsplit; try discriminate.
  destruct (String.eqb (hmac (ws_secret secret) a) b); [|discriminate].
  injection Hv as ->.
  assert (Hfirst : has_char ":" id = false).
  { destruct (has_char ":" token) eqn:Ht.
    - destruct (split_char_has_sep ":" token Ht) as (p & q & qs & Hs & Hp).
      rewrite Hsplit in Hs. now injection Hs as -> _ _.
    - rewrite (split_char_no_sep _ _ Ht) in Hsplit. discriminate Hsplit. }
  congruence.
Qed.

Lemma token_accepted_only_if_issued_witness :
  verifyWsToken hmac_standin None (Some "order-1:5f3a9c") = Some "order-1" /\
  "order-1:5f3a9c" = createWsToken hmac_standin None "order-1" /\
  has_char ":" "order-1" = false.
Proof.
  split; [reflexivity|].
  apply (token_accepted_only_if_issued hmac_standin None "order-1:5f3a9c" "order-1").
  reflexivity.
Defined.

(** ** The socket handlers *)

Section GatewayFacts.
Variable hmac : string -> string -> string.
Variable secret : option string.

Lemma truthy_Some_nonempty s : truthy (Some s) = true -> s <> EmptyString.
Proof. cbn. intros H ->. discriminate H. Qed.

Lemma nonempty_truthy s : s <> EmptyString -> truthy (Some s) = true.
Proof. intros H. cbn. destruct (String.eqb_spec s ""); [contradiction|reflexivity]. Qed.

Lemma onSocketMessage_auth ws id c st :
  id <> EmptyString ->
  has_char ":" id = false ->
  has_char ":" (hmac (ws_secret secret) id) = false ->
  onSocketMessage hmac secret ws (auth_message hmac secret id) c st
  = (send_reply (ReplySubscribed id) (set_authed id c), subscribeSocket id ws st).
Proof.
  intros Hne Hid Hsig. unfold onSocketMessage, auth_message, handle_data, verify_any.
  cbn [d_action d_token is_string]. rewrite String.eqb_refl. cbn [andb js_truthy].
  assert (Htok : String.eqb (createWsToken hmac secret id) "" = false).
  { unfold createWsToken. destruct id; reflexivity. }
  rewrite Htok. cbn [negb].
  rewrite (verifyWsToken_created hmac secret id Hid Hsig).
  rewrite (nonempty_truthy id Hne). reflexivity.
Qed.
End GatewayFacts.

(** X20. A connection that authenticates for one order and then closes
    leaves the registry as it found it: when the order had no entry, it has
    none afterwards, every other entry is as before, and the commands
    issued are a [SUBSCRIBE] followed by an [UNSUBSCRIBE] of the order's
    channel. *)
Theorem session_for_one_order_cleans_up
    (hmac : string -> string -> string) (secret : option string)
    (ws : nat) (id : string) (st : WsState) :
  id <> EmptyString ->
  has_char ":" id = false ->
  has_char ":" (hmac (ws_secret secret) id) = false ->
  subscribers st !! id = None ->
  forall c1 st1,
    onSocketMessage hmac secret ws (auth_message hmac secret id) conn_new st = (c1, st1) ->
    subscribers (onClose ws c1 st1) = subscribers st /\
    sub_commands (onClose ws c1 st1)
    = sub_commands st ++ [SUBSCRIBE (order_channel id); UNSUBSCRIBE (order_channel id)].
Proof.
  intros Hne Hid Hsig Hnone c1 st1.
  rewrite (onSocketMessage_auth hmac secret ws id conn_new st Hne Hid Hsig).
  intros [= <- <-]. unfold onClose. cbn [authedOrderId set_authed send_reply].
  rewrite (nonempty_truthy id Hne). cbn [from_option Datatypes.id].
  rewrite (unsubscribeSocket_last id ws (subscribeSocket id ws st)
             (default ∅ (subscribers st !! id) ∪ {[ws]})).
  - cbn. split.
    + apply map_eq. intros k. destruct (decide (k = id)) as [->|Hk].
      * now rewrite lookup_delete_eq, Hnone.
      * rewrite lookup_delete_ne by congruence. now apply subscribeSocket_others.
    + rewrite subscribeSocket_commands, Hnone. now rewrite <- app_assoc.
  - apply subscribeSocket_entry.
  - rewrite Hnone. cbn. rewrite union_empty_l_L. apply difference_diag_L.
Qed.

Lemma session_for_one_order_cleans_up_witness :
  "order-1" <> EmptyString /\
  has_char ":" "order-1" = false /\
  has_char ":" (hmac_standin (ws_secret None) "order-1") = false /\
  subscribers ws_fresh !! "order-1" = None /\
  forall c1 st1,
    onSocketMessage hmac_standin None 7 (auth_message hmac_standin None "order-1")
      conn_new ws_fresh = (c1, st1) ->
    subscribers (onClose 7 c1 st1) = subscribers ws_fresh /\
    sub_commands (onClose 7 c1 st1)
    = sub_commands ws_fresh
      ++ [SUBSCRIBE (order_channel "order-1"); UNSUBSCRIBE (order_channel "order-1")].
Proof.
  split; [discriminate|]. split; [reflexivity|]. split; [reflexivity|].
  split; [reflexivity|].
  apply (session_for_one_order_cleans_up hmac_standin None 7%nat "order-1" ws_fresh);
    [discriminate|reflexivity|reflexivity|reflexivity].
Defined.

(** ** The socket handlers, one step at a time *)

Lemma subscribeSocket_again orderId ws st :
  subscribeSocket orderId ws (subscribeSocket orderId ws st)
  = subscribeSocket orderId ws st.
Proof.
  unfold subscribeSocket at 1. rewrite subscribeSocket_entry. cbn.
  destruct (subscribeSocket orderId ws st) as [subs cmds] eqn:Hst. cbn. f_equal.
  assert (Hsubs : subs !! orderId = Some (default ∅ (subscribers st !! orderId) ∪ {[ws]})).
  { change subs with (subscribers {| subscribers := subs; sub_commands := cmds |}).
    rewrite <- Hst. apply subscribeSocket_entry. }
  apply map_eq. intros k. destruct (decide (k = orderId)) as [->|Hk].
  - rewrite lookup_insert_eq, Hsubs. f_equal.
    apply set_eq. intros x. rewrite !elem_of_union. tauto.
  - now rewrite lookup_insert_ne by congruence.
Qed.

Lemma subscribeSocket_member id ws st id' set' :
  subscribers (subscribeSocket id ws st) !! id' = Some set' ->
  id' = id \/ subscribers st !! id' = Some set'.
Proof.
  destruct (decide (id' = id)) as [->|Hne]; [now left|].
  rewrite subscribeSocket_others by exact Hne. now right.
Qed.

Lemma unsubscribeSocket_member id ws st id' set' :
  subscribers (unsubscribeSocket id ws st) !! id' = Some set' ->
  ws ∈ set' ->
  subscribers st !! id' = Some set'.
Proof.
  destruct (decide (id' = id)) as [->|Hne].
  - rewrite unsubscribeSocket_entry. destruct (subscribers st !! id) as [set|]; [|discriminate].
    destruct (decide (set ∖ {[ws]} = ∅)); [discriminate|].
    intros [= <-] Hin. apply elem_of_difference in Hin as [_ Hn].
    exfalso. apply Hn. now apply elem_of_singleton.
  - now rewrite unsubscribeSocket_others by exact Hne.
Qed.

Section StepFacts.
Variable hmac : string -> string -> string.
Variable secret : option string.

(** What a message does before its [await]: it leaves the connection's
    order alone and nothing to resume, or it carried the token issued for
    the order it now names and leaves a subscription to resume. *)
Lemma message_until_await_cases data c r :
  message_until_await hmac secret data c = Ok r ->
  (authedOrderId (fst r) = authedOrderId c /\ snd r = None) \/
  (exists id,
      d_token data = Some (JStr (createWsToken hmac secret id)) /\
      id <> EmptyString /\
      r = (set_authed id c, Some ThenSubscribe)).
Proof.
  unfold message_until_await, verify_any.
  destruct (is_string "auth" (d_action data) && js_truthy (d_token data))%bool eqn:Hauth.
  - apply andb_true_iff in Hauth as [Ha Ht]. rewrite Ht. cbn [negb].
    destruct (d_token data) as [[| | |tok| |]|] eqn:Htok; try discriminate.
    destruct (verifyWsToken hmac secret (Some tok)) as [id|] eqn:Hv.
    + destruct (truthy (Some id)) eqn:Hid; cbn [negb from_option Datatypes.id].
      * intros [= <-]. right. exists id. split; [|split].
        -- f_equal. f_equal. now apply verifyWsToken_sound.
        -- now apply truthy_Some_nonempty.
        -- reflexivity.
      * intros [= <-]. left. split; reflexivity.
    + cbn. intros [= <-]. left. split; reflexivity.
  - destruct (is_string "subscribe" (d_action data) && js_truthy (d_orderId data)
              && js_truthy (d_token data))%bool eqn:Hsub.
    + apply andb_true_iff in Hsub as [Hsub Ht]. rewrite Ht. cbn [negb].
      destruct (d_token data) as [[| | |tok| |]|] eqn:Htok; try discriminate.
      destruct (verifyWsToken hmac secret (Some tok)) as [id|] eqn:Hv.
      * destruct (truthy (Some id)) eqn:Hid; cbn [negb orb from_option Datatypes.id].
        -- destruct (is_string id (d_orderId data)) eqn:Hsame; cbn [negb].
           ++ intros [= <-]. right. exists id. split; [|split].
              ** f_equal. f_equal. now apply verifyWsToken_sound.
              ** now apply truthy_Some_nonempty.
              ** reflexivity.
           ++ intros [= <-]. left. split; reflexivity.
        -- intros [= <-]. left. split; reflexivity.
      * cbn. intros [= <-]. left. split; reflexivity.
    + destruct (is_string "ping" (d_action data)); intros [= <-]; left; split; reflexivity.
Qed.

Lemma message_until_await_auth id c :
  id <> EmptyString ->
  has_char ":" id = false ->
  has_char ":" (hmac (ws_secret secret) id) = false ->
  forall data, auth_message hmac secret id = Some data ->
  message_until_await hmac secret data c = Ok (set_authed id c, Some ThenSubscribe).
Proof.
  intros Hne Hid Hsig data [= <-]. unfold message_until_await, verify_any.
  cbn [d_action d_token is_string]. rewrite String.eqb_refl. cbn [andb js_truthy].
  assert (Htok : String.eqb (createWsToken hmac secret id) "" = false).
  { unfold createWsToken. destruct id; reflexivity. }
  rewrite Htok. cbn [negb].
  rewrite (verifyWsToken_created hmac secret id Hid Hsig).
  rewrite (nonempty_truthy id Hne). reflexivity.
Qed.

(** A message whose continuation resumes before anything else happens is
    the handler run in one go. *)
Lemma message_then_resume ws msg s :
  waiting s = [] ->
  session_step hmac secret ws (session_step hmac secret ws s (Received msg)) (Resumed 0)
  = {| conn := fst (onSocketMessage hmac secret ws msg (conn s) (registry s));
       waiting := [];
       registry := snd (onSocketMessage hmac secret ws msg (conn s) (registry s)) |}.
Proof.
  intros Hw. destruct s as [c wt st]. cbn in Hw. subst wt.
  destruct msg as [data|]; [|reflexivity].
  unfold onSocketMessage, handle_data, message_until_await.
  cbn [session_step conn waiting registry].
  unfold message_until_await.
  destruct (is_string "auth" (d_action data) && js_truthy (d_token data))%bool.
  - destruct (verify_any hmac secret (d_token data)) as [id|e]; [|reflexivity].
    destruct (negb (truthy id)); reflexivity.
  - destruct (is_string "subscribe" (d_action data) && js_truthy (d_orderId data)
              && js_truthy (d_token data))%bool.
    + destruct (verify_any hmac secret (d_token data)) as [id|e]; [|reflexivity].
      destruct (negb (truthy id) || negb (is_string (default "" id) (d_orderId data)))%bool;
        reflexivity.
    + destruct (is_string "ping" (d_action data)); reflexivity.
Qed.

Lemma step_auth ws id s :
  id <> EmptyString ->
  has_char ":" id = false ->
  has_char ":" (hmac (ws_secret secret) id) = false ->
  session_step hmac secret ws s (Received (auth_message hmac secret id))
  = {| conn := set_authed id (conn s); waiting := waiting s ++ [ThenSubscribe];
       registry := registry s |}.
Proof.
  intros Hne Hid Hsig. unfold auth_message. cbn [session_step].
  now rewrite (message_until_await_auth id (conn s) Hne Hid Hsig _ eq_refl).
Qed.

Lemma step_resume_subscribe ws id c rest st :
  authedOrderId c = Some id ->
  session_step hmac secret ws
    {| conn := c; waiting := ThenSubscribe :: rest; registry := st |} (Resumed 0)
  = {| conn := send_reply (ReplySubscribed id) c; waiting := rest;
       registry := subscribeSocket id ws st |}.
Proof. intros Hid. cbn. unfold resume. cbn. now rewrite Hid. Qed.

Lemma step_resume_unsubscribe ws id c rest st :
  authedOrderId c = Some id ->
  session_step hmac secret ws
    {| conn := c; waiting := ThenUnsubscribe :: rest; registry := st |} (Resumed 0)
  = {| conn := c; waiting := rest; registry := unsubscribeSocket id ws st |}.
Proof. intros Hid. cbn. unfold resume. cbn. now rewrite Hid. Qed.

Lemma step_closed ws id c wt st :
  authedOrderId c = Some id -> id <> EmptyString ->
  session_step hmac secret ws {| conn := c; waiting := wt; registry := st |} Closed
  = {| conn := c; waiting := wt ++ [ThenUnsubscribe]; registry := st |}.
Proof. intros Hid Hne. cbn. now rewrite Hid, (nonempty_truthy id Hne). Qed.

Lemma token_presented_more evs ev id :
  token_presented hmac secret evs id -> token_presented hmac secret (evs ++ [ev]) id.
Proof.
  intros (Hne & [H|(data & H & Ht)]); (split; [exact Hne|]).
  - left. apply elem_of_app. now left.
  - right. exists data. split; [|exact Ht]. apply elem_of_app. now left.
Qed.

(** What holds of a connection whatever happens to it, in whatever order:
    the order it names is one whose token it presented, a continuation
    waits only when it names an order, and its socket is in no set it was
    not in from the start but those of orders whose token it presented. *)
Lemma session_invariant ws st0 evs :
  (forall id, authedOrderId (conn (session_run hmac secret ws evs (session_new st0)))
              = Some id ->
              token_presented hmac secret evs id) /\
  (waiting (session_run hmac secret ws evs (session_new st0)) <> [] ->
   is_Some (authedOrderId (conn (session_run hmac secret ws evs (session_new st0))))) /\
  (forall id set,
      subscribers (registry (session_run hmac secret ws evs (session_new st0))) !! id
      = Some set ->
      ws ∈ set ->
      (exists set0, subscribers st0 !! id = Some set0 /\ ws ∈ set0) \/
      token_presented hmac secret evs id).
Proof.
  induction evs as [|ev evs IH] using rev_ind.
  - cbn. split; [discriminate|]. split; [congruence|]. intros id set Hs Hin. left. eauto.
  - unfold session_run in *. rewrite foldl_snoc.
    set (s := foldl (session_step hmac secret ws) (session_new st0) evs) in *.
    destruct IH as (I1 & I3 & I2).
    assert (I2' : forall id set,
               subscribers (registry s) !! id = Some set -> ws ∈ set ->
               (exists set0, subscribers st0 !! id = Some set0 /\ ws ∈ set0) \/
               token_presented hmac secret (evs ++ [ev]) id).
    { intros id set Hs Hin. destruct (I2 id set Hs Hin) as [H|H]; [now left|].
      right. now apply token_presented_more. }
    assert (I1' : forall id, authedOrderId (conn s) = Some id ->
                             token_presented hmac secret (evs ++ [ev]) id).
    { intros id H. apply token_presented_more. now apply I1. }
    destruct ev as [token|msg|i|]; cbn [session_step].
    + (* the token of the URL *)
      destruct (truthy token) eqn:Ht; [|now split; [|split]].
      destruct token as [tok|]; [|discriminate Ht].
      destruct (verifyWsToken hmac secret (Some tok)) as [id|] eqn:Hv;
        [|now split; [|split]].
      destruct (truthy (Some id)) eqn:Hid; [|now split; [|split]].
      cbn [conn waiting registry authedOrderId set_authed from_option Datatypes.id].
      split; [|split; [eauto|exact I2']].
      intros id' [= <-]. split; [now apply truthy_Some_nonempty|].
      left. apply elem_of_app. right. apply list_elem_of_singleton.
      do 2 f_equal. symmetry. now apply verifyWsToken_sound.
    + (* a message *)
      destruct msg as [data|]; [|now split; [|split]].
      destruct (message_until_await hmac secret data (conn s)) as [[c k]|e] eqn:Hm.
      * cbn [conn waiting registry].
        destruct (message_until_await_cases data (conn s) (c, k) Hm)
          as [[Hsame Hk]|(id & Htok & Hne & Hr)].
        -- cbn [fst snd] in Hsame, Hk. subst k. rewrite Hsame.
           cbn [option_list]. rewrite app_nil_r. now split; [|split].
        -- injection Hr as -> ->. cbn [authedOrderId set_authed].
           split; [|split; [eauto|exact I2']].
           intros id' [= <-]. split; [exact Hne|]. right. exists data.
           split; [|exact Htok]. apply elem_of_app. right.
           now apply list_elem_of_singleton.
      * cbn [conn waiting registry authedOrderId send_reply]. now split; [|split].
    + (* a continuation resumes *)
      destruct (waiting s !! i) as [k|] eqn:Hk; [|now split; [|split]].
      assert (Hwait : waiting s <> []) by (intros Hnil; now rewrite Hnil in Hk).
      destruct (I3 Hwait) as [id Hid].
      destruct k; unfold resume; cbn [conn waiting registry authedOrderId send_reply];
        rewrite Hid; cbn [from_option Datatypes.id].
      * split; [intros id' [= <-]; now apply I1'|]. split; [eauto|].
        intros id' set Hs Hin.
        destruct (subscribeSocket_member id ws (registry s) id' set Hs) as [->|Hold].
        -- right. now apply I1'.
        -- now apply (I2' id' set).
      * split; [intros id' [= <-]; now apply I1'|]. split; [eauto|].
        intros id' set Hs Hin. apply (I2' id' set); [|exact Hin].
        now apply (unsubscribeSocket_member id ws).
    + (* the socket closes *)
      destruct (truthy (authedOrderId (conn s))) eqn:Ht; [|now split; [|split]].
      cbn [conn waiting registry]. split; [exact I1'|]. split; [|exact I2'].
      intros _. destruct (authedOrderId (conn s)); [eauto|discriminate Ht].
Qed.
End StepFacts.

(** X19. A socket is attached only to orders whose token its connection
    presented. Whatever the connection is sent and whenever its handlers
    resume after their [await], in whatever order, the socket is in the
    set of an order only if it was there before the connection opened or
    the connection presented, in its URL or in a message, exactly the
    token that [createWsToken] issues for that order, and the order is not
    the empty string; and the order the connection names is always such an
    order. *)
Theorem socket_attached_only_to_orders_it_proved
    (hmac : string -> string -> string) (secret : option string)
    (ws : nat) (st0 : WsState) (evs : list WsEvent) :
  (forall id set,
      subscribers (registry (session_run hmac secret ws evs (session_new st0))) !! id
      = Some set ->
      ws ∈ set ->
      (exists set0, subscribers st0 !! id = Some set0 /\ ws ∈ set0) \/
      token_presented hmac secret evs id) /\
  (forall id,
      authedOrderId (conn (session_run hmac secret ws evs (session_new st0))) = Some id ->
      token_presented hmac secret evs id).
Proof.
  destruct (session_invariant hmac secret ws st0 evs) as (I1 & _ & I2).
  split; assumption.
Qed.

(** A token that is not a string is answered with [invalid_message], a
    ping with a pong, and a token that does not verify with
    [invalid_token] and a call of [close]; none of them leaves anything to
    resume. *)
Example session_step_odd_token_ping_and_bad_token :
  session_step hmac_standin None 7 (session_new ws_one)
    (Received (Some {| d_action := Some (JStr "auth"); d_token := Some (JNum 5);
                       d_orderId := None |}))
  = {| conn := send_reply (ReplyError "invalid_message") conn_new; waiting := [];
       registry := ws_one |} /\
  session_step hmac_standin None 7 (session_new ws_one)
    (Received (Some {| d_action := Some (JStr "ping"); d_token := None;
                       d_orderId := None |}))
  = {| conn := send_reply ReplyPong conn_new; waiting := []; registry := ws_one |} /\
  session_step hmac_standin None 7 (session_new ws_one)
    (Received (Some {| d_action := Some (JStr "auth");
                       d_token := Some (JStr "order-1:0000"); d_orderId := None |}))
  = {| conn := call_close (send_reply (ReplyError "invalid_token") conn_new);
       waiting := []; registry := ws_one |}.
Proof. split; [reflexivity|]. split; reflexivity. Qed.

(** X21. What two authentications leave behind depends on when the second
    message arrives. The close handler unsubscribes the one order that the
    connection names when it resumes. When each handler is done before the
    next event, a connection that authenticates for [a], then for another
    order [b], and closes stays attached to [a]: its socket is in the set
    of [a] and the channel of [a] is listened on, while the entry of [b] is
    gone. When the second message arrives before the [import] of the first
    has resolved, both continuations subscribe to [b]: the socket is never
    attached to [a], the client is told twice that it is subscribed to
    [b], and after the close the registry is as it was. *)
Theorem session_for_two_orders_depends_on_arrival
    (hmac : string -> string -> string) (secret : option string)
    (ws : nat) (a b : string) (st : WsState) :
  a <> EmptyString -> b <> EmptyString -> a <> b ->
  has_char ":" a = false -> has_char ":" b = false ->
  has_char ":" (hmac (ws_secret secret) a) = false ->
  has_char ":" (hmac (ws_secret secret) b) = false ->
  ws_consistent st ->
  subscribers st !! a = None -> subscribers st !! b = None ->
  (forall s, s = session_run hmac secret ws (one_at_a_time hmac secret a b) (session_new st) ->
     subscribers (registry s) !! a = Some {[ws]} /\
     subscribers (registry s) !! b = None /\
     order_channel a ∈ subscribed_channels (sub_commands (registry s)) /\
     replies (conn s) = [ReplySubscribed a; ReplySubscribed b]) /\
  (forall s, s = session_run hmac secret ws (back_to_back hmac secret a b) (session_new st) ->
     subscribers (registry s) = subscribers st /\
     sub_commands (registry s)
     = sub_commands st ++ [SUBSCRIBE (order_channel b); UNSUBSCRIBE (order_channel b)] /\
     replies (conn s) = [ReplySubscribed b; ReplySubscribed b]).
Proof.
  intros Ha Hb Hab Hca Hcb Hsa Hsb Hst Hna Hnb.
  split; intros s ->.
  - unfold session_run, one_at_a_time, session_new. cbn [foldl].
    rewrite (step_auth hmac secret ws a _ Ha Hca Hsa). cbn [conn waiting registry app].
    rewrite (step_resume_subscribe hmac secret ws a) by reflexivity.
    rewrite (step_auth hmac secret ws b _ Hb Hcb Hsb). cbn [conn waiting registry app].
    rewrite (step_resume_subscribe hmac secret ws b) by reflexivity.
    rewrite (step_closed hmac secret ws b) by (reflexivity || exact Hb). cbn [app].
    rewrite (step_resume_unsubscribe hmac secret ws b) by reflexivity.
    cbn [conn registry].
    set (st2 := subscribeSocket b ws (subscribeSocket a ws st)).
    assert (Hentry_a : subscribers (unsubscribeSocket b ws st2) !! a = Some {[ws]}).
    { rewrite unsubscribeSocket_others by exact Hab. unfold st2.
      rewrite subscribeSocket_others by exact Hab.
      rewrite subscribeSocket_entry, Hna. cbn. f_equal. apply union_empty_l_L. }
    split; [exact Hentry_a|]. split; [|split; [|reflexivity]].
    + rewrite unsubscribeSocket_entry. unfold st2.
      rewrite subscribeSocket_entry, subscribeSocket_others, Hnb by congruence. cbn.
      destruct (decide ((∅ ∪ {[ws]}) ∖ {[ws]} = (∅ : gset nat))) as [_|Hn]; [reflexivity|].
      exfalso. apply Hn. rewrite union_empty_l_L. apply difference_diag_L.
    + assert (Hcons : ws_consistent (unsubscribeSocket b ws st2)).
      { apply unsubscribeSocket_consistent. unfold st2.
        now do 2 apply subscribeSocket_consistent. }
      destruct Hcons as [_ Hch]. apply Hch. exists a. split; [reflexivity|].
      rewrite Hentry_a. eauto.
  - unfold session_run, back_to_back, session_new. cbn [foldl].
    rewrite (step_auth hmac secret ws a _ Ha Hca Hsa). cbn [conn waiting registry app].
    rewrite (step_auth hmac secret ws b _ Hb Hcb Hsb). cbn [conn waiting registry app].
    rewrite (step_resume_subscribe hmac secret ws b) by reflexivity.
    rewrite (step_resume_subscribe hmac secret ws b) by reflexivity.
    rewrite (step_closed hmac secret ws b) by (reflexivity || exact Hb). cbn [app].
    rewrite (step_resume_unsubscribe hmac secret ws b) by reflexivity.
    cbn [conn registry].
    rewrite subscribeSocket_again.
    rewrite (unsubscribeSocket_last b ws (subscribeSocket b ws st)
               (default ∅ (subscribers st !! b) ∪ {[ws]})).
    + cbn. split; [|split; [|reflexivity]].
      * apply map_eq. intros k. destruct (decide (k = b)) as [->|Hk].
        -- now rewrite lookup_delete_eq, Hnb.
        -- rewrite lookup_delete_ne by congruence. now apply subscribeSocket_others.
      * rewrite subscribeSocket_commands, Hnb. now rewrite <- app_assoc.
    + apply subscribeSocket_entry.
    + rewrite Hnb. cbn. rewrite union_empty_l_L. apply difference_diag_L.
Qed.

Lemma session_for_two_orders_depends_on_arrival_witness :
  (forall s, s = session_run hmac_standin None 7
                   (one_at_a_time hmac_standin None "order-1" "order-2")
                   (session_new ws_fresh) ->
     subscribers (registry s) !! "order-1" = Some {[7%nat]} /\
     subscribers (registry s) !! "order-2" = None /\
     order_channel "order-1" ∈ subscribed_channels (sub_commands (registry s)) /\
     replies (conn s) = [ReplySubscribed "order-1"; ReplySubscribed "order-2"]) /\
  (forall s, s = session_run hmac_standin None 7
                   (back_to_back hmac_standin None "order-1" "order-2")
                   (session_new ws_fresh) ->
     subscribers (registry s) = subscribers ws_fresh /\
     sub_commands (registry s)
     = sub_commands ws_fresh
       ++ [SUBSCRIBE (order_channel "order-2"); UNSUBSCRIBE (order_channel "order-2")] /\
     replies (conn s) = [ReplySubscribed "order-2"; ReplySubscribed "order-2"]).
Proof.
  apply (session_for_two_orders_depends_on_arrival hmac_standin None 7%nat
           "order-1" "order-2" ws_fresh);
    first [discriminate | reflexivity | exact ws_fresh_consistent].
Defined.

(** ** The admission route *)

Lemma insertOrder_fresh (outcome : nat -> option Err) (o : NewOrder)
    (tbl : gmap string OrderRow) :
  tbl !! no_id o = None ->
  (exists k, (k < 4)%nat /\ outcome k = None) ->
  insertOrder outcome o tbl = (Ok tt, <[no_id o := inserted_row o]> tbl).
Proof.
  intros Hnone (k & Hk & Hok).
  unfold insertOrder, retry, retry_loop, try_catch, insert_query, throw.
  destruct k as [|[|[|[|k]]]]; [..|lia];
    destruct (outcome 0%nat) eqn:H0, (outcome 1%nat) eqn:H1,
             (outcome 2%nat) eqn:H2, (outcome 3%nat) eqn:H3;
    try discriminate; now rewrite Hnone.
Qed.

Lemma insertOrder_cases (outcome : nat -> option Err) (o : NewOrder)
    (tbl : gmap string OrderRow) :
  (tbl !! no_id o = None /\
   insertOrder outcome o tbl = (Ok tt, <[no_id o := inserted_row o]> tbl)) \/
  (exists e, insertOrder outcome o tbl = (Throw e, tbl)).
Proof.
  unfold insertOrder, retry, retry_loop, try_catch, insert_query, throw.
  destruct (tbl !! no_id o) as [row|] eqn:Hrow.
  - right.
    destruct (outcome 0%nat), (outcome 1%nat), (outcome 2%nat), (outcome 3%nat);
      cbn; rewrite ?Hrow; eauto.
  - destruct (outcome 0%nat), (outcome 1%nat), (outcome 2%nat), (outcome 3%nat);
      cbn; rewrite ?Hrow;
      first [left; split; reflexivity | right; eauto].
Qed.

Section RouteFacts.
Variable hmac : string -> string -> string.
Variable secret : option string.
Variable toS : Json -> Res string.
Variable pgt : Json -> string.
Variable enc : string -> string.

Lemma body_complete_passes b :
  body_complete b ->
  (negb (js_truthy (Some b ≫= b_token_in)) || negb (js_truthy (Some b ≫= b_token_out))
   || negb (js_truthy (Some b ≫= b_amount_in)))%bool = false.
Proof. intros (H1 & H2 & H3). cbn. now rewrite H1, H2, H3. Qed.

(** A complete request with a fresh id, up to the enqueue. *)
Lemma execute_route_inserted uuid ins add b amount s :
  body_complete b ->
  toS (default JNull (b_amount_in b)) = Ok amount ->
  api_db s !! uuid = None ->
  (exists k, (k < 4)%nat /\ ins k = None) ->
  execute_route hmac secret toS pgt enc uuid ins add (Some b) s
  = match add with
    | None =>
        (Ok (Reply200 uuid (createWsToken hmac secret uuid)
               ("/ws?token=" ++ enc (createWsToken hmac secret uuid))%string),
         {| api_db := <[uuid := route_row pgt b amount]> (api_db s);
            api_queue := api_queue s ++ [route_job uuid b amount] |})
    | Some _ =>
        (Ok (Reply500 "internal_error"),
         {| api_db := <[uuid := route_row pgt b amount]> (api_db s);
            api_queue := api_queue s |})
    end.
Proof.
  intros Hb Hamount Hfresh Hins. unfold execute_route.
  rewrite (body_complete_passes b Hb).
  unfold try_catch, bind, of_res, on_db.
  change (Some b ≫= b_token_in) with (b_token_in b).
  change (Some b ≫= b_token_out) with (b_token_out b).
  change (Some b ≫= b_amount_in) with (b_amount_in b).
  change (Some b ≫= b_user_id) with (b_user_id b).
  rewrite Hamount.
  rewrite insertOrder_fresh by (cbn [no_id]; assumption).
  destruct add as [e|]; reflexivity.
Qed.
End RouteFacts.

(** X22. A complete request is stored, queued and authorised. When the body
    names both tokens and an amount, the id drawn is new to the table, one
    of the four attempts of the insert gets through and the enqueue
    succeeds, the route answers with the id, adds exactly one row for it
    (status [pending], 0 attempts), appends exactly one job for it (name
    [execute], 3 attempts, the amount as the string stored), and the token
    in the answer is accepted by [verifyWsToken] for that order. *)
Theorem accepted_order_is_stored_queued_and_authorised
    (hmac : string -> string -> string) (secret : option string)
    (toS : Json -> Res string) (pgt : Json -> string) (enc : string -> string)
    (uuid : string) (ins : nat -> option Err) (b : Body) (amount : string) (s : Api) :
  body_complete b ->
  toS (default JNull (b_amount_in b)) = Ok amount ->
  api_db s !! uuid = None ->
  (exists k, (k < 4)%nat /\ ins k = None) ->
  has_char ":" uuid = false ->
  has_char ":" (hmac (ws_secret secret) uuid) = false ->
  exists tok url,
    execute_route hmac secret toS pgt enc uuid ins None (Some b) s
    = (Ok (Reply200 uuid tok url),
       {| api_db := <[uuid := route_row pgt b amount]> (api_db s);
          api_queue := api_queue s ++ [route_job uuid b amount] |}) /\
    verifyWsToken hmac secret (Some tok) = Some uuid.
Proof.
  intros Hb Hamount Hfresh Hins Hid Hsig.
  eexists _, _. split.
  - exact (execute_route_inserted hmac secret toS pgt enc uuid ins None b amount s
             Hb Hamount Hfresh Hins).
  - now apply verifyWsToken_created.
Qed.

Lemma accepted_order_is_stored_queued_and_authorised_witness :
  exists tok url,
    execute_route hmac_standin None toString_standin pg_text_standin (fun t => t)
      "order-2" (fun _ => None) None (Some body1) api_new
    = (Ok (Reply200 "order-2" tok url),
       {| api_db := <["order-2" := route_row pg_text_standin body1 "1000000"]>
                      (api_db api_new);
          api_queue := api_queue api_new ++ [route_job "order-2" body1 "1000000"] |}) /\
    verifyWsToken hmac_standin None (Some tok) = Some "order-2".
Proof.
  apply (accepted_order_is_stored_queued_and_authorised hmac_standin None
           toString_standin pg_text_standin (fun t => t) "order-2" (fun _ => None)
           body1 "1000000" api_new).
  - do 2 (split; [reflexivity|]); reflexivity.
  - reflexivity.
  - reflexivity.
  - exists 0%nat. split; [lia|reflexivity].
  - reflexivity.
  - reflexivity.
Defined.

(** X23. The route never throws, and a job is queued only with a 200. For
    every body and every behaviour of Postgres and Redis the handler
    answers; with 400 nothing has changed; with 500 the queue is as it was;
    with 200 the id is the one drawn, it was new to the table, it has a row
    now, and the queue has grown by one job for that id. *)
Theorem execute_route_queues_only_accepted_orders
    (hmac : string -> string -> string) (secret : option string)
    (toS : Json -> Res string) (pgt : Json -> string) (enc : string -> string)
    (uuid : string) (ins : nat -> option Err) (add : option Err)
    (body : option Body) (s : Api) :
  exists r s',
    execute_route hmac secret toS pgt enc uuid ins add body s = (Ok r, s') /\
    match r with
    | Reply400 _ => s' = s
    | Reply500 _ => api_queue s' = api_queue s
    | Reply200 id _ _ =>
        id = uuid /\ api_db s !! uuid = None /\ is_Some (api_db s' !! uuid) /\
        exists j, api_queue s' = api_queue s ++ [j] /\ q_orderId j = uuid /\
                  q_attempts j = 3%nat
    end.
Proof.
  unfold execute_route.
  destruct (negb (js_truthy (body ≫= b_token_in)) || negb (js_truthy (body ≫= b_token_out))
            || negb (js_truthy (body ≫= b_amount_in)))%bool.
  { eexists _, _. split; [reflexivity|]. reflexivity. }
  unfold try_catch, bind, of_res, on_db.
  destruct (toS (default JNull (body ≫= b_amount_in))) as [amount|e].
  2:{ eexists _, _. split; [reflexivity|]. reflexivity. }
  match goal with
  | |- context [insertOrder ins ?o (api_db s)] =>
      destruct (insertOrder_cases ins o (api_db s)) as [[Hfresh ->]|[e ->]]
  end.
  2:{ eexists _, _. split; [reflexivity|]. reflexivity. }
  cbn [no_id] in Hfresh.
  destruct add as [e|].
  - eexists _, _. split; [reflexivity|]. reflexivity.
  - eexists _, _. split; [reflexivity|]. cbn.
    split; [reflexivity|]. split; [exact Hfresh|].
    split; [rewrite lookup_insert_eq; eauto|].
    eexists. split; [reflexivity|]. split; reflexivity.
Qed.

(** A body without an amount, and one whose amount is the number 0, are
    refused; the string ["0"] is an amount. *)
Example execute_route_amounts :
  fst (execute_route hmac_standin None toString_standin pg_text_standin (fun t => t)
         "order-2" (fun _ => None) None None api_new)
  = Ok (Reply400 "token_in, token_out, amount_in required") /\
  fst (execute_route hmac_standin None toString_standin pg_text_standin (fun t => t)
         "order-2" (fun _ => None) None
         (Some {| b_user_id := None; b_token_in := Some (JStr "MintA");
                  b_token_out := Some (JStr "MintB"); b_amount_in := Some (JNum 0) |})
         api_new)
  = Ok (Reply400 "token_in, token_out, amount_in required") /\
  exists tok url,
    fst (execute_route hmac_standin None toString_standin pg_text_standin (fun t => t)
           "order-2" (fun _ => None) None
           (Some {| b_user_id := None; b_token_in := Some (JStr "MintA");
                    b_token_out := Some (JStr "MintB"); b_amount_in := Some (JStr "0") |})
           api_new)
    = Ok (Reply200 "order-2" tok url).
Proof. split; [reflexivity|]. split; [reflexivity|]. eexists _, _. reflexivity. Qed.

(** X24. An order whose enqueue fails is answered with 500 and stays in the
    table. When the insert has succeeded and [queue.add] throws, the
    handler answers [internal_error], the queue has no job for the order,
    and the row it inserted is still there with status [pending]: the
    insert is not undone. *)
Theorem failed_enqueue_leaves_a_pending_row
    (hmac : string -> string -> string) (secret : option string)
    (toS : Json -> Res string) (pgt : Json -> string) (enc : string -> string)
    (uuid : string) (ins : nat -> option Err) (err : Err)
    (b : Body) (amount : string) (s : Api) :
  body_complete b ->
  toS (default JNull (b_amount_in b)) = Ok amount ->
  api_db s !! uuid = None ->
  (exists k, (k < 4)%nat /\ ins k = None) ->
  forall r s',
    execute_route hmac secret toS pgt enc uuid ins (Some err) (Some b) s = (r, s') ->
    r = Ok (Reply500 "internal_error") /\
    api_queue s' = api_queue s /\
    api_db s' !! uuid = Some (route_row pgt b amount) /\
    status (route_row pgt b amount) = pending /\
    (forall id', id' <> uuid -> api_db s' !! id' = api_db s !! id').
Proof.
  intros Hb Hamount Hfresh Hins r s'.
  rewrite (execute_route_inserted hmac secret toS pgt enc uuid ins (Some err) b amount s
             Hb Hamount Hfresh Hins).
  intros [= <- <-]. cbn [api_db api_queue].
  split; [reflexivity|]. split; [reflexivity|].
  split; [apply lookup_insert_eq|]. split; [reflexivity|].
  intros id' Hne. now rewrite lookup_insert_ne by congruence.
Qed.

Lemma failed_enqueue_leaves_a_pending_row_witness :
  api_db api_new !! "order-2" = None /\
  forall r s',
    execute_route hmac_standin None toString_standin pg_text_standin (fun t => t)
      "order-2" (fun _ => None) (Some "ECONNREFUSED") (Some body1) api_new = (r, s') ->
    r = Ok (Reply500 "internal_error") /\
    api_queue s' = api_queue api_new /\
    api_db s' !! "order-2" = Some (route_row pg_text_standin body1 "1000000") /\
    status (route_row pg_text_standin body1 "1000000") = pending /\
    (forall id', id' <> "order-2" -> api_db s' !! id' = api_db api_new !! id').
Proof.
  split; [reflexivity|].
  apply (failed_enqueue_leaves_a_pending_row hmac_standin None toString_standin
           pg_text_standin (fun t => t) "order-2" (fun _ => None) "ECONNREFUSED"
           body1 "1000000" api_new).
  - do 2 (split; [reflexivity|]); reflexivity.
  - reflexivity.
  - reflexivity.
  - exists 0%nat. split; [lia|reflexivity].
Defined.

(** ** The Raydium quote *)

Lemma fallback_estimate_value amountIn reserveIn reserveOut m :
  0 <= amountIn -> 0 <= reserveIn -> 0 <= reserveOut ->
  0 < reserveIn + amountIn -> 0 <= m ->
  fallback_estimate amountIn (Some reserveIn) (Some reserveOut) (Ok m)
  = Ok ((amountIn * reserveOut / (reserveIn + amountIn)) * m / 100000).
Proof.
  intros Ha Hr HR Hd Hm. unfold fallback_estimate, BN_of_raw, BN_div.
  destruct (Z.eqb_spec (reserveIn + amountIn) 0) as [H0|_]; [lia|].
  cbn [Z.eqb]. f_equal.
  rewrite (Z.quot_div_nonneg (amountIn * reserveOut)) by nia.
  assert (0 <= amountIn * reserveOut / (reserveIn + amountIn))
    by (apply Z.div_pos; nia).
  apply Z.quot_div_nonneg; nia.
Qed.

Lemma product_share_le a r R :
  0 <= a -> 0 <= r -> 0 <= R -> 0 < r + a -> a * R / (r + a) <= R.
Proof.
  intros Ha Hr HR Hd. apply Z.div_le_upper_bound; nia.
Qed.


(** X25. The constant-product estimate is bounded by the pool. For an
    amount and reserves that are not negative, a pool or an amount that is
    not empty, and a fee multiplier between 0 and 100000, the estimate is
    computed, is not negative, is at most the reserve of the output token,
    is never better than the constant-product price
    [amountIn * reserveOut / (reserveIn + amountIn)], and equals it when
    the fee is zero. *)
Theorem fallback_estimate_bounded_by_pool
    (amountIn reserveIn reserveOut m : Z) :
  0 <= amountIn -> 0 <= reserveIn -> 0 <= reserveOut ->
  0 < reserveIn + amountIn -> 0 <= m <= 100000 ->
  exists out,
    fallback_estimate amountIn (Some reserveIn) (Some reserveOut) (Ok m) = Ok out /\
    0 <= out <= reserveOut /\
    out * (reserveIn + amountIn) <= amountIn * reserveOut /\
    (m = 100000 -> out = amountIn * reserveOut / (reserveIn + amountIn)).
Proof.
  intros Ha Hr HR Hd Hm.
  rewrite fallback_estimate_value by lia. eexists. split; [reflexivity|].
  set (rawOut := amountIn * reserveOut / (reserveIn + amountIn)).
  assert (Hraw0 : 0 <= rawOut) by (apply Z.div_pos; nia).
  assert (HrawR : rawOut <= reserveOut) by now apply product_share_le.
  assert (Hmul : (reserveIn + amountIn) * rawOut <= amountIn * reserveOut)
    by (apply Z.mul_div_le; lia).
  assert (Hout0 : 0 <= rawOut * m / 100000) by (apply Z.div_pos; nia).
  assert (Houtraw : rawOut * m / 100000 <= rawOut)
    by (apply Z.div_le_upper_bound; nia).
  split; [lia|]. split; [nia|].
  intros ->. now rewrite Z.div_mul by lia.
Qed.

Lemma fallback_estimate_bounded_by_pool_witness :
  exists out,
    fallback_estimate 1000 (Some 1000000) (Some 2000000) (Ok 99750) = Ok out /\
    0 <= out <= 2000000 /\
    out * (1000000 + 1000) <= 1000 * 2000000 /\
    (99750 = 100000 -> out = 1000 * 2000000 / (1000000 + 1000)).
Proof.
  apply (fallback_estimate_bounded_by_pool 1000 1000000 2000000 99750); lia.
Defined.



(** An estimate that cannot be computed: missing reserves, an empty pool
    asked for nothing, a fee that is not a number. *)
Lemma getRaydiumQuote_failed_estimate sdk data poolId inputMint amountIn e :
  Raydium.initSdk sdk = None ->
  Raydium.getPoolInfoFromRpc sdk = Ok data ->
  fallback_estimate amountIn
    (if String.eqb inputMint (Raydium.mintA_address data)
     then Raydium.baseReserve data else Raydium.quoteReserve data)
    (if String.eqb inputMint (Raydium.mintA_address data)
     then Raydium.quoteReserve data else Raydium.baseReserve data)
    (Raydium.fee_multiplier data) = Throw e ->
  Raydium.getRaydiumQuote sdk poolId inputMint amountIn
  = match Raydium.swapBaseInput sdk with
    | None => Ok {| dex := raydium; outAmountBn := amountIn;
                    details := JObj [("fallback", JBool true); ("error", JStr e)] |}
    | Some (Throw _) => Throw e
    | Some (Ok res) =>
        match Raydium.outputAmount res with
        | None =>
            Throw "TypeError: Cannot read properties of undefined (reading 'toString')"
        | Some out =>
            Ok {| dex := raydium; outAmountBn := out;
                  details := JObj [("swapResult", Raydium.swapResult res)] |}
        end
    end.
Proof.
  intros Hinit Hpool Hest. unfold Raydium.getRaydiumQuote.
  rewrite Hinit, Hpool. cbv zeta. rewrite Hest.
  destruct (Raydium.swapBaseInput sdk) as [[res|e']|]; reflexivity.
Qed.

(** X27. The two copies of the estimate fail differently. When the pool
    data is read and the estimate cannot be computed, a router without
    curve calculator still quotes, and quotes the input amount itself, one
    for one; a router whose calculator threw fails with the error of the
    estimate. With a calculator missing the quote never fails once the
    pool data is read. *)
Theorem getRaydiumQuote_failed_estimate_quotes_one_for_one
    (sdk : Raydium.Sdk) (data : Raydium.PoolData) (poolId inputMint : string)
    (amountIn : Z) :
  Raydium.initSdk sdk = None ->
  Raydium.getPoolInfoFromRpc sdk = Ok data ->
  (Raydium.swapBaseInput sdk = None ->
   exists q, Raydium.getRaydiumQuote sdk poolId inputMint amountIn = Ok q /\
             dex q = raydium) /\
  (forall e,
      fallback_estimate amountIn
        (if String.eqb inputMint (Raydium.mintA_address data)
         then Raydium.baseReserve data else Raydium.quoteReserve data)
        (if String.eqb inputMint (Raydium.mintA_address data)
         then Raydium.quoteReserve data else Raydium.baseReserve data)
        (Raydium.fee_multiplier data) = Throw e ->
      (Raydium.swapBaseInput sdk = None ->
       exists d, Raydium.getRaydiumQuote sdk poolId inputMint amountIn
                 = Ok {| dex := raydium; outAmountBn := amountIn; details := d |}) /\
      (forall e', Raydium.swapBaseInput sdk = Some (Throw e') ->
                  Raydium.getRaydiumQuote sdk poolId inputMint amountIn = Throw e)).
Proof.
  intros Hinit Hpool. split.
  - intros Hnone. unfold Raydium.getRaydiumQuote. rewrite Hinit, Hpool, Hnone.
    cbv zeta.
    match goal with
    | |- context [fallback_estimate ?a ?b ?c ?d] =>
        destruct (fallback_estimate a b c d)
    end; eexists; split; reflexivity.
  - intros e Hest.
    rewrite (getRaydiumQuote_failed_estimate sdk data poolId inputMint amountIn e
               Hinit Hpool Hest).
    split.
    + intros ->. eexists. reflexivity.
    + intros e' ->. reflexivity.
Qed.

Lemma getRaydiumQuote_failed_estimate_quotes_one_for_one_witness :
  (Raydium.swapBaseInput (sdk_no_calculator pool_unread) = None ->
   exists q, Raydium.getRaydiumQuote (sdk_no_calculator pool_unread)
               "RaydiumPool111" "MintA" 5000 = Ok q /\
             dex q = raydium) /\
  (forall e,
      fallback_estimate 5000
        (if String.eqb "MintA" (Raydium.mintA_address pool_unread)
         then Raydium.baseReserve pool_unread else Raydium.quoteReserve pool_unread)
        (if String.eqb "MintA" (Raydium.mintA_address pool_unread)
         then Raydium.quoteReserve pool_unread else Raydium.baseReserve pool_unread)
        (Raydium.fee_multiplier pool_unread) = Throw e ->
      (Raydium.swapBaseInput (sdk_no_calculator pool_unread) = None ->
       exists d, Raydium.getRaydiumQuote (sdk_no_calculator pool_unread)
                   "RaydiumPool111" "MintA" 5000
                 = Ok {| dex := raydium; outAmountBn := 5000; details := d |}) /\
      (forall e', Raydium.swapBaseInput (sdk_no_calculator pool_unread)
                  = Some (Throw e') ->
                  Raydium.getRaydiumQuote (sdk_no_calculator pool_unread)
                    "RaydiumPool111" "MintA" 5000 = Throw e)).
Proof.
  apply (getRaydiumQuote_failed_estimate_quotes_one_for_one
           (sdk_no_calculator pool_unread) pool_unread "RaydiumPool111" "MintA" 5000);
    reflexivity.
Defined.

(** The same unread pool behind a calculator that throws: no quote. *)
Example getRaydiumQuote_unread_pool :
  Raydium.getRaydiumQuote (sdk_no_calculator pool_unread) "RaydiumPool111" "MintA" 5000
  = Ok {| dex := raydium; outAmountBn := 5000;
          details :=
            JObj [("fallback", JBool true);
                  ("error",
                   JStr "TypeError: Cannot read properties of undefined (reading 'toString')")] |} /\
  Raydium.getRaydiumQuote (sdk_calculator_throws pool_unread) "RaydiumPool111" "MintA" 5000
  = Throw "TypeError: Cannot read properties of undefined (reading 'toString')" /\
  Raydium.getRaydiumQuote (sdk_no_calculator pool1) "RaydiumPool111" "MintA" 5000
  = Ok {| dex := raydium; outAmountBn := 9925;
          details :=
            JObj [("fallback", JBool true);
                  ("rpcDataSnapshot",
                   JObj [("reserveInRaw", JNum 1000000);
                         ("reserveOutRaw", JNum 2000000);
                         ("feeRate", JNum 0)])] |}.
Proof. split; [reflexivity|]. split; reflexivity. Qed.

(** X28. A Raydium pool that cannot be priced wins the routing. In live
    mode with both pools configured, when the router has no curve
    calculator and the estimate for the Raydium pool cannot be computed,
    [getBestQuote] chooses Raydium with the input amount as the expected
    output whenever Meteora quotes less than the input amount. *)
Theorem getBestQuote_prefers_unpriced_raydium_pool
    (env : Env) (params : QuoteParams) (sdk : Raydium.Sdk) (data : Raydium.PoolData)
    (a : Z) (d : Json) (e : Err) :
  envUseMock env = false ->
  truthy (qp_meteoraPoolAddress params) = true ->
  truthy (qp_raydiumPoolId params) = true ->
  meteora_quote env = Ok (a, d) ->
  raydium_quote env
  = quote_result (Raydium.getRaydiumQuote sdk (default "" (qp_raydiumPoolId params))
                    (qp_tokenIn params) (qp_amountInBn params)) ->
  Raydium.initSdk sdk = None ->
  Raydium.getPoolInfoFromRpc sdk = Ok data ->
  Raydium.swapBaseInput sdk = None ->
  fallback_estimate (qp_amountInBn params)
    (if String.eqb (qp_tokenIn params) (Raydium.mintA_address data)
     then Raydium.baseReserve data else Raydium.quoteReserve data)
    (if String.eqb (qp_tokenIn params) (Raydium.mintA_address data)
     then Raydium.quoteReserve data else Raydium.baseReserve data)
    (Raydium.fee_multiplier data) = Throw e ->
  a < qp_amountInBn params ->
  exists chosen,
    best_quote env params = Ok chosen /\
    dex chosen = raydium /\ outAmountBn chosen = qp_amountInBn params.
Proof.
  intros Hlive Hm Hr Hmq Hrq Hinit Hpool Hnone Hest Hlt.
  rewrite (getRaydiumQuote_failed_estimate sdk data _ _ _ e Hinit Hpool Hest), Hnone
    in Hrq.
  cbn [quote_result outAmountBn details] in Hrq.
  unfold best_quote. rewrite getBestQuote_live by exact Hlive.
  unfold collected, venue_quotes. rewrite Hm, Hr, Hmq, Hrq.
  cbn [app]. rewrite array_sort_two. unfold compareQuotes. cbn [outAmountBn].
  destruct (Z.eqb_spec a (qp_amountInBn params)) as [Heq|_]; [lia|].
  destruct (Z.gtb_spec a (qp_amountInBn params)) as [Hgt|_]; [lia|].
  cbn. eexists. split; [reflexivity|]. split; reflexivity.
Qed.

Lemma getBestQuote_prefers_unpriced_raydium_pool_witness :
  exists chosen,
    best_quote (env_raydium (sdk_no_calculator pool_unread) 5000) (params_live 5000)
    = Ok chosen /\
    dex chosen = raydium /\ outAmountBn chosen = qp_amountInBn (params_live 5000).
Proof.
  apply (getBestQuote_prefers_unpriced_raydium_pool
           (env_raydium (sdk_no_calculator pool_unread) 5000) (params_live 5000)
           (sdk_no_calculator pool_unread) pool_unread 4999 JNull
           "TypeError: Cannot read properties of undefined (reading 'toString')");
    first [reflexivity | lia].
Defined.

(** ** Amounts written with a decimal point *)

Lemma string_length_app (a b : string) :
  String.length (a ++ b)%string = (String.length a + String.length b)%nat.
Proof.
  induction a as [|c a IH]; [reflexivity|].
  change (Datatypes.S (String.length (a ++ b)%string)
          = Datatypes.S (String.length a + String.length b)).
  now rewrite IH.
Qed.

Lemma all_digits_app (a b : string) :
  all_digits (a ++ b)%string = (all_digits a && all_digits b)%bool.
Proof.
  induction a as [|c a IH]; [reflexivity|].
  change (is_digit c && all_digits (a ++ b)%string
          = is_digit c && all_digits a && all_digits b)%bool.
  now rewrite IH, andb_assoc.
Qed.

Lemma is_digit_range c : is_digit c = true -> 0 <= digit_of c <= 9.
Proof.
  unfold is_digit, digit_of. intros H. apply andb_true_iff in H as [H1 H2].
  apply Nat.leb_le in H1, H2. lia.
Qed.

Lemma is_digit_not_special c : is_digit c = true -> Ascii.eqb c "-" = false /\ Ascii.eqb c "." = false.
Proof.
  intros H. split.
  - destruct (Ascii.eqb_spec c "-") as [->|]; [discriminate H|reflexivity].
  - destruct (Ascii.eqb_spec c ".") as [->|]; [discriminate H|reflexivity].
Qed.

Lemma all_digits_no_point s : all_digits s = true -> has_char "." s = false.
Proof.
  induction s as [|c s IH]; [reflexivity|]. cbn [all_digits has_char].
  intros H. apply andb_true_iff in H as [Hc Hs].
  destruct (is_digit_not_special c Hc) as [_ ->]. now rewrite (IH Hs).
Qed.

Lemma parse_digits_acc s : forall acc,
  parse_digits acc s = acc * 10 ^ Z.of_nat (String.length s) + parse_digits 0 s.
Proof.
  induction s as [|c s IH]; intros acc.
  - cbn. lia.
  - cbn [parse_digits String.length]. rewrite (IH (acc * 10 + digit_of c)).
    rewrite (IH (0 * 10 + digit_of c)).
    rewrite Nat2Z.inj_succ, Z.pow_succ_r by lia. ring.
Qed.

Lemma parse_digits_app a b :
  parse_digits 0 (a ++ b)%string
  = parse_digits 0 a * 10 ^ Z.of_nat (String.length b) + parse_digits 0 b.
Proof.
  revert b. induction a as [|c a IH] using
    (fun P => String.string_ind P); intros b.
  - change (parse_digits 0 b = 0 * 10 ^ Z.of_nat (String.length b) + parse_digits 0 b).
    lia.
  - change (parse_digits (0 * 10 + digit_of c) (a ++ b)%string
            = parse_digits (0 * 10 + digit_of c) a * 10 ^ Z.of_nat (String.length b)
              + parse_digits 0 b).
    rewrite (parse_digits_acc (a ++ b)%string), (parse_digits_acc a), IH.
    rewrite string_length_app, Nat2Z.inj_add, Z.pow_add_r by lia. ring.
Qed.

Lemma parse_digits_range s :
  all_digits s = true -> 0 <= parse_digits 0 s < 10 ^ Z.of_nat (String.length s).
Proof.
  induction s as [|c s IH]; [cbn; lia|]. cbn [all_digits parse_digits String.length].
  intros H. apply andb_true_iff in H as [Hc Hs].
  rewrite parse_digits_acc, Nat2Z.inj_succ, Z.pow_succ_r by lia.
  pose proof (is_digit_range c Hc). specialize (IH Hs).
  assert (0 < 10 ^ Z.of_nat (String.length s)) by (apply Z.pow_pos_nonneg; lia).
  nia.
Qed.

Lemma BN_of_string_digits s : all_digits s = true -> BN_of_string s = parse_digits 0 s.
Proof.
  destruct s as [|c s]; [reflexivity|]. cbn [all_digits BN_of_string].
  intros H. apply andb_true_iff in H as [Hc _].
  now destruct (is_digit_not_special c Hc) as [-> _].
Qed.

Lemma string_repeat_length c n : String.length (string_repeat c n) = n.
Proof. induction n as [|n IH]; [reflexivity|]. cbn. now rewrite IH. Qed.

Lemma string_repeat_zero n :
  all_digits (string_repeat "0" n) = true /\ parse_digits 0 (string_repeat "0" n) = 0.
Proof.
  induction n as [|n [IH1 IH2]]; [split; reflexivity|].
  cbn [string_repeat all_digits parse_digits]. split.
  - now rewrite IH1.
  - exact IH2.
Qed.

(** [s.slice(0, d)] cuts [s] in two. *)
Lemma substring_split s : forall d,
  (d <= String.length s)%nat ->
  exists rest, s = (substring 0 d s ++ rest)%string /\
               String.length (substring 0 d s) = d.
Proof.
  induction s as [|c s IH]; intros d Hd.
  - cbn in Hd. assert (d = 0%nat) as -> by lia. exists EmptyString. split; reflexivity.
  - destruct d as [|d].
    + exists (String c s). split; reflexivity.
    + cbn in Hd. destruct (IH d) as (rest & Hs & Hl); [lia|].
      exists rest. cbn [substring]. split.
      * change (String c s = String c (substring 0 d s ++ rest)%string).
        now rewrite <- Hs.
      * cbn. now rewrite Hl.
Qed.

(** The digits kept of the fraction: it is cut, not rounded. *)
Lemma padded_value f d :
  all_digits f = true ->
  all_digits (substring 0 d (f ++ string_repeat "0" d)%string) = true /\
  parse_digits 0 (substring 0 d (f ++ string_repeat "0" d)%string)
  = parse_digits 0 f * 10 ^ Z.of_nat d / 10 ^ Z.of_nat (String.length f).
Proof.
  intros Hf. destruct (string_repeat_zero d) as [Hz1 Hz2].
  destruct (substring_split (f ++ string_repeat "0" d)%string d) as (rest & Hs & Hl).
  { rewrite string_length_app, string_repeat_length. lia. }
  set (padded := substring 0 d (f ++ string_repeat "0" d)%string) in *.
  assert (Hall : all_digits (padded ++ rest)%string = true).
  { rewrite <- Hs, all_digits_app, Hf, Hz1. reflexivity. }
  rewrite all_digits_app in Hall. apply andb_true_iff in Hall as [Hp Hr].
  split; [exact Hp|].
  assert (Hlen : String.length rest = String.length f).
  { apply (f_equal String.length) in Hs.
    rewrite !string_length_app, string_repeat_length, Hl in Hs. lia. }
  assert (Hval : parse_digits 0 f * 10 ^ Z.of_nat d
                 = parse_digits 0 padded * 10 ^ Z.of_nat (String.length f)
                   + parse_digits 0 rest).
  { rewrite <- Hlen, <- parse_digits_app, <- Hs, parse_digits_app.
    rewrite string_repeat_length, Hz2. lia. }
  pose proof (parse_digits_range rest Hr) as Hrange. rewrite Hlen in Hrange.
  apply (Z.div_unique_pos _ _ _ (parse_digits 0 rest)); [lia|].
  rewrite Hval. ring.
Qed.

Lemma or_string_zero_value i : all_digits i = true ->
  all_digits (or_string i "0") = true /\
  parse_digits 0 (or_string i "0") = parse_digits 0 i.
Proof.
  intros Hi. unfold or_string. destruct (String.eqb_spec i "") as [->|_].
  - split; reflexivity.
  - split; [exact Hi|reflexivity].
Qed.

Lemma humanToBaseUnitsBN_parts s i f d :
  split_char "." s = [i; f] ->
  humanToBaseUnitsBN s d
  = if (0 <? String.length f)%nat
    then BN_of_string (or_string i "0") * 10 ^ Z.of_nat d
         + BN_of_string (substring 0 d (f ++ string_repeat "0" d)%string)
    else BN_of_string (or_string i "0") * 10 ^ Z.of_nat d.
Proof.
  intros Hs. unfold humanToBaseUnitsBN. rewrite Hs. cbn [lookup list_lookup].
  cbn [from_option Datatypes.id].
  assert (Hf : or_string f "" = f).
  { unfold or_string. now destruct (String.eqb_spec f "") as [->|_]. }
  now rewrite Hf.
Qed.

(** X29. [humanToBaseUnitsBN] cuts the amount to the decimals of the mint.
    For an amount written as digits, a point and digits, the result is the
    number written, times [10 ^ decimals], rounded down: fraction digits
    beyond [decimals] are dropped, not rounded, and missing ones count as
    zeros. An integer part that is empty counts as 0. An amount written as
    digits alone is multiplied by [10 ^ decimals]. *)
Theorem humanToBaseUnitsBN_truncates (i f : string) (d : nat) :
  all_digits i = true -> all_digits f = true ->
  humanToBaseUnitsBN (i ++ String "." f) d
  = parse_digits 0 (i ++ f) * 10 ^ Z.of_nat d / 10 ^ Z.of_nat (String.length f) /\
  (i <> EmptyString -> humanToBaseUnitsBN i d = parse_digits 0 i * 10 ^ Z.of_nat d).
Proof.
  intros Hi Hf.
  destruct (or_string_zero_value i Hi) as [Hi0 Hiv].
  destruct (padded_value f d Hf) as [Hp Hpv].
  assert (Hpos : 0 < 10 ^ Z.of_nat (String.length f)) by (apply Z.pow_pos_nonneg; lia).
  split.
  - rewrite (humanToBaseUnitsBN_parts _ i f d).
    2:{ rewrite split_char_app by now apply all_digits_no_point.
        now rewrite split_char_no_sep by now apply all_digits_no_point. }
    rewrite (BN_of_string_digits _ Hi0), Hiv, parse_digits_app.
    replace ((parse_digits 0 i * 10 ^ Z.of_nat (String.length f) + parse_digits 0 f)
             * 10 ^ Z.of_nat d)
      with (parse_digits 0 i * 10 ^ Z.of_nat d * 10 ^ Z.of_nat (String.length f)
            + parse_digits 0 f * 10 ^ Z.of_nat d) by ring.
    rewrite Z.div_add_l by lia.
    destruct (0 <? String.length f)%nat eqn:Hlen.
    + now rewrite (BN_of_string_digits _ Hp), Hpv.
    + apply Nat.ltb_ge in Hlen. destruct f; [|cbn in Hlen; lia].
      cbn. rewrite Z.div_1_r. lia.
  - intros Hne. unfold humanToBaseUnitsBN.
    rewrite split_char_no_sep by now apply all_digits_no_point.
    cbn [lookup list_lookup from_option Datatypes.id].
    change (or_string "" "") with EmptyString. cbn [String.length Nat.ltb Nat.leb].
    now rewrite (BN_of_string_digits _ Hi0), Hiv.
Qed.

Lemma humanToBaseUnitsBN_truncates_witness :
  humanToBaseUnitsBN "12.3456" 2 = 1234 /\
  humanToBaseUnitsBN "12" 2 = 1200.
Proof.
  destruct (humanToBaseUnitsBN_truncates "12" "3456" 2 eq_refl eq_refl) as [H1 H2].
  split.
  - exact H1.
  - apply H2. discriminate.
Defined.

(** X30. The minus sign reaches the integer part only. For a negative
    amount with a non-empty integer part the fraction is added to the
    negated integer part, not subtracted: the result and the result for
    the amount without its sign add up to twice the fraction, in base
    units. *)
Theorem humanToBaseUnitsBN_sign_misses_fraction (i f : string) (d : nat) :
  i <> EmptyString -> all_digits i = true -> all_digits f = true ->
  humanToBaseUnitsBN (String "-" (i ++ String "." f)) d
  = - (parse_digits 0 i * 10 ^ Z.of_nat d)
    + parse_digits 0 f * 10 ^ Z.of_nat d / 10 ^ Z.of_nat (String.length f) /\
  humanToBaseUnitsBN (String "-" (i ++ String "." f)) d
  + humanToBaseUnitsBN (i ++ String "." f) d
  = 2 * (parse_digits 0 f * 10 ^ Z.of_nat d / 10 ^ Z.of_nat (String.length f)).
Proof.
  intros Hne Hi Hf.
  destruct (or_string_zero_value i Hi) as [Hi0 Hiv].
  destruct (padded_value f d Hf) as [Hp Hpv].
  assert (Hpos : 0 < 10 ^ Z.of_nat (String.length f)) by (apply Z.pow_pos_nonneg; lia).
  assert (Hplain : humanToBaseUnitsBN (i ++ String "." f) d
                   = parse_digits 0 i * 10 ^ Z.of_nat d
                     + parse_digits 0 f * 10 ^ Z.of_nat d
                       / 10 ^ Z.of_nat (String.length f)).
  { rewrite (humanToBaseUnitsBN_parts _ i f d).
    2:{ rewrite split_char_app by now apply all_digits_no_point.
        now rewrite split_char_no_sep by now apply all_digits_no_point. }
    rewrite (BN_of_string_digits _ Hi0), Hiv.
    destruct (0 <? String.length f)%nat eqn:Hlen.
    - now rewrite (BN_of_string_digits _ Hp), Hpv.
    - apply Nat.ltb_ge in Hlen. destruct f; [|cbn in Hlen; lia].
      cbn. rewrite Z.div_1_r. lia. }
  assert (Hneg : humanToBaseUnitsBN (String "-" (i ++ String "." f)) d
                 = - (parse_digits 0 i * 10 ^ Z.of_nat d)
                   + parse_digits 0 f * 10 ^ Z.of_nat d
                     / 10 ^ Z.of_nat (String.length f)).
  { rewrite (humanToBaseUnitsBN_parts _ (String "-" i) f d).
    2:{ change (String "-" (i ++ String "." f)%string)
          with ((String "-" i) ++ String "." f)%string.
        rewrite split_char_app.
        - now rewrite split_char_no_sep by now apply all_digits_no_point.
        - cbn [has_char]. now rewrite (all_digits_no_point i Hi). }
    change (or_string (String "-" i) "0") with (String "-" i).
    assert (Hminus : BN_of_string (String "-" i) = - parse_digits 0 i) by reflexivity.
    rewrite Hminus.
    destruct (0 <? String.length f)%nat eqn:Hlen.
    - rewrite (BN_of_string_digits _ Hp), Hpv. lia.
    - apply Nat.ltb_ge in Hlen. destruct f; [|cbn in Hlen; lia].
      cbn. rewrite Z.div_1_r. lia. }
  split; [exact Hneg|]. rewrite Hneg, Hplain. lia.
Qed.

Lemma humanToBaseUnitsBN_sign_misses_fraction_witness :
  humanToBaseUnitsBN "-1.5" 1 = -5 /\
  humanToBaseUnitsBN "-1.5" 1 + humanToBaseUnitsBN "1.5" 1 = 10.
Proof.
  apply (humanToBaseUnitsBN_sign_misses_fraction "1" "5" 1);
    first [discriminate | reflexivity].
Defined.
